(** * Marble world: a shallow embedding of [model.py]

    The physics world of the repository ([MarbleWorld] in
    [code/python/model.py]) is embedded as pure functions with explicit
    state passing.  Python floats are read as rationals ([Q]); the values
    coming from a trial configuration (JSON) are read as [pyval]; Python
    exceptions are the [Raise] branch of [result].

    [pymunk] is an external library.  Its operations are the fields of the
    record [Engine]; the order in which [Space.step] runs its phases
    (positions, collision detection with the [begin] callbacks, the
    bodies' [velocity_func], the impulse solver) is the one of Chipmunk's
    [cpSpaceStep].  What the proofs need of the library is collected in
    [EngineLaws]; the instance [euler] is a small engine that meets it. *)

From Stdlib Require Import ZArith QArith Qround Qreduction List Sorted String Bool Lia.
Import ListNotations.

Local Open Scope Z_scope.
Local Open Scope string_scope.
Local Open Scope list_scope.
Local Set Warnings "-register-all".

(** ** Python values, exceptions *)

(** The values a trial configuration holds: numbers, strings, sequences. *)
Inductive pyval : Type :=
| VNum (q : Q)
| VStr (s : string)
| VList (l : list pyval).

Inductive exn : Type :=
| KeyError (key : string)
| TypeError (what : string).

Inductive result (A : Type) : Type :=
| Ok (a : A)
| Raise (e : exn).

Arguments Ok {A} a.
Arguments Raise {A} e.

Definition bind {A B : Type} (m : result A) (k : A -> result B) : result B :=
  match m with
  | Ok a => k a
  | Raise e => Raise e
  end.

Notation "x <- m ;; k" := (bind m (fun x => k))
  (at level 61, m at next level, right associativity).
Notation "' p <- m ;; k" := (bind m (fun x => let p := x in k))
  (at level 61, p pattern, m at next level, right associativity).

(** A [for] loop whose body may raise, threading the state [S]. *)
Fixpoint for_each {A S : Type} (l : list A) (body : A -> S -> result S) (s : S)
  : result S :=
  match l with
  | [] => Ok s
  | a :: l' => s' <- body a s ;; for_each l' body s'
  end.

(** ** Dictionaries in insertion order *)

Definition dict (V : Type) : Type := list (string * V).

Fixpoint dict_get {V : Type} (d : dict V) (k : string) : option V :=
  match d with
  | [] => None
  | (k', v) :: d' => if String.eqb k' k then Some v else dict_get d' k
  end.

(** [d[k] = v]: an existing key keeps its place, a new key goes last. *)
Fixpoint dict_set {V : Type} (d : dict V) (k : string) (v : V) : dict V :=
  match d with
  | [] => [(k, v)]
  | (k', v') :: d' =>
      if String.eqb k' k then (k', v) :: d' else (k', v') :: dict_set d' k v
  end.

(** [d[k]], raising [KeyError] on a missing key. *)
Definition getitem {V : Type} (d : dict V) (k : string) : result V :=
  match dict_get d k with
  | Some v => Ok v
  | None => Raise (KeyError k)
  end.

Definition pydict : Type := dict pyval.

(** ** Vectors *)

Definition Vec2 : Type := (Q * Q)%type.

Definition vec_eq (a b : Vec2) : Prop := fst a == fst b /\ snd a == snd b.

Definition vec_add (a b : Vec2) : Vec2 := (fst a + fst b, snd a + snd b)%Q.

Definition vec_scale (a : Vec2) (k : Q) : Vec2 := (fst a * k, snd a * k)%Q.

Definition vec_zero : Vec2 := (0, 0)%Q.

(** What pymunk accepts where it expects a number or a pair of numbers.
    pymunk takes more than a pair for a vector: a sequence of fewer than
    two numbers is filled up with zeros.  The development is about
    configurations whose vectors are pairs of numbers, and [as_vec2]
    answers [TypeError] for every other value. *)
Definition as_num (v : pyval) : result Q :=
  match v with
  | VNum q => Ok q
  | _ => Raise (TypeError "number expected")
  end.

Definition as_vec2 (v : pyval) : result Vec2 :=
  match v with
  | VList [VNum x; VNum y] => Ok (x, y)
  | _ => Raise (TypeError "pair of numbers expected")
  end.

(** [step == v] for the integer step counter and a configuration value. *)
Definition py_eq_int (n : Z) (v : pyval) : bool :=
  match v with
  | VNum q => Qeq_bool (inject_Z n) q
  | _ => false
  end.

(** [v != 'exit'] *)
Definition py_ne_str (v : pyval) (s : string) : bool :=
  match v with
  | VStr s' => negb (String.eqb s' s)
  | _ => true
  end.

(** ** The random source

    [random.gauss(mu, sigma)] is [mu + z * sigma] for the next standard
    normal deviate [z] of the generator; the generator is the sequence of
    its deviates. *)

Definition rng : Type := list Q.

Definition gauss (mu sigma : Q) (r : rng) : Q * rng :=
  match r with
  | [] => (mu, [])
  | z :: r' => ((mu + z * sigma)%Q, r')
  end.

(** ** Bodies, shapes and the physics space *)

Inductive body_type : Type := DYNAMIC | KINEMATIC | STATIC.

(** The variables [delayed_velocity] closes over. *)
Record closure : Type := mk_closure {
  cl_velocity : pyval;
  cl_delay : pyval;
  cl_noisy : pyval
}.

Record Body : Type := mk_body {
  b_type : body_type;
  b_name : pyval;
  b_position : Vec2;
  b_velocity : Vec2;
  b_angle : Q;
  b_angular_velocity : Q;
  b_mass : Q;
  (** [None] is pymunk's default, [Body.update_velocity]. *)
  b_velocity_func : option closure
}.

(** [pymunk.Body()] and [pymunk.Body(body_type = STATIC)]. *)
Definition new_body (t : body_type) : Body :=
  mk_body t (VStr "") vec_zero vec_zero 0 0 0 None.

Definition set_position (b : Body) (p : Vec2) : Body :=
  mk_body (b_type b) (b_name b) p (b_velocity b) (b_angle b)
          (b_angular_velocity b) (b_mass b) (b_velocity_func b).

Definition set_velocity (b : Body) (v : Vec2) : Body :=
  mk_body (b_type b) (b_name b) (b_position b) v (b_angle b)
          (b_angular_velocity b) (b_mass b) (b_velocity_func b).

Definition set_angle (b : Body) (a : Q) : Body :=
  mk_body (b_type b) (b_name b) (b_position b) (b_velocity b) a
          (b_angular_velocity b) (b_mass b) (b_velocity_func b).

Definition set_name (b : Body) (n : pyval) : Body :=
  mk_body (b_type b) n (b_position b) (b_velocity b) (b_angle b)
          (b_angular_velocity b) (b_mass b) (b_velocity_func b).

Definition set_mass (b : Body) (m : Q) : Body :=
  mk_body (b_type b) (b_name b) (b_position b) (b_velocity b) (b_angle b)
          (b_angular_velocity b) m (b_velocity_func b).

Definition set_velocity_func (b : Body) (c : closure) : Body :=
  mk_body (b_type b) (b_name b) (b_position b) (b_velocity b) (b_angle b)
          (b_angular_velocity b) (b_mass b) (Some c).

Inductive geometry : Type :=
| Circle (radius : Q)
| Box (length height : Q).

(** A shape points to its body by the body's address in the heap. *)
Record Shape : Type := mk_shape {
  s_body : nat;
  s_geometry : geometry;
  s_elasticity : Q;
  s_friction : Q;
  s_mass : Q;
  s_collision_type : Z
}.

(** A contact reported by the engine: the indices of the two shapes. *)
Definition arbiter : Type := (nat * nat)%type.

(** The operations of pymunk the world calls. *)
Record Engine : Type := mk_engine {
  (** the contacts the space remembers from one step to the next *)
  cache : Type;
  cache_empty : cache;
  (** the contacts that are active *)
  arbiters : cache -> list arbiter;
  (** [Body.update_position(body, dt)] *)
  update_position : Body -> Q -> Body;
  (** [Body.update_velocity(body, gravity, damping, dt)] *)
  update_velocity : Body -> Vec2 -> Q -> Q -> Body;
  (** [body.apply_impulse_at_local_point(impulse)], at the centre *)
  apply_impulse_at_local_point : Body -> Vec2 -> Body;
  (** collision detection: the contacts that begin in this step, in the
      order the engine resolves them, and the contacts now active *)
  collide : list Body -> list Shape -> cache -> list arbiter * cache;
  (** the impulse solver, on the active contacts *)
  solve : cache -> list Shape -> Q -> list Body -> list Body
}.

(** The [begin] callbacks the world registers. *)
Inductive callback : Type := marble_collision_cb | wall_collision_cb.

(** The space: the heap of body objects, the dynamic bodies and the shapes
    that were added, the collision handlers by pair of collision types,
    and pymunk's defaults for gravity and damping. *)
Record Space (E : Engine) : Type := mk_space {
  sp_heap : list Body;
  sp_bodies : list nat;
  sp_shapes : list Shape;
  sp_handlers : list ((Z * Z) * callback);
  sp_gravity : Vec2;
  sp_damping : Q;
  sp_cache : cache E
}.

Arguments mk_space {E}.
Arguments sp_heap {E}.
Arguments sp_bodies {E}.
Arguments sp_shapes {E}.
Arguments sp_handlers {E}.
Arguments sp_gravity {E}.
Arguments sp_damping {E}.
Arguments sp_cache {E}.

(** [pymunk.Space()] *)
Definition new_space (E : Engine) : Space E :=
  mk_space [] [] [] [] vec_zero 1 (cache_empty E).

(** ** World constants *)

Definition full_length : Q := 800.
Definition full_height : Q := 600.
Definition marble_size : Q := 60.
Definition speed : Q := 200.
Definition step_size : Q := 1 / 50.
Definition time_max : Q := 15.
Definition step_max : Z := Qfloor (time_max / step_size).

(** The class attributes the repository assigns to after the class is
    defined ([simulations.noise_vs_failure]). *)
Record class_state : Type := mk_class_state {
  velocity_noise : Q
}.

(** The class body: [velocity_noise = 0.05]. *)
Definition class_body : class_state := mk_class_state (5 # 100).

Definition collision_types : dict Z := [("static", 0); ("dynamic", 1)].

Definition wall_thickness : Q := 20.
Definition exit_portion : Q := 1 / 3.
Definition exit_position : Vec2 := (wall_thickness / 2, full_height / 2)%Q.

Definition vpair (p : Vec2) : pyval := VList [VNum (fst p); VNum (snd p)].

Definition default_walls : list pydict :=
  [ [("name", VStr "top_wall");
     ("position", vpair (full_length / 2, full_height - wall_thickness / 2)%Q);
     ("length", VNum full_length); ("height", VNum wall_thickness);
     ("color", VStr "black")];
    [("name", VStr "bottom_wall");
     ("position", vpair (full_length / 2, wall_thickness / 2)%Q);
     ("length", VNum full_length); ("height", VNum wall_thickness);
     ("color", VStr "black")];
    [("name", VStr "top_left_wall");
     ("position",
      vpair (wall_thickness / 2, full_height * (1 - (1 - exit_portion) / 4))%Q);
     ("length", VNum wall_thickness);
     ("height", VNum (full_height * (1 - exit_portion) / 2)%Q);
     ("color", VStr "black")];
    [("name", VStr "bottom_left_wall");
     ("position",
      vpair (wall_thickness / 2, full_height * (1 - exit_portion) / 4)%Q);
     ("length", VNum wall_thickness);
     ("height", VNum (full_height * (1 - exit_portion) / 2)%Q);
     ("color", VStr "black")];
    [("name", VStr "exit");
     ("position", vpair exit_position);
     ("length", VNum wall_thickness);
     ("height", VNum (full_height * exit_portion)%Q);
     ("color", VStr "red")] ].

(** [exit_dist]: the squared distance to the centre of the exit. *)
Definition exit_dist (pos : Vec2) : Q :=
  ((fst exit_position - fst pos) ^ 2 + (snd exit_position - snd pos) ^ 2)%Q.

(** ** The world *)

Record event : Type := mk_event {
  ev_objects : pyval * pyval;
  ev_step : Z
}.

Record Events : Type := mk_events {
  collisions : list event;
  wall_bounces : list event;
  outcome : dict bool;
  outcome_dists : dict Q
}.

Record MarbleWorld (E : Engine) : Type := mk_world {
  step : Z;
  space : Space E;
  events : Events;
  bodies : dict nat;
  shapes : dict nat;
  path_record_bodies : list string;
  outcome_record_bodies : list string;
  walls : list pydict
}.

Arguments mk_world {E}.
Arguments step {E}.
Arguments space {E}.
Arguments events {E}.
Arguments bodies {E}.
Arguments shapes {E}.
Arguments path_record_bodies {E}.
Arguments outcome_record_bodies {E}.
Arguments walls {E}.

Section World.

Context {E : Engine}.

Definition set_space (w : MarbleWorld E) (sp : Space E) : MarbleWorld E :=
  mk_world (step w) sp (events w) (bodies w) (shapes w)
           (path_record_bodies w) (outcome_record_bodies w) (walls w).

Definition set_events (w : MarbleWorld E) (ev : Events) : MarbleWorld E :=
  mk_world (step w) (space w) ev (bodies w) (shapes w)
           (path_record_bodies w) (outcome_record_bodies w) (walls w).

Definition set_step (w : MarbleWorld E) (n : Z) : MarbleWorld E :=
  mk_world n (space w) (events w) (bodies w) (shapes w)
           (path_record_bodies w) (outcome_record_bodies w) (walls w).

Definition set_registry (w : MarbleWorld E) (bs ss : dict nat) : MarbleWorld E :=
  mk_world (step w) (space w) (events w) bs ss
           (path_record_bodies w) (outcome_record_bodies w) (walls w).

(** Allocation of a body object: its address is the next free one. *)
Definition alloc_body (sp : Space E) (b : Body) : Space E * nat :=
  (mk_space (sp_heap sp ++ [b]) (sp_bodies sp) (sp_shapes sp) (sp_handlers sp)
            (sp_gravity sp) (sp_damping sp) (sp_cache sp),
   List.length (sp_heap sp)).

(** [space.add(shape)] *)
Definition space_add_shape (sp : Space E) (s : Shape) : Space E * nat :=
  (mk_space (sp_heap sp) (sp_bodies sp) (sp_shapes sp ++ [s]) (sp_handlers sp)
            (sp_gravity sp) (sp_damping sp) (sp_cache sp),
   List.length (sp_shapes sp)).

(** [space.add(body)] *)
Definition space_add_body (sp : Space E) (a : nat) : Space E :=
  mk_space (sp_heap sp) (sp_bodies sp ++ [a]) (sp_shapes sp) (sp_handlers sp)
           (sp_gravity sp) (sp_damping sp) (sp_cache sp).

(** [space.add_collision_handler(a, b).begin = cb] *)
Definition space_add_handler (sp : Space E) (a b : Z) (cb : callback) : Space E :=
  mk_space (sp_heap sp) (sp_bodies sp) (sp_shapes sp)
           (sp_handlers sp ++ [((a, b), cb)])
           (sp_gravity sp) (sp_damping sp) (sp_cache sp).

(** [add_wall]: a static body and its box; only the shape is added to the
    space, and nothing is entered in [self.bodies]. *)
Definition add_wall (w : MarbleWorld E) (position length height name : pyval)
  : result (MarbleWorld E * nat) :=
  let body := new_body STATIC in
  p <- as_vec2 position ;;
  let body := set_position body p in
  let body := set_name body name in
  l <- as_num length ;;
  h <- as_num height ;;
  let '(sp, a) := alloc_body (space w) body in
  let wall := mk_shape a (Box l h) 0 0 0 0 in
  let wall := mk_shape a (Box l h) 1 (s_friction wall) (s_mass wall)
                       (s_collision_type wall) in
  ct <- getitem collision_types "static" ;;
  let wall := mk_shape a (Box l h) (s_elasticity wall) (s_friction wall)
                       (s_mass wall) ct in
  let '(sp, i) := space_add_shape sp wall in
  Ok (set_space w sp, i).

(** [add_marble]: a dynamic body and its circle, both added to the space
    and entered in [self.bodies] and [self.shapes] under [name]; the
    body's [velocity_func] is the closure [delayed_velocity]. *)
Definition add_marble (w : MarbleWorld E)
  (position velocity : pyval) (name : string) (delay noisy : pyval)
  : result (MarbleWorld E * (nat * nat)) :=
  let body := new_body DYNAMIC in
  ct <- getitem collision_types "dynamic" ;;
  p <- as_vec2 position ;;
  let body := set_position body p in
  let body := set_angle body 0 in
  let body := set_name body (VStr name) in
  (* shape.mass = 1: pymunk takes the mass of a body from its shapes *)
  let body := set_mass body 1 in
  let body := set_velocity_func body (mk_closure velocity delay noisy) in
  let '(sp, a) := alloc_body (space w) body in
  let shape := mk_shape a (Circle (marble_size / 2)) 1 0 1 ct in
  let sp := space_add_body sp a in
  let '(sp, i) := space_add_shape sp shape in
  let w := set_space w sp in
  let w := set_registry w (dict_set (bodies w) name a) (dict_set (shapes w) name i) in
  Ok (w, (a, i)).

(** [tuple(v)] *)
Definition py_tuple (v : pyval) : result pyval :=
  match v with
  | VNum _ => Raise (TypeError "not iterable")
  | _ => Ok v
  end.

(** The body of [for wall in self.walls]. *)
Definition init_wall (wall : pydict) (w : MarbleWorld E) : result (MarbleWorld E) :=
  name <- getitem wall "name" ;;
  if py_ne_str name "exit" then
    position <- getitem wall "position" ;;
    length <- getitem wall "length" ;;
    height <- getitem wall "height" ;;
    '(w, _) <- add_wall w position length height name ;;
    Ok w
  else Ok w.

(** The body of [for mname in marbles]. *)
Definition init_marble (m : string * pydict) (w : MarbleWorld E)
  : result (MarbleWorld E) :=
  let mname := fst m in
  let marble := snd m in
  position <- getitem marble "position" ;;
  position <- py_tuple position ;;
  velocity <- getitem marble "velocity" ;;
  delay <- getitem marble "delay" ;;
  noisy <- getitem marble "noisy" ;;
  '(w, _) <- add_marble w position velocity mname delay noisy ;;
  Ok w.

(** [MarbleWorld.__init__]; [gate] is accepted and not used. *)
Definition init (marbles : dict pydict) (extra_walls : list pydict) (gate : bool)
  (path_record_bodies outcome_record_bodies : list string)
  : result (MarbleWorld E) :=
  let w := mk_world 0 (new_space E) (mk_events [] [] [] []) [] []
                    path_record_bodies outcome_record_bodies
                    (default_walls ++ extra_walls) in
  w <- for_each (walls w) init_wall w ;;
  w <- for_each marbles init_marble w ;;
  dyn <- getitem collision_types "dynamic" ;;
  let w := set_space w (space_add_handler (space w) dyn dyn marble_collision_cb) in
  dyn <- getitem collision_types "dynamic" ;;
  sta <- getitem collision_types "static" ;;
  let w := set_space w (space_add_handler (space w) dyn sta wall_collision_cb) in
  Ok w.

(** ** Callbacks *)

(** [arbiter.shapes[k].body.name] *)
Definition shape_body_name (sp : Space E) (i : nat) : option pyval :=
  match nth_error (sp_shapes sp) i with
  | Some s =>
      match nth_error (sp_heap sp) (s_body s) with
      | Some b => Some (b_name b)
      | None => None
      end
  | None => None
  end.

(** [marble_collision] *)
Definition marble_collision (w : MarbleWorld E) (a b : pyval) : MarbleWorld E :=
  let ev := events w in
  set_events w (mk_events (collisions ev ++ [mk_event (a, b) (step w)])
                          (wall_bounces ev) (outcome ev) (outcome_dists ev)).

(** [wall_collision] *)
Definition wall_collision (w : MarbleWorld E) (a b : pyval) : MarbleWorld E :=
  let ev := events w in
  set_events w (mk_events (collisions ev)
                          (wall_bounces ev ++ [mk_event (a, b) (step w)])
                          (outcome ev) (outcome_dists ev)).

Definition run_callback (cb : callback) (w : MarbleWorld E) (a b : pyval)
  : MarbleWorld E :=
  match cb with
  | marble_collision_cb => marble_collision w a b
  | wall_collision_cb => wall_collision w a b
  end.

(** The handler of a pair of collision types; a handler registered for
    [(a, b)] also serves [(b, a)], and then sees the shapes swapped. *)
Fixpoint find_handler (hs : list ((Z * Z) * callback)) (ta tb : Z)
  : option (callback * bool) :=
  match hs with
  | [] => None
  | ((a, b), cb) :: hs' =>
      if Z.eqb a ta && Z.eqb b tb then Some (cb, false)
      else if Z.eqb a tb && Z.eqb b ta then Some (cb, true)
      else find_handler hs' ta tb
  end.

(** The [begin] callback of one contact. *)
Definition begin_contact (w : MarbleWorld E) (arb : arbiter) : MarbleWorld E :=
  let sp := space w in
  match nth_error (sp_shapes sp) (fst arb), nth_error (sp_shapes sp) (snd arb),
        shape_body_name sp (fst arb), shape_body_name sp (snd arb) with
  | Some sa, Some sb, Some na, Some nb =>
      match find_handler (sp_handlers sp)
                         (s_collision_type sa) (s_collision_type sb) with
      | Some (cb, false) => run_callback cb w na nb
      | Some (cb, true) => run_callback cb w nb na
      | None => w
      end
  | _, _, _, _ => w
  end.

(** ** The velocity function of a marble *)

(** [[x*self.speed for x in velocity]], as pymunk takes it for an impulse *)
Definition impulse_of (velocity : pyval) : result Vec2 :=
  v <- as_vec2 velocity ;; Ok (vec_scale v speed).

(** [if self.step == delay: body.apply_impulse_at_local_point(...)] *)
Definition launch (stp : Z) (c : closure) (body : Body) : result Body :=
  if py_eq_int stp (cl_delay c) then
    j <- impulse_of (cl_velocity c) ;;
    Ok (apply_impulse_at_local_point E body j)
  else Ok body.

(** [if self.step == noisy: body.velocity = ...]; [cls] holds the class
    attributes at the time of the call. *)
Definition noise (cls : class_state) (stp : Z) (c : closure) (body : Body)
  (r : rng) : Body * rng :=
  if py_eq_int stp (cl_noisy c) then
    let '(g0, r) := gauss 1 (velocity_noise cls) r in
    let '(g1, r) := gauss 1 (velocity_noise cls) r in
    (set_velocity body (fst (b_velocity body) * g0, snd (b_velocity body) * g1)%Q,
     r)
  else (body, r).

(** [delayed_velocity], the closure of [add_marble] *)
Definition delayed_velocity (cls : class_state) (stp : Z) (c : closure)
  (body : Body) (gravity : Vec2) (damping dt : Q) (r : rng)
  : result (Body * rng) :=
  let body := update_velocity E body gravity damping dt in
  body <- launch stp c body ;;
  Ok (noise cls stp c body r).

(** [body.velocity_func(body, gravity, damping, dt)] at step [stp] *)
Definition velocity_func (cls : class_state) (stp : Z) (body : Body)
  (gravity : Vec2) (damping dt : Q) (r : rng) : result (Body * rng) :=
  match b_velocity_func body with
  | Some c => delayed_velocity cls stp c body gravity damping dt r
  | None => Ok (update_velocity E body gravity damping dt, r)
  end.

(** ** [Space.step] *)

Definition heap_get (h : list Body) (a : nat) : Body :=
  nth a h (new_body DYNAMIC).

Fixpoint heap_set (h : list Body) (a : nat) (b : Body) : list Body :=
  match h, a with
  | [], _ => []
  | _ :: h', O => b :: h'
  | x :: h', S a' => x :: heap_set h' a' b
  end.

Definition set_heap (sp : Space E) (h : list Body) : Space E :=
  mk_space h (sp_bodies sp) (sp_shapes sp) (sp_handlers sp)
           (sp_gravity sp) (sp_damping sp) (sp_cache sp).

Definition set_cache (sp : Space E) (c : cache E) : Space E :=
  mk_space (sp_heap sp) (sp_bodies sp) (sp_shapes sp) (sp_handlers sp)
           (sp_gravity sp) (sp_damping sp) c.

(** Phase 1: the position of every body of the space is integrated. *)
Definition integrate_positions (dt : Q) (bs : list nat) (h : list Body)
  : list Body :=
  fold_left (fun h a => heap_set h a (update_position E (heap_get h a) dt)) bs h.

Section Stepping.

(** How [body.velocity_func(body, gravity, damping, dt)] is evaluated at a
    step; the world's own is [velocity_func]. *)
Variable call : Z -> Body -> Vec2 -> Q -> Q -> rng -> result (Body * rng).

(** Phase 3: every body of the space runs its velocity function.  An
    exception of a velocity function ends the step here; pymunk calls the
    function as a callback and keeps its exception from leaving
    [Space.step].  The two part only where a velocity function raises,
    which [delayed_velocity] does not do on a velocity that is a pair of
    numbers. *)
Definition integrate_velocities (stp : Z) (gravity : Vec2) (damping dt : Q)
  (bs : list nat) (hr : list Body * rng) : result (list Body * rng) :=
  for_each bs
    (fun a '(h, r) =>
       '(b, r) <- call stp (heap_get h a) gravity damping dt r ;;
       Ok (heap_set h a b, r)) hr.

(** [self.space.step(dt)], with the callbacks it makes into the world. *)
Definition space_step (w : MarbleWorld E) (r : rng) (dt : Q)
  : result (MarbleWorld E * rng) :=
  let sp := space w in
  let h := integrate_positions dt (sp_bodies sp) (sp_heap sp) in
  let '(begun, c) := collide E h (sp_shapes sp) (sp_cache sp) in
  let w := set_space w (set_cache (set_heap sp h) c) in
  let w := fold_left begin_contact begun w in
  let sp := space w in
  '(h, r) <- integrate_velocities (step w) (sp_gravity sp) (sp_damping sp) dt
               (sp_bodies sp) (sp_heap sp, r) ;;
  let h := solve E (sp_cache sp) (sp_shapes sp) dt h in
  Ok (set_space w (set_heap sp h), r).

(** ** [simulate] *)

(** [paths]: per recorded body, its positions and its velocities. *)
Definition Paths : Type := dict (list Vec2 * list Vec2).

(** What [simulate] works on: the world, the random generator and the
    local [paths]. *)
Record sim_state : Type := mk_state {
  st_world : MarbleWorld E;
  st_rng : rng;
  st_paths : Paths
}.

Definition set_outcome_dists (w : MarbleWorld E) (d : dict Q) : MarbleWorld E :=
  let ev := events w in
  set_events w (mk_events (collisions ev) (wall_bounces ev) (outcome ev) d).

Definition set_outcome (w : MarbleWorld E) (o : dict bool) : MarbleWorld E :=
  let ev := events w in
  set_events w (mk_events (collisions ev) (wall_bounces ev) o (outcome_dists ev)).

(** [self.bodies[bname]], the body object behind the registry entry *)
Definition body_of (w : MarbleWorld E) (bname : string) : result Body :=
  a <- getitem (bodies w) bname ;;
  Ok (heap_get (sp_heap (space w)) a).

(** [x < y] and [x > y] on numbers *)
Definition Qltb (x y : Q) : bool := negb (Qle_bool y x).
Definition Qgtb (x y : Q) : bool := negb (Qle_bool x y).

(** The two loops before the stepping: empty paths, and the running
    minimum of every outcome body set to [full_length**2]. *)
Definition simulate_setup (w : MarbleWorld E) : MarbleWorld E * Paths :=
  let paths :=
    fold_left (fun (p : Paths) bname => dict_set p bname ([], []))
              (path_record_bodies w) [] in
  let dists :=
    fold_left (fun d bname => dict_set d bname (full_length ^ 2)%Q)
              (outcome_record_bodies w) (outcome_dists (events w)) in
  (set_outcome_dists w dists, paths).

(** The position and the velocity of every recorded body are appended. *)
Definition record_paths (w : MarbleWorld E) (paths : Paths) : result Paths :=
  for_each (path_record_bodies w)
    (fun bname (paths : Paths) =>
       e <- getitem paths bname ;;
       b <- body_of w bname ;;
       let paths := dict_set paths bname (fst e ++ [b_position b], snd e) in
       e <- getitem paths bname ;;
       b <- body_of w bname ;;
       Ok (dict_set paths bname (fst e, snd e ++ [b_velocity b]))) paths.

(** The running minimum of the squared distance to the exit. *)
Definition record_dists (w : MarbleWorld E) : result (MarbleWorld E) :=
  for_each (outcome_record_bodies w)
    (fun bname w =>
       b <- body_of w bname ;;
       let d := exit_dist (b_position b) in
       cur <- getitem (outcome_dists (events w)) bname ;;
       if Qltb d cur
       then Ok (set_outcome_dists w (dict_set (outcome_dists (events w)) bname d))
       else Ok w) w.

(** One turn of the [while] loop. *)
Definition loop_body (st : sim_state) : result sim_state :=
  let w := st_world st in
  paths <- record_paths w (st_paths st) ;;
  w <- record_dists w ;;
  '(w, r) <- space_step w (st_rng st) step_size ;;
  let w := set_step w (step w + 1) in
  Ok (mk_state w r paths).

(** [while self.step <= self.step_max: ...]; [None] when the fuel does
    not suffice. *)
Fixpoint while_loop (fuel : nat) (st : sim_state) : option (result sim_state) :=
  if Z.leb (step (st_world st)) step_max then
    match fuel with
    | O => None
    | S fuel' =>
        match loop_body st with
        | Ok st' => while_loop fuel' st'
        | Raise e => Some (Raise e)
        end
    end
  else Some (Ok st).

(** The outcome of every outcome body, after the loop. *)
Definition classify (w : MarbleWorld E) : result (MarbleWorld E) :=
  for_each (outcome_record_bodies w)
    (fun bname w =>
       b <- body_of w bname ;;
       if Qgtb (fst (b_position b)) (- marble_size / 2)
       then Ok (set_outcome w (dict_set (outcome (events w)) bname false))
       else Ok (set_outcome w (dict_set (outcome (events w)) bname true))) w.

(** The turns the loop can still make from step [n]. *)
Definition turns_left (n : Z) : nat := Z.to_nat (step_max + 1 - n).

(** [simulate] without animation: the state it leaves. *)
Definition simulate_run_by (w : MarbleWorld E) (r : rng)
  : option (result sim_state) :=
  let '(w, paths) := simulate_setup w in
  match while_loop (turns_left (step w)) (mk_state w r paths) with
  | Some (Ok st) =>
      match classify (st_world st) with
      | Ok w' => Some (Ok (mk_state w' (st_rng st) (st_paths st)))
      | Raise e => Some (Raise e)
      end
  | Some (Raise e) => Some (Raise e)
  | None => None
  end.

(** What [simulate] returns: [(self.events, paths)]. *)
Definition returned (o : option (result sim_state))
  : option (result (Events * Paths)) :=
  match o with
  | Some (Ok st) => Some (Ok (events (st_world st), st_paths st))
  | Some (Raise e) => Some (Raise e)
  | None => None
  end.

End Stepping.

(** [simulate] of the world, with the class attributes [cls] in force. *)
Definition simulate_run (cls : class_state) (w : MarbleWorld E) (r : rng)
  : option (result sim_state) :=
  simulate_run_by (velocity_func cls) w r.

Definition simulate (cls : class_state) (w : MarbleWorld E) (r : rng)
  : option (result (Events * Paths)) :=
  returned (simulate_run cls w r).

End World.

(** ** A small engine

    An explicit Euler integrator on rationals with circles and
    axis-aligned boxes: contacts are found by overlap, and resolved by
    reflecting the approaching velocities along the contact normal
    (elastic, equal masses, no friction, so bodies never turn). *)

Module Euler.

Definition qred2 (v : Vec2) : Vec2 := (Qred (fst v), Qred (snd v)).

Definition vec_sub (a b : Vec2) : Vec2 := (fst a - fst b, snd a - snd b)%Q.

Definition dot (a b : Vec2) : Q := (fst a * fst b + snd a * snd b)%Q.

Definition update_position (b : Body) (dt : Q) : Body :=
  set_angle
    (set_position b (qred2 (vec_add (b_position b) (vec_scale (b_velocity b) dt))))
    (Qred (b_angle b + b_angular_velocity b * dt)).

Definition update_velocity (b : Body) (gravity : Vec2) (damping dt : Q) : Body :=
  mk_body (b_type b) (b_name b) (b_position b)
          (qred2 (vec_add (vec_scale (b_velocity b) damping) (vec_scale gravity dt)))
          (b_angle b) (Qred (b_angular_velocity b * damping)) (b_mass b)
          (b_velocity_func b).

Definition apply_impulse_at_local_point (b : Body) (j : Vec2) : Body :=
  set_velocity b (qred2 (vec_add (b_velocity b) (vec_scale j (/ b_mass b)))).

Definition clamp (lo hi x : Q) : Q :=
  if Qle_bool x lo then lo else if Qle_bool hi x then hi else x.

(** The point of the box centred at [c] that is nearest to [p]. *)
Definition nearest (c : Vec2) (l h : Q) (p : Vec2) : Vec2 :=
  (clamp (fst c - l / 2) (fst c + l / 2) (fst p),
   clamp (snd c - h / 2) (snd c + h / 2) (snd p))%Q.

(** The contact normal from the first shape to the second, when they
    overlap. *)
Definition normal (h : list Body) (sa sb : Shape) : option Vec2 :=
  let pa := b_position (nth (s_body sa) h (new_body STATIC)) in
  let pb := b_position (nth (s_body sb) h (new_body STATIC)) in
  match s_geometry sa, s_geometry sb with
  | Circle ra, Circle rb =>
      let d := vec_sub pb pa in
      if negb (Qle_bool ((ra + rb) ^ 2) (dot d d)) then Some d else None
  | Circle ra, Box l hh =>
      let d := vec_sub (nearest pb l hh pa) pa in
      if negb (Qle_bool (ra ^ 2) (dot d d)) then Some d else None
  | Box l hh, Circle rb =>
      let d := vec_sub pb (nearest pa l hh pb) in
      if negb (Qle_bool (rb ^ 2) (dot d d)) then Some d else None
  | Box _ _, Box _ _ => None
  end.

Definition is_static (h : list Body) (s : Shape) : bool :=
  match b_type (nth (s_body s) h (new_body STATIC)) with
  | STATIC => true
  | _ => false
  end.

Definition touching (h : list Body) (ss : list Shape) (arb : arbiter) : bool :=
  match nth_error ss (fst arb), nth_error ss (snd arb) with
  | Some sa, Some sb =>
      negb (is_static h sa && is_static h sb)
      && match normal h sa sb with Some _ => true | None => false end
  | _, _ => false
  end.

(** All pairs [(i, j)] with [i < j < n]. *)
Fixpoint pairs_below (n : nat) : list arbiter :=
  match n with
  | O => []
  | S m => pairs_below m ++ map (fun i => (i, m)) (seq 0 m)
  end.

Definition arb_eqb (a b : arbiter) : bool :=
  Nat.eqb (fst a) (fst b) && Nat.eqb (snd a) (snd b).

Definition collide (h : list Body) (ss : list Shape) (c : list arbiter)
  : list arbiter * list arbiter :=
  let now := filter (touching h ss) (pairs_below (List.length ss)) in
  (filter (fun a => negb (existsb (arb_eqb a) c)) now, now).

(** The elastic response of one contact. *)
Definition resolve (ss : list Shape) (h : list Body) (arb : arbiter) : list Body :=
  match nth_error ss (fst arb), nth_error ss (snd arb) with
  | Some sa, Some sb =>
      match normal h sa sb with
      | Some n =>
          let a := nth (s_body sa) h (new_body STATIC) in
          let b := nth (s_body sb) h (new_body STATIC) in
          let nn := dot n n in
          let vn := dot (vec_sub (b_velocity a) (b_velocity b)) n in
          if Qle_bool vn 0 || Qeq_bool nn 0 then h
          else
            let k := (vn / nn)%Q in
            match is_static h sa, is_static h sb with
            | false, true =>
                heap_set h (s_body sa)
                  (set_velocity a (qred2 (vec_sub (b_velocity a) (vec_scale n (2 * k)))))
            | true, false =>
                heap_set h (s_body sb)
                  (set_velocity b (qred2 (vec_add (b_velocity b) (vec_scale n (2 * k)))))
            | false, false =>
                let h := heap_set h (s_body sa)
                  (set_velocity a (qred2 (vec_sub (b_velocity a) (vec_scale n k)))) in
                heap_set h (s_body sb)
                  (set_velocity b (qred2 (vec_add (b_velocity b) (vec_scale n k))))
            | true, true => h
            end
      | None => h
      end
  | _, _ => h
  end.

Definition solve (c : list arbiter) (ss : list Shape) (dt : Q) (h : list Body)
  : list Body :=
  fold_left (resolve ss) c h.

Definition engine : Engine :=
  mk_engine (list arbiter) [] (fun c => c)
            update_position update_velocity apply_impulse_at_local_point
            collide solve.

End Euler.

Definition marble (position velocity : Vec2) (delay noisy : Z) : pydict :=
  [("position", vpair position); ("velocity", vpair velocity);
   ("delay", VNum (inject_Z delay)); ("noisy", VNum (inject_Z noisy))].

(** * Properties *)

(** ** Results, loops and dictionaries *)

Lemma bind_Ok {A B : Type} (m : result A) (k : A -> result B) (b : B) :
  bind m k = Ok b -> exists a, m = Ok a /\ k a = Ok b.
Proof.
  destruct m as [a|e]; simpl; intros H; [eauto | discriminate].
Qed.

(** Case analysis on the first computation of a [bind] that succeeded. *)
Ltac bind_inv H :=
  let a := fresh "a" in
  let Ha := fresh "Ha" in
  apply bind_Ok in H; destruct H as (a & Ha & H).

Lemma for_each_app {A S : Type} (l1 l2 : list A) (f : A -> S -> result S) (s : S) :
  for_each (l1 ++ l2) f s = (s' <- for_each l1 f s ;; for_each l2 f s').
Proof.
  revert s; induction l1 as [|a l1 IH]; intros s; simpl; [reflexivity|].
  destruct (f a s); simpl; auto.
Qed.

(** An invariant of the body of a [for] loop holds after the loop. *)
Lemma for_each_invariant {A S : Type} (P : S -> Prop) (f : A -> S -> result S) :
  (forall a s s', P s -> f a s = Ok s' -> P s') ->
  forall l s s', P s -> for_each l f s = Ok s' -> P s'.
Proof.
  intros Hf l; induction l as [|a l IH]; simpl; intros s s' Hs H.
  - now inversion H; subst.
  - bind_inv H. eauto.
Qed.

Lemma dict_get_set_same {V : Type} (d : dict V) (k : string) (v : V) :
  dict_get (dict_set d k v) k = Some v.
Proof.
  induction d as [|[k' v'] d IH]; simpl.
  - now rewrite String.eqb_refl.
  - destruct (String.eqb k' k) eqn:Ek; simpl; rewrite Ek; auto.
Qed.

Lemma dict_get_set_other {V : Type} (d : dict V) (k k' : string) (v : V) :
  k <> k' -> dict_get (dict_set d k v) k' = dict_get d k'.
Proof.
  intros Hk; induction d as [|[k0 v0] d IH]; simpl.
  - destruct (String.eqb_spec k k'); [contradiction | reflexivity].
  - destruct (String.eqb_spec k0 k) as [->|Hk0]; simpl.
    + destruct (String.eqb_spec k k'); [contradiction | reflexivity].
    + destruct (String.eqb_spec k0 k'); auto.
Qed.

Lemma getitem_Ok {V : Type} (d : dict V) (k : string) (v : V) :
  getitem d k = Ok v <-> dict_get d k = Some v.
Proof.
  unfold getitem; destruct (dict_get d k); split; intros H;
    inversion H; subst; auto.
Qed.

Lemma as_vec2_Ok (v : pyval) (p : Vec2) :
  as_vec2 v = Ok p -> v = vpair p.
Proof.
  destruct v as [q|s|l]; simpl; try discriminate.
  destruct l as [|[x| |] [|[y| |] [|]]]; try discriminate.
  intros H; inversion H; subst; reflexivity.
Qed.

Lemma as_num_Ok (v : pyval) (q : Q) : as_num v = Ok q -> v = VNum q.
Proof.
  destruct v; simpl; try discriminate. intros H; inversion H; reflexivity.
Qed.

Lemma nth_error_app_left {A : Type} (l l' : list A) (n : nat) (x : A) :
  nth_error l n = Some x -> nth_error (l ++ l') n = Some x.
Proof.
  intros H. rewrite nth_error_app1; auto.
  apply nth_error_Some. congruence.
Qed.

Lemma nth_error_app_here {A : Type} (l l' : list A) (x : A) :
  nth_error (l ++ x :: l') (List.length l) = Some x.
Proof.
  rewrite nth_error_app2 by lia. now rewrite Nat.sub_diag.
Qed.


(** ** Construction *)

(** The body and the shape [add_wall] makes. *)
Definition wall_body (p : Vec2) (name : pyval) : Body :=
  mk_body STATIC name p vec_zero 0 0 0 None.

Definition wall_shape (a : nat) (l h : Q) : Shape := mk_shape a (Box l h) 1 0 0 0.

(** The body and the shape [add_marble] makes. *)
Definition marble_body (p : Vec2) (name : string) (c : closure) : Body :=
  mk_body DYNAMIC (VStr name) p vec_zero 0 0 1 (Some c).

Definition marble_shape (a : nat) : Shape :=
  mk_shape a (Circle (marble_size / 2)) 1 0 1 1.

(** A wall that is not the exit. *)
Definition is_solid (wall : pydict) : bool :=
  match dict_get wall "name" with
  | Some n => py_ne_str n "exit"
  | None => false
  end.

(** The shape [s] over the heap [h] is the static box of the wall
    record [wall]. *)
Definition wall_inserted (h : list Body) (wall : pydict) (s : Shape) : Prop :=
  exists name p l hh,
    dict_get wall "name" = Some name /\
    dict_get wall "position" = Some (vpair p) /\
    dict_get wall "length" = Some (VNum l) /\
    dict_get wall "height" = Some (VNum hh) /\
    nth_error h (s_body s) = Some (wall_body p name) /\
    s = wall_shape (s_body s) l hh.

(** The shape [s] over the heap [h] is the circle of a marble. *)
Definition marble_inserted (h : list Body) (s : Shape) : Prop :=
  exists p name c,
    nth_error h (s_body s) = Some (marble_body p name c) /\
    s = marble_shape (s_body s).

(** The body object [add_wall] makes for a wall record, and the one
    [add_marble] makes for an entry of the marbles. *)
Definition wall_made (wall : pydict) (b : Body) : Prop :=
  exists name p,
    dict_get wall "name" = Some name /\
    dict_get wall "position" = Some (vpair p) /\
    b = wall_body p name.

Definition marble_made (m : string * pydict) (b : Body) : Prop :=
  exists p velocity delay noisy,
    dict_get (snd m) "position" = Some (vpair p) /\
    dict_get (snd m) "velocity" = Some velocity /\
    dict_get (snd m) "delay" = Some delay /\
    dict_get (snd m) "noisy" = Some noisy /\
    b = marble_body p (fst m) (mk_closure velocity delay noisy).

(** What [__init__] needs of a wall and of a marble record to go through. *)
Definition wall_usable (wall : pydict) : Prop :=
  exists name,
    dict_get wall "name" = Some name /\
    (py_ne_str name "exit" = true ->
     exists p l h,
       dict_get wall "position" = Some (vpair p) /\
       dict_get wall "length" = Some (VNum l) /\
       dict_get wall "height" = Some (VNum h)).

Definition marble_usable (m : string * pydict) : Prop :=
  exists p velocity delay noisy,
    dict_get (snd m) "position" = Some (vpair p) /\
    dict_get (snd m) "velocity" = Some velocity /\
    dict_get (snd m) "delay" = Some delay /\
    dict_get (snd m) "noisy" = Some noisy.

Section Construction.

Context {E : Engine}.

(** The two handlers [__init__] registers. *)
Definition init_handlers (w : MarbleWorld E) : MarbleWorld E :=
  set_space
    (set_space w (space_add_handler (space w) 1 1 marble_collision_cb))
    (space_add_handler
       (space (set_space w (space_add_handler (space w) 1 1 marble_collision_cb)))
       1 0 wall_collision_cb).

Lemma init_unfold marbles extra_walls gate prb orb :
  init (E := E) marbles extra_walls gate prb orb =
  (w <- for_each (default_walls ++ extra_walls) init_wall
          (mk_world 0 (new_space E) (mk_events [] [] [] []) [] [] prb orb
                    (default_walls ++ extra_walls)) ;;
   w <- for_each marbles init_marble w ;;
   Ok (init_handlers w)).
Proof. reflexivity. Qed.

Lemma add_wall_Ok (w : MarbleWorld E) (p : Vec2) (l h : Q) (name : pyval) :
  add_wall w (vpair p) (VNum l) (VNum h) name =
  Ok (set_space w
        (mk_space (sp_heap (space w) ++ [wall_body p name])
                  (sp_bodies (space w))
                  (sp_shapes (space w)
                   ++ [wall_shape (List.length (sp_heap (space w))) l h])
                  (sp_handlers (space w)) (sp_gravity (space w))
                  (sp_damping (space w)) (sp_cache (space w))),
      List.length (sp_shapes (space w))).
Proof. destruct p; reflexivity. Qed.

Lemma add_wall_inv (w w' : MarbleWorld E) (position length height name : pyval) i :
  add_wall w position length height name = Ok (w', i) ->
  exists p l h, position = vpair p /\ length = VNum l /\ height = VNum h.
Proof.
  unfold add_wall. intros H.
  bind_inv H. apply as_vec2_Ok in Ha.
  bind_inv H. apply as_num_Ok in Ha0.
  bind_inv H. apply as_num_Ok in Ha1.
  eauto 6.
Qed.

Lemma add_marble_Ok (w : MarbleWorld E) (p : Vec2) (velocity : pyval)
  (name : string) (delay noisy : pyval) :
  add_marble w (vpair p) velocity name delay noisy =
  Ok (set_registry
        (set_space w
           (mk_space
              (sp_heap (space w)
               ++ [marble_body p name (mk_closure velocity delay noisy)])
              (sp_bodies (space w) ++ [List.length (sp_heap (space w))])
              (sp_shapes (space w)
               ++ [marble_shape (List.length (sp_heap (space w)))])
              (sp_handlers (space w)) (sp_gravity (space w))
              (sp_damping (space w)) (sp_cache (space w))))
        (dict_set (bodies w) name (List.length (sp_heap (space w))))
        (dict_set (shapes w) name (List.length (sp_shapes (space w)))),
      (List.length (sp_heap (space w)), List.length (sp_shapes (space w)))).
Proof. destruct p; reflexivity. Qed.

Lemma add_marble_inv (w w' : MarbleWorld E) (position velocity : pyval)
  (name : string) (delay noisy : pyval) ai :
  add_marble w position velocity name delay noisy = Ok (w', ai) ->
  exists p, position = vpair p.
Proof.
  unfold add_marble. intros H.
  bind_inv H. bind_inv H. apply as_vec2_Ok in Ha0. eauto.
Qed.

Lemma wall_inserted_app (h h' : list Body) (wall : pydict) (s : Shape) :
  wall_inserted h wall s -> wall_inserted (h ++ h') wall s.
Proof.
  intros (name & p & l & hh & H1 & H2 & H3 & H4 & H5 & H6).
  exists name, p, l, hh. repeat split; auto using nth_error_app_left.
Qed.

Lemma marble_inserted_app (h h' : list Body) (s : Shape) :
  marble_inserted h s -> marble_inserted (h ++ h') s.
Proof.
  intros (p & name & c & H1 & H2).
  exists p, name, c. split; auto using nth_error_app_left.
Qed.

(** What one turn of the wall loop does. *)
Lemma init_wall_inv (wall : pydict) (w w' : MarbleWorld E) :
  init_wall wall w = Ok w' ->
  wall_usable wall /\
  ((is_solid wall = false /\ w' = w) \/
   (is_solid wall = true /\
    exists name p l h,
      dict_get wall "name" = Some name /\
      dict_get wall "position" = Some (vpair p) /\
      dict_get wall "length" = Some (VNum l) /\
      dict_get wall "height" = Some (VNum h) /\
      w' = set_space w
             (mk_space (sp_heap (space w) ++ [wall_body p name])
                       (sp_bodies (space w))
                       (sp_shapes (space w)
                        ++ [wall_shape (List.length (sp_heap (space w))) l h])
                       (sp_handlers (space w)) (sp_gravity (space w))
                       (sp_damping (space w)) (sp_cache (space w))))).
Proof.
  unfold init_wall, is_solid, wall_usable. intros H.
  bind_inv H. apply getitem_Ok in Ha. rewrite Ha.
  destruct (py_ne_str a "exit") eqn:Hne.
  - bind_inv H. bind_inv H. bind_inv H. bind_inv H.
    destruct a3 as [w1 i]. inversion H; subst w1; clear H.
    destruct (add_wall_inv _ _ _ _ _ _ _ Ha3) as (p & l & h & -> & -> & ->).
    rewrite add_wall_Ok in Ha3. inversion Ha3; subst; clear Ha3.
    apply getitem_Ok in Ha0, Ha1, Ha2.
    split.
    + exists a. split; auto. intros _. exists p, l, h. auto.
    + right. split; auto. exists a, p, l, h. auto.
  - inversion H; subst. split.
    + exists a. split; auto. rewrite Hne. discriminate.
    + left. auto.
Qed.

(** What the wall loop leaves in the space. *)
Lemma walls_loop (l : list pydict) (w w' : MarbleWorld E) :
  for_each l init_wall w = Ok w' ->
  exists hs ss,
    w' = set_space w
           (mk_space (sp_heap (space w) ++ hs) (sp_bodies (space w))
                     (sp_shapes (space w) ++ ss)
                     (sp_handlers (space w)) (sp_gravity (space w))
                     (sp_damping (space w)) (sp_cache (space w))) /\
    Forall2 (wall_inserted (sp_heap (space w) ++ hs)) (filter is_solid l) ss /\
    Forall wall_usable l /\
    Forall2 wall_made (filter is_solid l) hs.
Proof.
  revert w w'; induction l as [|wall l IH]; simpl; intros w w' H.
  - inversion H; subst. exists [], []. rewrite !app_nil_r.
    split; [destruct w' as [? [] ? ? ? ? ? ?]; reflexivity | repeat split; constructor].
  - bind_inv H. apply init_wall_inv in Ha.
    destruct Ha as (Hu & [(Hs & ->) | (Hs & name & p & ll & hh & Hn & Hp & Hl & Hh & ->)]).
    + destruct (IH _ _ H) as (hs & ss & -> & HF & HU & HM).
      exists hs, ss. rewrite Hs. auto.
    + destruct (IH _ _ H) as (hs & ss & -> & HF & HU & HM). cbn in HF |- *.
      exists (wall_body p name :: hs),
             (wall_shape (List.length (sp_heap (space w))) ll hh :: ss).
      rewrite Hs. unfold set_space in *. cbn in HF |- *.
      rewrite <- !app_assoc in HF |- *. cbn in HF |- *.
      split; [repeat rewrite <- app_assoc; reflexivity | split; [|split; [auto|]]].
      * constructor; auto.
        exists name, p, ll, hh. cbn. repeat split; auto.
        apply nth_error_app_here.
      * constructor; auto. exists name, p. auto.
Qed.

(** What one turn of the marble loop does. *)
Lemma init_marble_inv (m : string * pydict) (w w' : MarbleWorld E) :
  init_marble m w = Ok w' ->
  exists p velocity delay noisy,
    dict_get (snd m) "position" = Some (vpair p) /\
    dict_get (snd m) "velocity" = Some velocity /\
    dict_get (snd m) "delay" = Some delay /\
    dict_get (snd m) "noisy" = Some noisy /\
    add_marble w (vpair p) velocity (fst m) delay noisy
    = Ok (w', (List.length (sp_heap (space w)), List.length (sp_shapes (space w)))).
Proof.
  unfold init_marble. intros H.
  bind_inv H. bind_inv H. bind_inv H. bind_inv H. bind_inv H. bind_inv H.
  destruct a4 as [w1 ai]. inversion H; subst w1; clear H.
  destruct (add_marble_inv _ _ _ _ _ _ _ _ Ha4) as (p & ->).
  assert (a = vpair p) as -> by (destruct a; simpl in Ha0; congruence).
  pose proof Ha4 as Ha5. rewrite add_marble_Ok in Ha5.
  inversion Ha5; subst; clear Ha5.
  apply getitem_Ok in Ha, Ha1, Ha2, Ha3.
  exists p, a1, a2, a3. rewrite add_marble_Ok. auto.
Qed.

(** What the marble loop leaves in the space. *)
Lemma marbles_loop (l : dict pydict) (w w' : MarbleWorld E) :
  for_each l init_marble w = Ok w' ->
  exists hs bs ss bds shs,
    w' = set_registry
           (set_space w
              (mk_space (sp_heap (space w) ++ hs) (sp_bodies (space w) ++ bs)
                        (sp_shapes (space w) ++ ss)
                        (sp_handlers (space w)) (sp_gravity (space w))
                        (sp_damping (space w)) (sp_cache (space w))))
           bds shs /\
    Forall (marble_inserted (sp_heap (space w) ++ hs)) ss /\
    Forall marble_usable l /\
    Forall2 marble_made l hs /\
    bs = seq (List.length (sp_heap (space w))) (List.length l) /\
    (forall k, ~ In k (map fst l) -> dict_get bds k = dict_get (bodies w) k) /\
    (NoDup (map fst l) ->
     forall i m, nth_error l i = Some m ->
     dict_get bds (fst m) = Some (List.length (sp_heap (space w)) + i)%nat).
Proof.
  revert w w'; induction l as [|m l IH]; simpl; intros w w' H.
  - inversion H; subst. exists [], [], [], (bodies w'), (shapes w').
    rewrite !app_nil_r.
    split; [destruct w' as [? [] ? ? ? ? ? ?]; reflexivity | repeat split; auto].
    intros _ [|i] m Hm; discriminate Hm.
  - bind_inv H. apply init_marble_inv in Ha.
    destruct Ha as (p & velocity & delay & noisy & Hp & Hv & Hd & Hn & Ha).
    rewrite add_marble_Ok in Ha. inversion Ha; subst a; clear Ha.
    destruct (IH _ _ H) as (hs & bs & ss & bds & shs & -> & HF & HU & HM & -> & Hk & Hr).
    clear IH H.
    unfold set_registry, set_space in *.
    cbn [space bodies shapes sp_heap sp_bodies sp_shapes] in *.
    rewrite length_app, Nat.add_1_r in *.
    exists (marble_body p (fst m) (mk_closure velocity delay noisy) :: hs),
           (List.length (sp_heap (space w))
              :: seq (S (List.length (sp_heap (space w)))) (List.length l)),
           (marble_shape (List.length (sp_heap (space w))) :: ss), bds, shs.
    rewrite <- !app_assoc in HF. cbn [app] in HF.
    split; [repeat rewrite <- app_assoc; reflexivity|].
    split; [|split; [|split; [|split; [|split]]]].
    + constructor; auto.
      exists p, (fst m), (mk_closure velocity delay noisy). cbn.
      split; auto. apply nth_error_app_here.
    + constructor; auto. exists p, velocity, delay, noisy. auto.
    + constructor; auto. exists p, velocity, delay, noisy. auto.
    + reflexivity.
    + intros k Hnk. rewrite Hk by tauto. apply dict_get_set_other. tauto.
    + intros Hnd i m' Hm'. inversion Hnd; subst.
      destruct i as [|i]; simpl in Hm'.
      * inversion Hm'; subst m'. rewrite Hk by assumption.
        rewrite dict_get_set_same. f_equal. lia.
      * rewrite (Hr H2 i m' Hm'). f_equal. lia.
Qed.





(** The state [__init__] leaves: the boxes of the solid walls, then the
    circles of the marbles. *)
Lemma init_inv marbles extra_walls gate prb orb (w : MarbleWorld E) :
  init marbles extra_walls gate prb orb = Ok w ->
  exists hw hm bs ws ms,
    sp_heap (space w) = hw ++ hm /\
    sp_bodies (space w) = bs /\
    sp_shapes (space w) = ws ++ ms /\
    Forall2 (wall_inserted (hw ++ hm)) (filter is_solid (default_walls ++ extra_walls)) ws /\
    Forall (marble_inserted (hw ++ hm)) ms /\
    step w = 0 /\ events w = mk_events [] [] [] [] /\
    path_record_bodies w = prb /\ outcome_record_bodies w = orb /\
    walls w = default_walls ++ extra_walls /\
    sp_gravity (space w) = vec_zero /\ sp_damping (space w) = 1%Q /\
    Forall2 wall_made (filter is_solid (default_walls ++ extra_walls)) hw /\
    Forall2 marble_made marbles hm /\
    bs = seq (List.length hw) (List.length marbles) /\
    (NoDup (map fst marbles) ->
     forall i m, nth_error marbles i = Some m ->
     dict_get (bodies w) (fst m) = Some (List.length hw + i)%nat).
Proof.
  rewrite init_unfold. intros H. bind_inv H. bind_inv H.
  inversion H; subst w; clear H.
  apply walls_loop in Ha. destruct Ha as (hw & ws & -> & HW & _ & HWM).
  apply marbles_loop in Ha0.
  destruct Ha0 as (hm & bs & ms & bds & shs & -> & HM & _ & HMM & Hbs & _ & Hreg).
  cbn in HW, HM, Hbs, Hreg |- *.
  exists hw, hm, bs, ws, ms. repeat split; auto.
  eapply Forall2_impl; [|exact HW]. intros wall s. apply wall_inserted_app.
Qed.



End Construction.

(** ** The registry of marbles *)

Section Registry.

Context {E : Engine}.

(** C10: adding a marble under a name that is already registered raises
    nothing; the registry then maps the name to the new body and the new
    shape, and the body and the shape added first are still in the space
    (the body among the bodies that are stepped, the shape among the
    shapes that collide, with the collision type of a marble). *)
Theorem add_marble_same_name (w : MarbleWorld E) (p1 p2 : Vec2)
  (v1 v2 : pyval) (name : string) (d1 d2 n1 n2 : pyval) :
  exists w1 w2 a1 i1 a2 i2,
    add_marble w (vpair p1) v1 name d1 n1 = Ok (w1, (a1, i1)) /\
    add_marble w1 (vpair p2) v2 name d2 n2 = Ok (w2, (a2, i2)) /\
    a1 <> a2 /\ i1 <> i2 /\
    dict_get (bodies w1) name = Some a1 /\
    dict_get (shapes w1) name = Some i1 /\
    dict_get (bodies w2) name = Some a2 /\
    dict_get (shapes w2) name = Some i2 /\
    nth_error (sp_heap (space w2)) a1
    = Some (marble_body p1 name (mk_closure v1 d1 n1)) /\
    nth_error (sp_heap (space w2)) a2
    = Some (marble_body p2 name (mk_closure v2 d2 n2)) /\
    In a1 (sp_bodies (space w2)) /\ In a2 (sp_bodies (space w2)) /\
    nth_error (sp_shapes (space w2)) i1 = Some (marble_shape a1) /\
    nth_error (sp_shapes (space w2)) i2 = Some (marble_shape a2) /\
    s_collision_type (marble_shape a1) = 1 /\
    s_collision_type (marble_shape a2) = 1.
Proof.
  assert (Hlast : forall (A : Type) (l : list A) (x y : A),
             nth_error ((l ++ [x]) ++ [y]) (S (List.length l)) = Some y).
  { intros A l x y. rewrite nth_error_app2; rewrite length_app, Nat.add_1_r; [|lia].
    now rewrite Nat.sub_diag. }
  pose proof (add_marble_Ok w p1 v1 name d1 n1) as H1.
  match type of H1 with _ = Ok (?x, _) => set (w1 := x) in * end.
  pose proof (add_marble_Ok w1 p2 v2 name d2 n2) as H2.
  match type of H2 with _ = Ok (?x, _) => set (w2 := x) in * end.
  exists w1, w2,
         (List.length (sp_heap (space w))), (List.length (sp_shapes (space w))),
         (S (List.length (sp_heap (space w)))), (S (List.length (sp_shapes (space w)))).
  split; [exact H1|]. split.
  { rewrite H2. subst w1. cbn. now rewrite !length_app, !Nat.add_1_r. }
  clear H1 H2. subst w2 w1. unfold set_registry, set_space.
  cbn [space bodies shapes sp_heap sp_bodies sp_shapes].
  rewrite !length_app, !Nat.add_1_r, !dict_get_set_same.
  repeat split; auto using Nat.neq_succ_diag_r.
  - rewrite <- app_assoc. apply nth_error_app_here.
  - apply in_or_app. left. apply in_or_app. right. now left.
  - apply in_or_app. right. now left.
  - rewrite <- app_assoc. apply nth_error_app_here.
Qed.


End Registry.

(** ** The running minimum *)

Lemma fold_set_keeps {V : Type} (l : list string) (v : V) (k : string) :
  forall d, dict_get d k = Some v ->
  dict_get (fold_left (fun d k => dict_set d k v) l d) k = Some v.
Proof.
  induction l as [|k' l IH]; simpl; intros d H; [exact H|].
  apply IH. destruct (String.eqb_spec k' k) as [->|Hk].
  - apply dict_get_set_same.
  - now rewrite dict_get_set_other.
Qed.

Lemma fold_set_const {V : Type} (l : list string) (v : V) (k : string) :
  In k l ->
  forall d, dict_get (fold_left (fun d k => dict_set d k v) l d) k = Some v.
Proof.
  induction l as [|k' l IH]; simpl; intros Hin d; [contradiction|].
  destruct Hin as [-> | Hin]; [|auto].
  apply fold_set_keeps, dict_get_set_same.
Qed.

(** The squared diagonal of the arena. *)
Definition arena_diagonal_sq : Q := (full_length ^ 2 + full_height ^ 2)%Q.

(** C4, as the code has it: before the loop, hence before the first
    sample, the running minimum of every outcome body is set to the
    squared length of the arena, [full_length ** 2 = 640000]. *)
Theorem running_minimum_starts_at_squared_length {E : Engine}
  (w : MarbleWorld E) (bname : string) :
  In bname (outcome_record_bodies w) ->
  dict_get (outcome_dists (events (fst (simulate_setup w)))) bname
  = Some (full_length ^ 2)%Q /\
  (full_length ^ 2 == 640000)%Q.
Proof.
  intros H. split; [|reflexivity].
  unfold simulate_setup, set_outcome_dists. cbn.
  now apply fold_set_const.
Qed.

(** ** The simulation loop *)

Lemma step_max_750 : step_max = 750.
Proof. reflexivity. Qed.

(** ** The order of the recorded events *)

(** The steps of a list of events never go down, from the first entry to
    the last. *)
Definition nondecreasing (l : list event) : Prop :=
  forall i j ei ej,
    (i <= j)%nat -> nth_error l i = Some ei -> nth_error l j = Some ej ->
    ev_step ei <= ev_step ej.

Definition step_le (a b : event) : Prop := ev_step a <= ev_step b.

(** Sorted by step, and no step beyond [n]. *)
Definition ordered_upto (n : Z) (l : list event) : Prop :=
  StronglySorted step_le l /\ Forall (fun e => ev_step e <= n) l.

Lemma same_step_sorted (n : Z) (cs : list event) :
  Forall (fun e => ev_step e = n) cs -> StronglySorted step_le cs.
Proof.
  induction 1 as [|e cs He Hcs IH]; constructor; auto.
  eapply Forall_impl; [|exact Hcs]. unfold step_le. intros a Ha. lia.
Qed.

Lemma ordered_upto_app (n : Z) (l cs : list event) :
  ordered_upto n l -> Forall (fun e => ev_step e = n) cs ->
  ordered_upto (n + 1) (l ++ cs).
Proof.
  intros [Hs Hb] Hcs. split.
  - induction l as [|a l IH]; simpl.
    + eapply same_step_sorted; eauto.
    + inversion Hs; subst. inversion Hb; subst. constructor; auto.
      apply Forall_app. split; auto.
      eapply Forall_impl; [|exact Hcs]. unfold step_le. intros e He. lia.
  - apply Forall_app. split.
    + eapply Forall_impl; [|exact Hb]. simpl. intros; lia.
    + eapply Forall_impl; [|exact Hcs]. simpl. intros; lia.
Qed.

Lemma sorted_nondecreasing (l : list event) :
  StronglySorted step_le l -> nondecreasing l.
Proof.
  induction 1 as [|a l Hs IH Ha]; intros i j ei ej Hij Hi Hj.
  - destruct i; discriminate.
  - destruct j as [|j].
    + assert (i = O) by lia. subst i. simpl in *. assert (ei = ej) by congruence.
      subst. lia.
    + destruct i as [|i]; simpl in *.
      * inversion Hi; subst a. rewrite Forall_forall in Ha.
        apply Ha. eapply nth_error_In; eauto.
      * apply (IH i j); auto. lia.
Qed.


Section Simulation.

Context {E : Engine}.

(** What one turn of the loop makes of a world: the heap [h] and the
    contacts [c] of the space, the events [cs] and [ws] that were appended,
    the running minima [d], and the step counter one further. *)
Definition stepped (w : MarbleWorld E) (h : list Body) (c : cache E)
  (cs ws : list event) (d : dict Q) : MarbleWorld E :=
  mk_world (step w + 1)
           (mk_space h (sp_bodies (space w)) (sp_shapes (space w))
                     (sp_handlers (space w)) (sp_gravity (space w))
                     (sp_damping (space w)) c)
           (mk_events (collisions (events w) ++ cs) (wall_bounces (events w) ++ ws)
                      (outcome (events w)) d)
           (bodies w) (shapes w) (path_record_bodies w)
           (outcome_record_bodies w) (walls w).

(** The callbacks append events that carry the current step. *)
Definition logged (w w' : MarbleWorld E) : Prop :=
  exists cs ws,
    w' = set_events w (mk_events (collisions (events w) ++ cs)
                                 (wall_bounces (events w) ++ ws)
                                 (outcome (events w)) (outcome_dists (events w))) /\
    Forall (fun e => ev_step e = step w) cs /\
    Forall (fun e => ev_step e = step w) ws.

Lemma logged_refl (w : MarbleWorld E) : logged w w.
Proof.
  exists [], []. rewrite !app_nil_r.
  destruct w as [? ? [] ? ? ? ? ?]. repeat split; constructor.
Qed.

Lemma logged_trans (w1 w2 w3 : MarbleWorld E) :
  logged w1 w2 -> logged w2 w3 -> logged w1 w3.
Proof.
  intros (cs & ws & -> & Hc & Hw) (cs' & ws' & -> & Hc' & Hw').
  exists (cs ++ cs'), (ws ++ ws'). cbn in *. rewrite !app_assoc.
  repeat split; apply Forall_app; auto.
Qed.

Lemma run_callback_logged (cb : callback) (w : MarbleWorld E) (a b : pyval) :
  logged w (run_callback cb w a b).
Proof.
  destruct cb; simpl.
  - exists [mk_event (a, b) (step w)], []. rewrite app_nil_r.
    repeat split; repeat constructor.
  - exists [], [mk_event (a, b) (step w)]. rewrite app_nil_r.
    repeat split; repeat constructor.
Qed.

Lemma begin_contact_logged (w : MarbleWorld E) (arb : arbiter) :
  logged w (begin_contact w arb).
Proof.
  unfold begin_contact.
  repeat match goal with
         | |- logged _ (match ?x with _ => _ end) => destruct x
         end;
    auto using logged_refl, run_callback_logged.
Qed.

Lemma begin_contacts_logged (begun : list arbiter) (w : MarbleWorld E) :
  logged w (fold_left begin_contact begun w).
Proof.
  revert w; induction begun as [|arb begun IH]; intros w; simpl.
  - apply logged_refl.
  - eapply logged_trans; [apply begin_contact_logged | apply IH].
Qed.

(** [record_dists] and [classify] touch one entry of the events each. *)
Lemma record_dists_shape (w w' : MarbleWorld E) :
  record_dists w = Ok w' -> exists d, w' = set_outcome_dists w d.
Proof.
  unfold record_dists.
  apply (for_each_invariant (fun s => exists d, s = set_outcome_dists w d)).
  - intros bname s s' (d & ->) H. bind_inv H. bind_inv H.
    destruct (Qltb _ _); inversion H; subst; eexists; reflexivity.
  - exists (outcome_dists (events w)). now destruct w as [? ? [] ? ? ? ? ?].
Qed.

Lemma classify_shape (w w' : MarbleWorld E) :
  classify w = Ok w' -> exists o, w' = set_outcome w o.
Proof.
  unfold classify.
  apply (for_each_invariant (fun s => exists o, s = set_outcome w o)).
  - intros bname s s' (d & ->) H. bind_inv H.
    destruct (Qgtb _ _); inversion H; subst; eexists; reflexivity.
  - exists (outcome (events w)). now destruct w as [? ? [] ? ? ? ? ?].
Qed.

(** The outcome loop, on any list of names. *)
Lemma classify_loop (l : list string) :
  forall w w' : MarbleWorld E,
  for_each l
    (fun bname w =>
       b <- body_of w bname ;;
       if Qgtb (fst (b_position b)) (- marble_size / 2)
       then Ok (set_outcome w (dict_set (outcome (events w)) bname false))
       else Ok (set_outcome w (dict_set (outcome (events w)) bname true))) w
  = Ok w' ->
  (exists o, w' = set_outcome w o) /\
  (forall bname, In bname l ->
     exists b, body_of w bname = Ok b /\
       dict_get (outcome (events w')) bname
       = Some (Qle_bool (fst (b_position b)) (- marble_size / 2))) /\
  (forall bname, ~ In bname l ->
     dict_get (outcome (events w')) bname = dict_get (outcome (events w)) bname).
Proof.
  induction l as [|k l IH]; simpl; intros w w' H.
  - inversion H; subst. split; [|split]; auto; try tauto.
    exists (outcome (events w')). now destruct w' as [? ? [] ? ? ? ? ?].
  - apply bind_Ok in H. destruct H as (w1 & Hk & H).
    apply bind_Ok in Hk. destruct Hk as (b0 & Hb0 & Hk).
    set (v := Qle_bool (fst (b_position b0)) (- marble_size / 2)).
    assert (Hw : w1 = set_outcome w (dict_set (outcome (events w)) k v)).
    { unfold v, Qgtb in *. destruct (Qle_bool _ _); simpl in Hk; now inversion Hk. }
    clear Hk. subst w1.
    destruct (IH _ _ H) as ((o & ->) & Hin & Hout).
    split; [eexists; reflexivity | split].
    + intros bname [<- | Hb].
      * exists b0. split; [exact Hb0|].
        destruct (in_dec string_dec k l) as [Hk | Hk].
        -- destruct (Hin _ Hk) as (b & Hb & ->).
           change (body_of w k = Ok b) in Hb. congruence.
        -- rewrite (Hout _ Hk). cbn. apply dict_get_set_same.
      * destruct (Hin _ Hb) as (b & Hb' & ->). eauto.
    + intros bname Hn. rewrite Hout by tauto. cbn.
      apply dict_get_set_other. tauto.
Qed.

Lemma classify_outcome (w w' : MarbleWorld E) :
  classify w = Ok w' ->
  forall bname, In bname (outcome_record_bodies w) ->
  exists b, body_of w bname = Ok b /\
    dict_get (outcome (events w')) bname
    = Some (Qle_bool (fst (b_position b)) (- marble_size / 2)).
Proof.
  unfold classify. intros H. now apply classify_loop in H.
Qed.


Section Turns.

Variable call : Z -> Body -> Vec2 -> Q -> Q -> rng -> result (Body * rng).

(** [n] turns of the loop body. *)
Fixpoint turns (n : nat) (st : @sim_state E) : result (@sim_state E) :=
  match n with
  | O => Ok st
  | S n' => st' <- loop_body call st ;; turns n' st'
  end.

Lemma space_step_shape (w w' : MarbleWorld E) (r r' : rng) (dt : Q) :
  space_step call w r dt = Ok (w', r') ->
  exists h c cs ws,
    w' = mk_world (step w)
           (mk_space h (sp_bodies (space w)) (sp_shapes (space w))
                     (sp_handlers (space w)) (sp_gravity (space w))
                     (sp_damping (space w)) c)
           (mk_events (collisions (events w) ++ cs) (wall_bounces (events w) ++ ws)
                      (outcome (events w)) (outcome_dists (events w)))
           (bodies w) (shapes w) (path_record_bodies w)
           (outcome_record_bodies w) (walls w) /\
    Forall (fun e => ev_step e = step w) cs /\
    Forall (fun e => ev_step e = step w) ws.
Proof.
  unfold space_step. intros H.
  destruct (collide E _ _ _) as [begun c].
  match type of H with context [fold_left begin_contact begun ?x] =>
    destruct (begin_contacts_logged begun x) as (cs & ws & Hw & Hc & Hb) end.
  rewrite Hw in H. clear Hw. cbn in H, Hc, Hb.
  bind_inv H. destruct a as [h r1]. inversion H; subst; clear H.
  eexists _, c, cs, ws. split; [reflexivity | auto].
Qed.

Lemma loop_body_shape (st st' : sim_state) :
  loop_body call st = Ok st' ->
  exists h c cs ws d,
    st_world st' = stepped (st_world st) h c cs ws d /\
    Forall (fun e => ev_step e = step (st_world st)) cs /\
    Forall (fun e => ev_step e = step (st_world st)) ws.
Proof.
  unfold loop_body. intros H. bind_inv H. bind_inv H.
  apply record_dists_shape in Ha0. destruct Ha0 as (d & ->).
  apply bind_Ok in H. destruct H as ([w r] & Hs & H). inversion H; subst; clear H.
  apply space_step_shape in Hs. destruct Hs as (h & c & cs & ws & -> & Hc & Hw).
  exists h, c, cs, ws, d. cbn in *. auto.
Qed.

Lemma turns_left_0 (n : Z) : turns_left n = O -> Z.leb n step_max = false.
Proof.
  unfold turns_left. rewrite step_max_750. intros H.
  apply Z.leb_gt. lia.
Qed.

Lemma turns_left_S (n : Z) (k : nat) :
  turns_left n = S k -> Z.leb n step_max = true /\ turns_left (n + 1) = k.
Proof.
  unfold turns_left. rewrite step_max_750. intros H.
  split; [apply Z.leb_le|]; lia.
Qed.

(** The loop makes as many turns as steps are left up to [step_max],
    whatever the turns do to the world, unless one of them raises. *)
Lemma while_loop_turns (n : nat) :
  forall st, turns_left (step (st_world st)) = n ->
  while_loop call n st = Some (turns n st).
Proof.
  induction n as [|n IH]; intros st Hn.
  - simpl. now rewrite (turns_left_0 _ Hn).
  - destruct (turns_left_S _ _ Hn) as [Hle Hk].
    simpl. rewrite Hle.
    destruct (loop_body call st) as [st'|e] eqn:Hb; [|reflexivity].
    simpl. apply IH.
    apply loop_body_shape in Hb. destruct Hb as (h & c & cs & ws & d & -> & _).
    exact Hk.
Qed.

(** A property the loop body keeps holds when the loop is left. *)
Lemma turns_invariant (P : sim_state -> Prop) :
  (forall st st', P st -> loop_body call st = Ok st' -> P st') ->
  forall n st st', P st -> turns n st = Ok st' -> P st'.
Proof.
  intros Hb n; induction n as [|n IH]; simpl; intros st st' Hst H.
  - now inversion H; subst.
  - bind_inv H. eauto.
Qed.

Lemma turns_step (n : nat) :
  forall st st', turns n st = Ok st' ->
  step (st_world st') = step (st_world st) + Z.of_nat n.
Proof.
  induction n as [|n IH]; simpl; intros st st' H.
  - inversion H; subst. lia.
  - bind_inv H. apply IH in H. rewrite H.
    apply loop_body_shape in Ha. destruct Ha as (h & c & cs & ws & d & -> & _).
    cbn. lia.
Qed.

(** A run of turns that raises does so in one of its turns. *)
Lemma turns_Raise (n : nat) :
  forall st e, turns n st = Raise e ->
  exists k st', (k < n)%nat /\ turns k st = Ok st' /\ loop_body call st' = Raise e.
Proof.
  induction n as [|n IH]; simpl; intros st e Ht; [discriminate|].
  destruct (loop_body call st) as [st1|e1] eqn:Hb; simpl in Ht.
  - destruct (IH _ _ Ht) as (k & st' & Hk & Hr & Hl).
    exists (S k), st'. simpl. rewrite Hb. simpl. repeat split; auto. lia.
  - inversion Ht; subst. exists O, st. simpl. repeat split; auto. lia.
Qed.

(** C3, as the code has it: the bound is [step_max = 750], and from step
    0 the loop makes one turn for each of the steps 0, 1, ..., 750, that
    is 751 turns with one [space.step] each, whatever the events and the
    outcome are; it is left earlier only by an exception.  With the fuel
    [turns_left 0] the loop returns. *)
Theorem loop_runs_every_step (st : sim_state) :
  step (st_world st) = 0 ->
  step_max = 750 /\
  turns_left 0 = 751%nat /\
  while_loop call (turns_left 0) st = Some (turns 751 st) /\
  (forall st', turns 751 st = Ok st' -> step (st_world st') = 751) /\
  (forall e,
     while_loop call (turns_left 0) st = Some (Raise e) ->
     exists k st', (k < 751)%nat /\ turns k st = Ok st' /\
                   loop_body call st' = Raise e).
Proof.
  intros H0.
  assert (Hw : while_loop call (turns_left 0) st = Some (turns 751 st)).
  { change 751%nat with (turns_left 0). apply while_loop_turns. now rewrite H0. }
  split; [reflexivity | split; [reflexivity | split; [exact Hw | split]]].
  - intros st' H. apply turns_step in H. rewrite H, H0. reflexivity.
  - intros e He. apply turns_Raise. congruence.
Qed.


(** [simulate] is the set-up, the turns of the loop and the outcome loop. *)
Lemma simulate_run_by_Ok (w : MarbleWorld E) (r : rng) (st : sim_state) :
  simulate_run_by call w r = Some (Ok st) ->
  exists st1,
    turns (turns_left (step w))
          (mk_state (fst (simulate_setup w)) r (snd (simulate_setup w))) = Ok st1 /\
    classify (st_world st1) = Ok (st_world st) /\
    st_rng st = st_rng st1 /\ st_paths st = st_paths st1.
Proof.
  unfold simulate_run_by.
  change (let '(w0, paths) := simulate_setup w in
          match while_loop call (turns_left (step w0)) (mk_state w0 r paths) with
          | Some (Ok st) =>
              match classify (st_world st) with
              | Ok w' => Some (Ok (mk_state w' (st_rng st) (st_paths st)))
              | Raise e => Some (Raise e)
              end
          | Some (Raise e) => Some (Raise e)
          | None => None
          end)
    with (match while_loop call (turns_left (step w))
                  (mk_state (fst (simulate_setup w)) r (snd (simulate_setup w))) with
          | Some (Ok st) =>
              match classify (st_world st) with
              | Ok w' => Some (Ok (mk_state w' (st_rng st) (st_paths st)))
              | Raise e => Some (Raise e)
              end
          | Some (Raise e) => Some (Raise e)
          | None => None
          end).
  rewrite while_loop_turns by reflexivity.
  destruct (turns _ _) as [st1|e]; [|discriminate].
  destruct (classify (st_world st1)) as [w'|e] eqn:Hc; [|discriminate].
  intros H. inversion H; subst; clear H. exists st1. auto.
Qed.

(** [simulate] returns: the fuel it is given suffices. *)
Lemma simulate_run_by_returns (w : MarbleWorld E) (r : rng) :
  simulate_run_by call w r <> None.
Proof.
  unfold simulate_run_by. cbn -[while_loop turns_left classify].
  rewrite while_loop_turns by reflexivity.
  destruct (turns _ _) as [st1|e]; [|discriminate].
  destruct (classify (st_world st1)); discriminate.
Qed.

Lemma turns_setting (n : nat) (st st' : sim_state) :
  turns n st = Ok st' ->
  bodies (st_world st') = bodies (st_world st) /\
  outcome_record_bodies (st_world st') = outcome_record_bodies (st_world st) /\
  path_record_bodies (st_world st') = path_record_bodies (st_world st).
Proof.
  apply (turns_invariant
           (fun s => bodies (st_world s) = bodies (st_world st) /\
                     outcome_record_bodies (st_world s)
                     = outcome_record_bodies (st_world st) /\
                     path_record_bodies (st_world s)
                     = path_record_bodies (st_world st))); [|auto].
  intros s s' Hs Hb. apply loop_body_shape in Hb.
  destruct Hb as (h & c & cs & ws & d & -> & _). exact Hs.
Qed.

(** C1: when [simulate] returns, every outcome body has an entry in the
    outcome mapping; it is [True] exactly when the body's final
    horizontal position is at most [-marble_size/2], and [False]
    otherwise. *)
Theorem outcome_iff_past_left_boundary (w : MarbleWorld E) (r : rng)
  (st : sim_state) (bname : string) :
  simulate_run_by call w r = Some (Ok st) ->
  In bname (outcome_record_bodies w) ->
  exists b passed,
    body_of (st_world st) bname = Ok b /\
    dict_get (outcome (events (st_world st))) bname = Some passed /\
    (passed = true <-> (fst (b_position b) <= - marble_size / 2)%Q) /\
    (passed = false <-> ~ (fst (b_position b) <= - marble_size / 2)%Q).
Proof.
  intros H Hin. apply simulate_run_by_Ok in H.
  destruct H as (st1 & Ht & Hc & _).
  apply turns_setting in Ht. destruct Ht as (_ & Ho & _).
  cbn in Ho.
  destruct (classify_outcome _ _ Hc bname) as (b & Hb & Hd);
    [now rewrite Ho|].
  apply classify_shape in Hc. destruct Hc as (o & Hw).
  exists b, (Qle_bool (fst (b_position b)) (- marble_size / 2)).
  split; [rewrite Hw; exact Hb | split; [exact Hd|]].
  rewrite <- Qle_bool_iff.
  destruct (Qle_bool _ _); split; split; congruence.
Qed.


(** The events of a world are in order, and none is ahead of the step
    counter. *)
Definition ordered (w : MarbleWorld E) : Prop :=
  ordered_upto (step w) (collisions (events w)) /\
  ordered_upto (step w) (wall_bounces (events w)).

Lemma loop_body_ordered (st st' : sim_state) :
  ordered (st_world st) -> loop_body call st = Ok st' -> ordered (st_world st').
Proof.
  intros [Hc Hw] Hb. apply loop_body_shape in Hb.
  destruct Hb as (h & c & cs & ws & d & -> & Hcs & Hws).
  split; cbn; apply ordered_upto_app; auto.
Qed.

Lemma simulate_ordered (w : MarbleWorld E) (r : rng) (st : sim_state) :
  ordered w -> simulate_run_by call w r = Some (Ok st) -> ordered (st_world st).
Proof.
  intros Ho H. apply simulate_run_by_Ok in H. destruct H as (st1 & Ht & Hc & _).
  apply classify_shape in Hc. destruct Hc as (o & ->).
  apply (turns_invariant (fun s => ordered (st_world s)) loop_body_ordered) in Ht;
    [exact Ht | exact Ho].
Qed.

(** C6: when [simulate] returns for a world that [__init__] made, the
    steps of the recorded collisions never go down from the first entry
    to the last, and neither do the steps of the recorded wall bounces. *)
Theorem events_nondecreasing marbles extra_walls gate prb orb
  (w : MarbleWorld E) (r : rng) (st : sim_state) :
  init marbles extra_walls gate prb orb = Ok w ->
  simulate_run_by call w r = Some (Ok st) ->
  nondecreasing (collisions (events (st_world st))) /\
  nondecreasing (wall_bounces (events (st_world st))).
Proof.
  intros Hi Hr. apply init_inv in Hi.
  destruct Hi as (hw & hm & bs & ws & ms & _ & _ & _ & _ & _ & _ & Hev & _).
  assert (Ho : ordered w).
  { unfold ordered, ordered_upto. rewrite Hev. cbn. repeat split; constructor. }
  destruct (simulate_ordered _ _ _ Ho Hr) as [[Hc _] [Hw _]].
  split; now apply sorted_nondecreasing.
Qed.


End Turns.

End Simulation.

(** ** Runs that do not tell two velocity functions apart *)

Lemma heap_get_Forall (P : Body -> Prop) (h : list Body) (a : nat) :
  P (new_body DYNAMIC) -> Forall P h -> P (heap_get h a).
Proof.
  intros Hd Hh. unfold heap_get.
  destruct (nth_in_or_default a h (new_body DYNAMIC)) as [Hin | ->]; [|exact Hd].
  rewrite Forall_forall in Hh. auto.
Qed.

Lemma heap_set_Forall (P : Body -> Prop) (h : list Body) (a : nat) (b : Body) :
  P b -> Forall P h -> Forall P (heap_set h a b).
Proof.
  intros Hb Hh; revert a; induction Hh as [|x h Hx Hh IH]; intros a; simpl.
  - constructor.
  - destruct a; constructor; auto.
Qed.

Section Agreement.

Context {E : Engine}.

Variables call1 call2 : Z -> Body -> Vec2 -> Q -> Q -> rng -> result (Body * rng).

(** What holds of every body of the heap throughout the run. *)
Variable P : Body -> Prop.

Hypothesis P_default : P (new_body DYNAMIC).
Hypothesis P_position : forall b dt, P b -> P (update_position E b dt).
Hypothesis P_solve :
  forall c ss dt h, Forall P h -> Forall P (solve E c ss dt h).
Hypothesis P_call :
  forall stp b g d dt r b' r',
    0 <= stp <= step_max -> P b -> call1 stp b g d dt r = Ok (b', r') -> P b'.
Hypothesis calls_agree :
  forall stp b g d dt r,
    0 <= stp <= step_max -> P b -> call1 stp b g d dt r = call2 stp b g d dt r.

Lemma integrate_positions_Forall (dt : Q) (bs : list nat) (h : list Body) :
  Forall P h -> Forall P (integrate_positions (E := E) dt bs h).
Proof.
  unfold integrate_positions. revert h; induction bs as [|a bs IH]; simpl; intros h Hh.
  - exact Hh.
  - apply IH. apply heap_set_Forall; auto. apply P_position.
    now apply heap_get_Forall.
Qed.

Lemma integrate_velocities_agree (stp : Z) (g : Vec2) (d dt : Q) (bs : list nat) :
  0 <= stp <= step_max ->
  forall h r, Forall P h ->
  integrate_velocities call1 stp g d dt bs (h, r)
  = integrate_velocities call2 stp g d dt bs (h, r) /\
  (forall h' r', integrate_velocities call1 stp g d dt bs (h, r) = Ok (h', r') ->
                 Forall P h').
Proof.
  intros Hs. unfold integrate_velocities.
  induction bs as [|a bs IH]; simpl; intros h r Hh.
  - split; [reflexivity|]. intros h' r' H. now inversion H; subst.
  - pose proof (heap_get_Forall P h a P_default Hh) as Hb.
    rewrite <- (calls_agree stp _ g d dt r Hs Hb).
    destruct (call1 stp (heap_get h a) g d dt r) as [[b' r1]|e] eqn:Hc; simpl.
    + apply IH. apply heap_set_Forall; auto. eapply P_call; eauto.
    + split; [reflexivity | discriminate].
Qed.

Lemma space_step_agree (w : MarbleWorld E) (r : rng) (dt : Q) :
  0 <= step w <= step_max -> Forall P (sp_heap (space w)) ->
  space_step call1 w r dt = space_step call2 w r dt /\
  (forall w' r', space_step call1 w r dt = Ok (w', r') ->
                 Forall P (sp_heap (space w'))).
Proof.
  intros Hs Hh. unfold space_step.
  destruct (collide E _ _ _) as [begun c].
  match goal with |- context [fold_left begin_contact begun ?x] =>
    destruct (begin_contacts_logged begun x) as (cs & ws & Hw & _) end.
  rewrite Hw. clear Hw.
  cbn [space step set_events set_space set_cache set_heap
       sp_heap sp_bodies sp_shapes sp_gravity sp_damping sp_cache].
  match goal with |- context [integrate_velocities call1 ?s ?g ?d ?t ?bs (?h, ?r)] =>
    destruct (integrate_velocities_agree s g d t bs Hs h r) as [Heq HP];
      [now apply integrate_positions_Forall|] end.
  rewrite <- Heq. split; [reflexivity|].
  intros w' r' H. apply bind_Ok in H. destruct H as ([h' r1] & Hv & H).
  inversion H; subst; clear H. cbn. apply P_solve. eapply HP; eauto.
Qed.

Lemma loop_body_agree (st : @sim_state E) :
  0 <= step (st_world st) <= step_max ->
  Forall P (sp_heap (space (st_world st))) ->
  loop_body call1 st = loop_body call2 st /\
  (forall st', loop_body call1 st = Ok st' ->
               Forall P (sp_heap (space (st_world st')))).
Proof.
  intros Hs Hh. unfold loop_body.
  destruct (record_paths _ _) as [paths|e]; simpl;
    [|split; [reflexivity | discriminate]].
  destruct (record_dists _) as [w1|e] eqn:Hd; simpl;
    [|split; [reflexivity | discriminate]].
  apply record_dists_shape in Hd. destruct Hd as (d & ->).
  destruct (space_step_agree (set_outcome_dists (st_world st) d) (st_rng st) step_size)
    as [Heq HP]; auto.
  rewrite <- Heq. split; [reflexivity|].
  intros st' H. apply bind_Ok in H. destruct H as ([w' r'] & Hsp & H).
  inversion H; subst; clear H. cbn. eapply HP; eauto.
Qed.

Lemma while_loop_agree (fuel : nat) :
  forall st : @sim_state E, 0 <= step (st_world st) ->
  Forall P (sp_heap (space (st_world st))) ->
  while_loop call1 fuel st = while_loop call2 fuel st.
Proof.
  induction fuel as [|fuel IH]; intros st Hs Hh; simpl; [reflexivity|].
  destruct (Z.leb_spec (step (st_world st)) step_max) as [Hle | Hgt]; [|reflexivity].
  destruct (loop_body_agree st) as [Heq HP]; auto.
  rewrite <- Heq.
  destruct (loop_body call1 st) as [st'|e] eqn:Hb; [|reflexivity].
  apply IH; [|now apply HP].
  apply loop_body_shape in Hb. destruct Hb as (h & c & cs & ws & d & -> & _).
  cbn. lia.
Qed.

(** Two velocity functions that agree at the steps of the loop give the
    same run. *)
Lemma simulate_run_by_agree (w : MarbleWorld E) (r : rng) :
  0 <= step w -> Forall P (sp_heap (space w)) ->
  simulate_run_by call1 w r = simulate_run_by call2 w r.
Proof.
  intros Hs Hh. unfold simulate_run_by.
  cbn -[while_loop turns_left classify].
  rewrite while_loop_agree; auto.
Qed.

End Agreement.

(** ** Schedules outside the horizon *)

(** A schedule value that lies in [0, step_max]. *)
Definition in_horizon (v : pyval) : bool :=
  match v with
  | VNum q => Qle_bool 0 q && Qle_bool q (inject_Z step_max)
  | _ => false
  end.

Lemma py_eq_int_in_horizon (stp : Z) (v : pyval) :
  0 <= stp <= step_max -> py_eq_int stp v = true -> in_horizon v = true.
Proof.
  intros [H0 H1] H. destruct v as [q| |]; simpl in *; try discriminate.
  apply Qeq_bool_iff in H. apply andb_true_intro.
  split; apply Qle_bool_iff; rewrite <- H.
  - change 0%Q with (inject_Z 0). now rewrite <- Zle_Qle.
  - now rewrite <- Zle_Qle.
Qed.

Section Pruned.

Context {E : Engine}.

(** The closure of a marble with the actions whose step is outside the
    horizon left out: what the claim calls a run where the action is
    absent.  It follows the claim's words, not the source. *)
Definition delayed_velocity_pruned (cls : class_state) (stp : Z) (c : closure)
  (body : Body) (gravity : Vec2) (damping dt : Q) (r : rng)
  : result (Body * rng) :=
  let body := update_velocity E body gravity damping dt in
  body <- (if in_horizon (cl_delay c) then launch (E := E) stp c body else Ok body) ;;
  Ok (if in_horizon (cl_noisy c) then noise cls stp c body r else (body, r)).

Definition velocity_func_pruned (cls : class_state) (stp : Z) (body : Body)
  (gravity : Vec2) (damping dt : Q) (r : rng) : result (Body * rng) :=
  match b_velocity_func body with
  | Some c => delayed_velocity_pruned cls stp c body gravity damping dt r
  | None => Ok (update_velocity E body gravity damping dt, r)
  end.

Lemma launch_out_of_horizon (stp : Z) (c : closure) (b : Body) :
  0 <= stp <= step_max -> in_horizon (cl_delay c) = false ->
  launch (E := E) stp c b = Ok b.
Proof.
  intros Hs Hc. unfold launch.
  destruct (py_eq_int stp (cl_delay c)) eqn:He; [|reflexivity].
  apply py_eq_int_in_horizon in He; [congruence | exact Hs].
Qed.

Lemma noise_out_of_horizon (cls : class_state) (stp : Z) (c : closure)
  (b : Body) (r : rng) :
  0 <= stp <= step_max -> in_horizon (cl_noisy c) = false ->
  noise cls stp c b r = (b, r).
Proof.
  intros Hs Hc. unfold noise.
  destruct (py_eq_int stp (cl_noisy c)) eqn:He; [|reflexivity].
  apply py_eq_int_in_horizon in He; [congruence | exact Hs].
Qed.

Lemma velocity_func_pruned_agree (cls : class_state) (stp : Z) (b : Body)
  (g : Vec2) (d dt : Q) (r : rng) :
  0 <= stp <= step_max ->
  velocity_func (E := E) cls stp b g d dt r
  = velocity_func_pruned cls stp b g d dt r.
Proof.
  intros Hs. unfold velocity_func, velocity_func_pruned.
  destruct (b_velocity_func b) as [c|]; [|reflexivity].
  unfold delayed_velocity, delayed_velocity_pruned.
  destruct (in_horizon (cl_delay c)) eqn:Hd.
  - destruct (launch (E := E) stp c _) as [b'|e]; simpl; [|reflexivity].
    destruct (in_horizon (cl_noisy c)) eqn:Hn; [reflexivity|].
    now rewrite noise_out_of_horizon.
  - rewrite launch_out_of_horizon by assumption. simpl.
    destruct (in_horizon (cl_noisy c)) eqn:Hn; [reflexivity|].
    now rewrite noise_out_of_horizon.
Qed.

(** C7: a launch step or a noise step outside [0, step_max] (the
    sentinel -1, or a value that is no number, among them) is no error
    and never fires: at every step of the loop the launch returns the
    body as it is, without looking at the velocity, and the noise leaves
    the body and the random generator as they are; and for a world that
    [__init__] made, [simulate] returns what the run with these actions
    left out returns, events, paths and exceptions alike. *)
Theorem out_of_horizon_never_fires (cls : class_state) marbles extra_walls gate
  prb orb (w : MarbleWorld E) (r : rng) :
  init marbles extra_walls gate prb orb = Ok w ->
  (forall stp c b,
     0 <= stp <= step_max -> in_horizon (cl_delay c) = false ->
     launch (E := E) stp c b = Ok b) /\
  (forall stp c b r',
     0 <= stp <= step_max -> in_horizon (cl_noisy c) = false ->
     noise cls stp c b r' = (b, r')) /\
  simulate cls w r = returned (simulate_run_by (velocity_func_pruned cls) w r).
Proof.
  intros Hi.
  split; [exact launch_out_of_horizon | split; [exact (noise_out_of_horizon cls)|]].
  unfold simulate, simulate_run. f_equal.
  apply init_inv in Hi.
  destruct Hi as (hw & hm & bs & ws & ms & _ & _ & _ & _ & _ & Hstep & _).
  apply (simulate_run_by_agree _ _ (fun _ => True)); auto;
    try solve [intros; apply Forall_forall; auto];
    try solve [intros; now apply velocity_func_pruned_agree].
  lia.
Qed.

End Pruned.

(** ** What the proofs need of the engine *)

(** The shape [i] sits on the body at address [a]. *)
Definition on_body (ss : list Shape) (i a : nat) : bool :=
  match nth_error ss i with
  | Some s => Nat.eqb (s_body s) a
  | None => false
  end.

(** No contact of [arbs] involves a shape of the body at address [a]. *)
Definition contact_free (ss : list Shape) (arbs : list arbiter) (a : nat) : bool :=
  forallb (fun arb => negb (on_body ss (fst arb) a) && negb (on_body ss (snd arb) a))
          arbs.

(** The laws of rigid-body integration the world relies on: integrating
    the position leaves the motion as it is, and the angle of a body that
    does not turn; integrating the velocity without gravity, damping or
    forces leaves the velocity as it is; an impulse at the centre of mass
    of a body at angle 0 adds [j / m] to the velocity and no spin; the
    solver changes only bodies in contact; none of them touches the
    velocity function of a body. *)
Record EngineLaws (E : Engine) : Prop := mk_laws {
  law_position : forall b dt,
    let b' := update_position E b dt in
    b_velocity b' = b_velocity b /\
    b_angular_velocity b' = b_angular_velocity b /\
    b_mass b' = b_mass b /\
    b_velocity_func b' = b_velocity_func b /\
    (b_angular_velocity b == 0 -> b_angle b' == b_angle b);
  law_velocity : forall b g d dt,
    let b' := update_velocity E b g d dt in
    b_angle b' = b_angle b /\
    b_mass b' = b_mass b /\
    b_velocity_func b' = b_velocity_func b /\
    (g = vec_zero -> d = 1%Q ->
     vec_eq (b_velocity b') (b_velocity b) /\
     b_angular_velocity b' == b_angular_velocity b);
  law_impulse : forall b j,
    let b' := apply_impulse_at_local_point E b j in
    b_angle b' = b_angle b /\
    b_mass b' = b_mass b /\
    b_velocity_func b' = b_velocity_func b /\
    b_angular_velocity b' == b_angular_velocity b /\
    (b_angle b == 0 ->
     vec_eq (b_velocity b') (vec_add (b_velocity b) (vec_scale j (/ b_mass b))));
  law_solve_local : forall c ss dt h a,
    contact_free ss (arbiters E c) a = true ->
    nth_error (solve E c ss dt h) a = nth_error h a;
  law_solve_func : forall c ss dt h,
    Forall2 (fun b b' => b_velocity_func b' = b_velocity_func b)
            h (solve E c ss dt h)
}.

(** ** The heap, one address at a time *)

Lemma nth_error_heap_set (h : list Body) (a' : nat) (x : Body) (a : nat) :
  nth_error (heap_set h a' x) a
  = match nth_error h a with
    | Some y => Some (if Nat.eqb a a' then x else y)
    | None => None
    end.
Proof.
  revert a a'; induction h as [|y h IH]; intros a a'.
  - destruct a; reflexivity.
  - destruct a' as [|a'], a as [|a]; simpl; auto.
    now destruct (nth_error h a).
Qed.

Lemma heap_get_nth_error (h : list Body) (a : nat) (b : Body) :
  nth_error h a = Some b -> heap_get h a = b.
Proof. intros H. unfold heap_get. now apply nth_error_nth. Qed.

Lemma heap_set_same_func (h : list Body) (a : nat) (b : Body) :
  b_velocity_func b = b_velocity_func (heap_get h a) ->
  Forall2 (fun x y => b_velocity_func y = b_velocity_func x) h (heap_set h a b).
Proof.
  assert (Hrefl : forall l : list Body,
             Forall2 (fun x y => b_velocity_func y = b_velocity_func x) l l).
  { induction l; constructor; auto. }
  revert a; induction h as [|x h IH]; intros a Hb; simpl; [constructor|].
  destruct a as [|a]; constructor; auto.
Qed.

Lemma same_func_heap_get (h h' : list Body) (a : nat) :
  Forall2 (fun x y => b_velocity_func y = b_velocity_func x) h h' ->
  b_velocity_func (heap_get h' a) = b_velocity_func (heap_get h a).
Proof.
  intros H; revert a; induction H as [|x y h h' Hxy _ IH]; intros a.
  - reflexivity.
  - destruct a as [|a]; [exact Hxy | apply IH].
Qed.

Lemma same_func_trans (h1 h2 h3 : list Body) :
  Forall2 (fun x y => b_velocity_func y = b_velocity_func x) h1 h2 ->
  Forall2 (fun x y => b_velocity_func y = b_velocity_func x) h2 h3 ->
  Forall2 (fun x y => b_velocity_func y = b_velocity_func x) h1 h3.
Proof.
  intros H; revert h3; induction H as [|x y h1 h2 Hxy _ IH]; intros h3 H3;
    inversion H3; subst; constructor; [congruence | auto].
Qed.

Lemma same_func_refl (h : list Body) :
  Forall2 (fun x y => b_velocity_func y = b_velocity_func x) h h.
Proof. induction h; constructor; auto. Qed.

Lemma nth_static_func (h : list Body) (a : nat) :
  b_velocity_func (nth a h (new_body STATIC)) = b_velocity_func (heap_get h a).
Proof.
  unfold heap_get. revert a; induction h as [|x h IH]; intros [|a]; simpl; auto.
Qed.

(** The small engine keeps the laws. *)
Module EulerLaws.

Ltac fields :=
  cbv zeta;
  unfold Euler.update_position, Euler.update_velocity,
    Euler.apply_impulse_at_local_point, Euler.qred2, set_angle, set_position,
    set_velocity, vec_eq, vec_add, vec_scale, vec_zero;
  cbn [b_type b_name b_position b_velocity b_angle b_angular_velocity b_mass
       b_velocity_func fst snd].

Lemma position (b : Body) (dt : Q) :
  let b' := Euler.update_position b dt in
  b_velocity b' = b_velocity b /\
  b_angular_velocity b' = b_angular_velocity b /\
  b_mass b' = b_mass b /\
  b_velocity_func b' = b_velocity_func b /\
  (b_angular_velocity b == 0 -> b_angle b' == b_angle b).
Proof.
  fields. repeat split; auto.
  intros H. rewrite Qred_correct, H. ring.
Qed.

Lemma velocity (b : Body) (g : Vec2) (d dt : Q) :
  let b' := Euler.update_velocity b g d dt in
  b_angle b' = b_angle b /\
  b_mass b' = b_mass b /\
  b_velocity_func b' = b_velocity_func b /\
  (g = vec_zero -> d = 1%Q ->
   vec_eq (b_velocity b') (b_velocity b) /\
   b_angular_velocity b' == b_angular_velocity b).
Proof.
  fields. repeat split; auto; subst; fields; rewrite Qred_correct; ring.
Qed.

Lemma impulse (b : Body) (j : Vec2) :
  let b' := Euler.apply_impulse_at_local_point b j in
  b_angle b' = b_angle b /\
  b_mass b' = b_mass b /\
  b_velocity_func b' = b_velocity_func b /\
  b_angular_velocity b' == b_angular_velocity b /\
  (b_angle b == 0 ->
   vec_eq (b_velocity b') (vec_add (b_velocity b) (vec_scale j (/ b_mass b)))).
Proof.
  fields. repeat split; auto; try reflexivity; apply Qred_correct.
Qed.

Lemma resolve_local (ss : list Shape) (h : list Body) (arb : arbiter) (a : nat) :
  on_body ss (fst arb) a = false -> on_body ss (snd arb) a = false ->
  nth_error (Euler.resolve ss h arb) a = nth_error h a.
Proof.
  unfold on_body, Euler.resolve. intros Ha Hb.
  destruct (nth_error ss (fst arb)) as [sa|]; [|reflexivity].
  destruct (nth_error ss (snd arb)) as [sb|]; [|reflexivity].
  apply Nat.eqb_neq in Ha, Hb.
  assert (Hset : forall h' a' x, a' <> a ->
            nth_error (heap_set h' a' x) a = nth_error h' a).
  { intros h' a' x Hne. rewrite nth_error_heap_set.
    destruct (nth_error h' a); [|reflexivity].
    destruct (Nat.eqb_spec a a'); [congruence | reflexivity]. }
  repeat match goal with
         | |- nth_error (match ?x with _ => _ end) _ = _ => destruct x
         | |- nth_error (if ?x then _ else _) _ = _ => destruct x
         end; rewrite ?Hset; auto.
Qed.

Lemma solve_local (c : list arbiter) (ss : list Shape) (dt : Q) (h : list Body)
  (a : nat) :
  contact_free ss c a = true ->
  nth_error (Euler.solve c ss dt h) a = nth_error h a.
Proof.
  unfold Euler.solve, contact_free.
  revert h; induction c as [|arb c IH]; simpl; intros h H; [reflexivity|].
  apply andb_prop in H. destruct H as [H Hc].
  apply andb_prop in H. destruct H as [H1 H2].
  apply negb_true_iff in H1, H2.
  rewrite IH by assumption. now apply resolve_local.
Qed.

Lemma resolve_func (ss : list Shape) (h : list Body) (arb : arbiter) :
  Forall2 (fun x y => b_velocity_func y = b_velocity_func x) h
          (Euler.resolve ss h arb).
Proof.
  unfold Euler.resolve.
  repeat match goal with
         | |- Forall2 _ _ (match ?x with _ => _ end) => destruct x
         | |- Forall2 _ _ (if ?x then _ else _) => destruct x
         end; try apply same_func_refl;
    try (apply heap_set_same_func; simpl; apply nth_static_func).
  match goal with
  | |- Forall2 _ h (heap_set ?h1 _ _) => apply (same_func_trans h h1)
  end.
  - apply heap_set_same_func. simpl. apply nth_static_func.
  - apply heap_set_same_func. simpl. rewrite nth_static_func.
    symmetry. apply same_func_heap_get.
    apply heap_set_same_func. simpl. apply nth_static_func.
Qed.

Lemma solve_func (c : list arbiter) (ss : list Shape) (dt : Q) (h : list Body) :
  Forall2 (fun x y => b_velocity_func y = b_velocity_func x) h
          (Euler.solve c ss dt h).
Proof.
  unfold Euler.solve. revert h; induction c as [|arb c IH]; simpl; intros h.
  - apply same_func_refl.
  - eapply same_func_trans; [apply resolve_func | apply IH].
Qed.

Lemma laws : EngineLaws Euler.engine.
Proof.
  constructor.
  - exact position.
  - exact velocity.
  - exact impulse.
  - exact solve_local.
  - exact solve_func.
Qed.

End EulerLaws.

(** ** The class attribute [velocity_noise] *)

(** A body whose velocity function never applies noise within the
    horizon. *)
Definition noise_free (b : Body) : Prop :=
  match b_velocity_func b with
  | Some c => in_horizon (cl_noisy c) = false
  | None => True
  end.

Lemma noise_keeps_func (cls : class_state) (stp : Z) (c : closure) (b : Body)
  (r : rng) :
  b_velocity_func (fst (noise cls stp c b r)) = b_velocity_func b.
Proof.
  unfold noise. destruct (py_eq_int stp (cl_noisy c)); [|reflexivity].
  destruct (gauss 1 (velocity_noise cls) r) as [g0 r0].
  destruct (gauss 1 (velocity_noise cls) r0) as [g1 r1]. reflexivity.
Qed.

Section Laws.

Context {E : Engine}.

Hypothesis laws : EngineLaws E.

Lemma launch_keeps_func (stp : Z) (c : closure) (b b' : Body) :
  launch (E := E) stp c b = Ok b' -> b_velocity_func b' = b_velocity_func b.
Proof.
  unfold launch. destruct (py_eq_int stp (cl_delay c)).
  - intros H. bind_inv H. inversion H; subst.
    now destruct (law_impulse E laws b a) as (_ & _ & Hf & _).
  - intros H. now inversion H.
Qed.

Lemma velocity_func_keeps_func (cls : class_state) (stp : Z) (b b' : Body)
  (g : Vec2) (d dt : Q) (r r' : rng) :
  velocity_func (E := E) cls stp b g d dt r = Ok (b', r') ->
  b_velocity_func b' = b_velocity_func b.
Proof.
  destruct (law_velocity E laws b g d dt) as (_ & _ & Hf & _).
  unfold velocity_func. destruct (b_velocity_func b) as [c|] eqn:Hb.
  - unfold delayed_velocity. intros H. bind_inv H.
    apply launch_keeps_func in Ha.
    assert (Hn := noise_keeps_func cls stp c a r).
    inversion H as [Hp]. rewrite Hp in Hn. simpl in Hn. congruence.
  - intros H. inversion H; subst. congruence.
Qed.

Lemma noise_free_same_func (h h' : list Body) :
  Forall2 (fun x y => b_velocity_func y = b_velocity_func x) h h' ->
  Forall noise_free h -> Forall noise_free h'.
Proof.
  induction 1 as [|x y h h' Hxy _ IH]; intros Hh; [constructor|].
  inversion Hh; subst. constructor; auto.
  unfold noise_free in *. now rewrite Hxy.
Qed.

Lemma velocity_func_noise_free (cls1 cls2 : class_state) (stp : Z) (b : Body)
  (g : Vec2) (d dt : Q) (r : rng) :
  0 <= stp <= step_max -> noise_free b ->
  velocity_func (E := E) cls1 stp b g d dt r
  = velocity_func (E := E) cls2 stp b g d dt r.
Proof.
  intros Hs Hb. unfold velocity_func, noise_free in *.
  destruct (b_velocity_func b) as [c|]; [|reflexivity].
  unfold delayed_velocity.
  destruct (launch stp c _) as [b1|e]; simpl; [|reflexivity].
  now rewrite !noise_out_of_horizon.
Qed.

(** C9, as the code has it: [velocity_noise] is not copied when a world
    is constructed; it is read from the class each time a noise action
    fires.  A world none of whose marbles has a noise step within
    [0, step_max] returns the same from [simulate] whatever value the
    attribute has by then. *)
Theorem noise_level_read_when_noise_fires (cls1 cls2 : class_state)
  marbles extra_walls gate prb orb (w : MarbleWorld E) (r : rng) :
  init marbles extra_walls gate prb orb = Ok w ->
  Forall (fun m => forall n, dict_get (snd m) "noisy" = Some n ->
                             in_horizon n = false) marbles ->
  simulate cls1 w r = simulate cls2 w r.
Proof.
  intros Hi Hm. unfold simulate, simulate_run. f_equal.
  apply init_inv in Hi.
  destruct Hi as (hw & hm & bs & ws & ms & Hh & _ & _ & _ & _ & Hstep & _ & _ & _ & _
                  & _ & _ & Hwm & Hmm & _).
  apply (simulate_run_by_agree _ _ noise_free).
  - exact I.
  - intros b dt Hb. unfold noise_free in *.
    now destruct (law_position E laws b dt) as (_ & _ & _ & -> & _).
  - intros c ss dt h. apply noise_free_same_func, (law_solve_func E laws).
  - intros stp b g d dt r0 b' r' _ Hb Hc. unfold noise_free in *.
    now rewrite (velocity_func_keeps_func _ _ _ _ _ _ _ _ _ Hc).
  - intros. now apply velocity_func_noise_free.
  - lia.
  - rewrite Hh. apply Forall_app. split.
    + clear -Hwm. induction Hwm as [|wall b l hw' (name & p & _ & _ & ->) _ IH];
        constructor; auto. exact I.
    + clear -Hmm Hm. induction Hmm as [|m b l hm' Hb _ IH]; [constructor|].
      inversion Hm; subst. constructor; auto.
      destruct Hb as (p & v & d & n & _ & _ & _ & Hn & ->).
      unfold noise_free. simpl. auto.
Qed.

(** ** The delayed launch *)

Lemma py_eq_int_unique (d k : Z) (v : pyval) :
  py_eq_int d v = true -> k <> d -> py_eq_int k v = false.
Proof.
  destruct v as [q| |]; simpl; try discriminate.
  intros Hd Hk. apply Qeq_bool_iff in Hd.
  destruct (Qeq_bool (inject_Z k) q) eqn:He; [|reflexivity].
  apply Qeq_bool_iff in He. rewrite <- Hd in He.
  unfold Qeq in He. simpl in He. lia.
Qed.

(** A marble that has not been launched: no velocity, no spin, angle 0,
    mass 1, and [c] for the variables of its velocity function. *)
Definition at_rest (c : closure) (b : Body) : Prop :=
  vec_eq (b_velocity b) vec_zero /\ b_angle b == 0 /\
  b_angular_velocity b == 0 /\ b_mass b = 1%Q /\ b_velocity_func b = Some c.

Lemma rest_position (c : closure) (b : Body) (dt : Q) :
  at_rest c b -> at_rest c (update_position E b dt).
Proof.
  intros (Hv & Ha & Hw & Hm & Hf).
  destruct (law_position E laws b dt) as (Hv' & Hw' & Hm' & Hf' & Ha').
  unfold at_rest. rewrite Hv', Hw', Hm', Hf', (Ha' Hw). auto.
Qed.

Lemma rest_velocity (c : closure) (b : Body) (dt : Q) :
  at_rest c b -> at_rest c (update_velocity E b vec_zero 1 dt).
Proof.
  intros (Hv & Ha & Hw & Hm & Hf).
  destruct (law_velocity E laws b vec_zero 1 dt) as (Ha' & Hm' & Hf' & H).
  destruct (H eq_refl eq_refl) as [[Hx Hy] Hw'].
  unfold at_rest. rewrite Ha', Hm', Hf', Hw'.
  repeat split; auto.
  - rewrite Hx. apply Hv.
  - rewrite Hy. apply Hv.
Qed.

Lemma rest_noise (cls : class_state) (stp : Z) (c' c : closure) (b : Body) (r : rng) :
  at_rest c b -> at_rest c (fst (noise cls stp c' b r)).
Proof.
  intros H. unfold noise. destruct (py_eq_int stp (cl_noisy c')); [|exact H].
  destruct (gauss 1 (velocity_noise cls) r) as [g0 r0].
  destruct (gauss 1 (velocity_noise cls) r0) as [g1 r1].
  destruct H as ([Hx Hy] & Ha & Hw & Hm & Hf).
  unfold at_rest, vec_eq. cbn. repeat split; auto.
  - rewrite Hx. cbn. ring.
  - rewrite Hy. cbn. ring.
Qed.

(** Away from its launch step the velocity function leaves a marble at
    rest. *)
Lemma rest_call (cls : class_state) (stp : Z) (c : closure) (b b' : Body)
  (dt : Q) (r r' : rng) :
  at_rest c b -> py_eq_int stp (cl_delay c) = false ->
  velocity_func (E := E) cls stp b vec_zero 1 dt r = Ok (b', r') ->
  at_rest c b'.
Proof.
  intros Hb Hd. unfold velocity_func.
  pose proof Hb as (_ & _ & _ & _ & Hf). rewrite Hf.
  unfold delayed_velocity, launch. rewrite Hd. cbn [bind].
  intros H. inversion H as [Hn].
  change b' with (fst (b', r')). rewrite <- Hn.
  apply rest_noise, rest_velocity, Hb.
Qed.

(** At its launch step the velocity function gives the marble the
    velocity [velocity * speed]. *)
Lemma launch_call (cls : class_state) (d : Z) (c : closure) (v : Vec2)
  (b b' : Body) (dt : Q) (r r' : rng) :
  at_rest c b -> py_eq_int d (cl_delay c) = true -> cl_velocity c = vpair v ->
  py_eq_int d (cl_noisy c) = false ->
  velocity_func (E := E) cls d b vec_zero 1 dt r = Ok (b', r') ->
  vec_eq (b_velocity b') (vec_scale v speed).
Proof.
  intros Hb Hd Hv Hn. unfold velocity_func.
  pose proof (rest_velocity c b dt Hb) as ([Hx Hy] & Ha & Hw & Hm & Hf).
  destruct Hb as (_ & _ & _ & _ & Hfb). rewrite Hfb.
  unfold delayed_velocity, launch, noise, impulse_of. rewrite Hd, Hn, Hv.
  destruct v as [vx vy]. cbn [vpair as_vec2 bind fst snd].
  intros H. inversion H; subst b' r'; clear H.
  destruct (law_impulse E laws (update_velocity E b vec_zero 1 dt)
                        (vec_scale (vx, vy) speed)) as (_ & _ & _ & _ & Hi).
  destruct (Hi Ha) as [Hix Hiy]. split.
  - rewrite Hix. cbn. rewrite Hx, Hm. cbn. field.
  - rewrite Hiy. cbn. rewrite Hy, Hm. cbn. field.
Qed.


(** The body at one address through the phases of a step. *)
Lemma integrate_positions_at (Inv : Body -> Prop) (a : nat) (dt : Q) :
  (forall b, Inv b -> Inv (update_position E b dt)) ->
  forall bs h b, nth_error h a = Some b -> Inv b ->
  exists b', nth_error (integrate_positions (E := E) dt bs h) a = Some b' /\ Inv b'.
Proof.
  intros HI. unfold integrate_positions.
  induction bs as [|a' bs IH]; simpl; intros h b Hb Ib; [eauto|].
  eapply IH.
  - rewrite nth_error_heap_set, Hb. reflexivity.
  - destruct (Nat.eqb_spec a a') as [<-|_]; [|exact Ib].
    rewrite (heap_get_nth_error _ _ _ Hb). auto.
Qed.

Lemma integrate_velocities_at
  (call : Z -> Body -> Vec2 -> Q -> Q -> rng -> result (Body * rng))
  (Inv : Body -> Prop) (a : nat) (stp : Z) (g : Vec2) (d dt : Q) :
  (forall b r b' r', Inv b -> call stp b g d dt r = Ok (b', r') -> Inv b') ->
  forall bs h r h' r' b, nth_error h a = Some b -> Inv b ->
  integrate_velocities call stp g d dt bs (h, r) = Ok (h', r') ->
  exists b', nth_error h' a = Some b' /\ Inv b'.
Proof.
  intros HI. unfold integrate_velocities.
  induction bs as [|a' bs IH]; simpl; intros h r h' r' b Hb Ib H.
  - inversion H; subst. eauto.
  - apply bind_Ok in H. destruct H as ([h1 r1] & H1 & H).
    apply bind_Ok in H1. destruct H1 as ([b1 r2] & Hc & H1).
    inversion H1; subst h1 r1; clear H1.
    eapply IH; [| |exact H].
    + rewrite nth_error_heap_set, Hb. reflexivity.
    + destruct (Nat.eqb_spec a a') as [<-|_]; [|exact Ib].
      rewrite (heap_get_nth_error _ _ _ Hb) in Hc. eauto.
Qed.

Lemma integrate_velocities_skip
  (call : Z -> Body -> Vec2 -> Q -> Q -> rng -> result (Body * rng))
  (a : nat) (stp : Z) (g : Vec2) (d dt : Q) :
  forall bs h r h' r', ~ In a bs ->
  integrate_velocities call stp g d dt bs (h, r) = Ok (h', r') ->
  nth_error h' a = nth_error h a.
Proof.
  unfold integrate_velocities.
  induction bs as [|a' bs IH]; simpl; intros h r h' r' Hn H.
  - now inversion H.
  - apply bind_Ok in H. destruct H as ([h1 r1] & H1 & H).
    apply bind_Ok in H1. destruct H1 as ([b1 r2] & Hc & H1).
    inversion H1; subst h1 r1; clear H1.
    rewrite (IH _ _ _ _ (fun Hin => Hn (or_intror Hin)) H).
    rewrite nth_error_heap_set. destruct (nth_error h a); [|reflexivity].
    destruct (Nat.eqb_spec a a'); [|reflexivity].
    exfalso. apply Hn. now left.
Qed.

Lemma integrate_velocities_once
  (call : Z -> Body -> Vec2 -> Q -> Q -> rng -> result (Body * rng))
  (a : nat) (stp : Z) (g : Vec2) (d dt : Q) :
  forall bs h r h' r' b, NoDup bs -> In a bs -> nth_error h a = Some b ->
  integrate_velocities call stp g d dt bs (h, r) = Ok (h', r') ->
  exists r1 r2 b', call stp b g d dt r1 = Ok (b', r2) /\ nth_error h' a = Some b'.
Proof.
  induction bs as [|a' bs IH]; intros h r h' r' b Hnd Hin Hb H; [contradiction|].
  inversion Hnd as [|? ? Hnot Hnd']; subst.
  pose proof H as H0. unfold integrate_velocities in H. simpl in H.
  apply bind_Ok in H. destruct H as ([h1 r1] & H1 & H).
  apply bind_Ok in H1. destruct H1 as ([b1 r2] & Hc & H1).
  inversion H1; subst h1 r1; clear H1.
  destruct (Nat.eq_dec a' a) as [->|Hne].
  - rewrite (heap_get_nth_error _ _ _ Hb) in Hc.
    exists r, r2, b1. split; [exact Hc|].
    rewrite (integrate_velocities_skip call a stp g d dt bs _ _ _ _ Hnot H).
    now rewrite nth_error_heap_set, Hb, Nat.eqb_refl.
  - destruct Hin as [Heq | Hin]; [contradiction|].
    eapply IH; [exact Hnd' | exact Hin | | exact H].
    rewrite nth_error_heap_set, Hb.
    destruct (Nat.eqb_spec a a'); [congruence | reflexivity].
Qed.

(** What a turn of the loop does to the space: positions, contacts,
    velocity functions, solver. *)
Lemma loop_body_heap
  (call : Z -> Body -> Vec2 -> Q -> Q -> rng -> result (Body * rng))
  (st st' : sim_state) :
  loop_body call st = Ok st' ->
  exists c h2 r',
    integrate_velocities call (step (st_world st))
      (sp_gravity (space (st_world st))) (sp_damping (space (st_world st)))
      step_size (sp_bodies (space (st_world st)))
      (integrate_positions (E := E) step_size (sp_bodies (space (st_world st)))
                           (sp_heap (space (st_world st))),
       st_rng st) = Ok (h2, r') /\
    sp_heap (space (st_world st'))
    = solve E c (sp_shapes (space (st_world st))) step_size h2 /\
    sp_cache (space (st_world st')) = c /\
    sp_shapes (space (st_world st')) = sp_shapes (space (st_world st)).
Proof.
  unfold loop_body. intros H. bind_inv H. bind_inv H.
  apply record_dists_shape in Ha0. destruct Ha0 as (d & ->).
  apply bind_Ok in H. destruct H as ([w r] & Hs & H). inversion H; subst; clear H.
  unfold space_step in Hs.
  destruct (collide E _ _ _) as [begun c].
  match type of Hs with context [fold_left begin_contact begun ?x] =>
    destruct (begin_contacts_logged begun x) as (cs & ws & Hw & _) end.
  rewrite Hw in Hs. clear Hw.
  cbn [space step set_events set_space set_cache set_heap set_outcome_dists
       sp_heap sp_bodies sp_shapes sp_gravity sp_damping sp_cache] in Hs.
  apply bind_Ok in Hs. destruct Hs as ([h2 r2] & Hv & Hs).
  inversion Hs; subst; clear Hs.
  exists c, h2, r. cbn. auto.
Qed.


(** No active contact of the world involves the body at address [a]. *)
Definition contact_free_world (w : MarbleWorld E) (a : nat) : bool :=
  contact_free (sp_shapes (space w)) (arbiters E (sp_cache (space w))) a.

(** The first [n] turns from [st] leave the body at address [a] out of
    every contact (turns after an exception do not count). *)
Fixpoint quiet (call : Z -> Body -> Vec2 -> Q -> Q -> rng -> result (Body * rng))
  (n : nat) (st : @sim_state E) (a : nat) : bool :=
  match n with
  | O => true
  | S n' =>
      match loop_body call st with
      | Ok st' => contact_free_world (st_world st') a && quiet call n' st' a
      | Raise _ => true
      end
  end.

Lemma quiet_prefix call (n : nat) :
  forall m st a, (m <= n)%nat -> quiet call n st a = true -> quiet call m st a = true.
Proof.
  induction n as [|n IH]; intros m st a Hm H.
  - now replace m with O by lia.
  - destruct m as [|m]; [reflexivity|]. simpl in *.
    destruct (loop_body call st) as [st'|e]; [|reflexivity].
    apply andb_prop in H. destruct H as [H1 H2].
    rewrite H1. simpl. apply (IH m); [lia | exact H2].
Qed.

Lemma quiet_last call (n : nat) :
  forall st st_n st' a,
  quiet call (S n) st a = true -> turns call n st = Ok st_n ->
  loop_body call st_n = Ok st' -> contact_free_world (st_world st') a = true.
Proof.
  induction n as [|n IH]; intros st st_n st' a Hq Ht Hb.
  - simpl in Ht. inversion Ht; subst st_n. simpl in Hq. rewrite Hb in Hq.
    now apply andb_prop in Hq.
  - simpl in Ht. apply bind_Ok in Ht. destruct Ht as (st1 & H1 & Ht).
    change (quiet call (S (S n)) st a)
      with (match loop_body call st with
            | Ok st' => contact_free_world (st_world st') a && quiet call (S n) st' a
            | Raise _ => true
            end) in Hq.
    rewrite H1 in Hq. apply andb_prop in Hq. destruct Hq as [_ Hq].
    exact (IH _ _ _ _ Hq Ht Hb).
Qed.

Lemma turns_snoc call (n : nat) :
  forall st st' : @sim_state E, turns call (S n) st = Ok st' ->
  exists st_n, turns call n st = Ok st_n /\ loop_body call st_n = Ok st'.
Proof.
  induction n as [|n IH]; intros st st' H.
  - simpl in H. apply bind_Ok in H. destruct H as (st1 & H1 & H).
    inversion H; subst. exists st. auto.
  - change (turns call (S (S n)) st)
      with (st1 <- loop_body call st ;; turns call (S n) st1) in H.
    apply bind_Ok in H. destruct H as (st1 & H1 & H).
    destruct (IH _ _ H) as (st_n & Hn & Hb).
    exists st_n. split; [|exact Hb]. simpl. rewrite H1. exact Hn.
Qed.

(** A turn away from the launch step leaves a marble at rest, when no
    contact involves it. *)
Lemma turn_rest (cls : class_state) (c : closure) (a : nat) (st st' : @sim_state E) :
  loop_body (velocity_func (E := E) cls) st = Ok st' ->
  sp_gravity (space (st_world st)) = vec_zero ->
  sp_damping (space (st_world st)) = 1%Q ->
  (exists b, nth_error (sp_heap (space (st_world st))) a = Some b /\ at_rest c b) ->
  py_eq_int (step (st_world st)) (cl_delay c) = false ->
  contact_free_world (st_world st') a = true ->
  exists b, nth_error (sp_heap (space (st_world st'))) a = Some b /\ at_rest c b.
Proof.
  intros Hl Hg Hd (b & Hb & Hr) Hs Hc.
  apply loop_body_heap in Hl. destruct Hl as (c0 & h2 & r' & Hv & Hh & Hc0 & Hss).
  rewrite Hg, Hd in Hv.
  destruct (integrate_positions_at (at_rest c) a step_size
              (fun b0 => rest_position c b0 step_size)
              (sp_bodies (space (st_world st))) _ _ Hb Hr) as (b1 & Hb1 & Hr1).
  destruct (integrate_velocities_at (velocity_func (E := E) cls) (at_rest c) a _ _ _ _
              (fun b0 r0 b0' r0' Hb0 => rest_call cls _ c b0 b0' _ r0 r0' Hb0 Hs)
              _ _ _ _ _ _ Hb1 Hr1 Hv) as (b2 & Hb2 & Hr2).
  exists b2. split; [|exact Hr2].
  rewrite Hh, (law_solve_local E laws); [exact Hb2|].
  unfold contact_free_world in Hc. now rewrite Hc0, Hss in Hc.
Qed.

(** The turn of the launch step gives the marble the velocity
    [velocity * speed], when no contact involves it and its noise step is
    another. *)
Lemma turn_launch (cls : class_state) (c : closure) (v : Vec2) (a : nat)
  (st st' : @sim_state E) :
  loop_body (velocity_func (E := E) cls) st = Ok st' ->
  sp_gravity (space (st_world st)) = vec_zero ->
  sp_damping (space (st_world st)) = 1%Q ->
  NoDup (sp_bodies (space (st_world st))) ->
  In a (sp_bodies (space (st_world st))) ->
  (exists b, nth_error (sp_heap (space (st_world st))) a = Some b /\ at_rest c b) ->
  py_eq_int (step (st_world st)) (cl_delay c) = true ->
  cl_velocity c = vpair v ->
  py_eq_int (step (st_world st)) (cl_noisy c) = false ->
  contact_free_world (st_world st') a = true ->
  exists b, nth_error (sp_heap (space (st_world st'))) a = Some b /\
            vec_eq (b_velocity b) (vec_scale v speed).
Proof.
  intros Hl Hg Hd Hnd Hin (b & Hb & Hr) Hs Hvel Hn Hc.
  apply loop_body_heap in Hl. destruct Hl as (c0 & h2 & r' & Hv & Hh & Hc0 & Hss).
  rewrite Hg, Hd in Hv.
  destruct (integrate_positions_at (at_rest c) a step_size
              (fun b0 => rest_position c b0 step_size)
              (sp_bodies (space (st_world st))) _ _ Hb Hr) as (b1 & Hb1 & Hr1).
  destruct (integrate_velocities_once (velocity_func (E := E) cls) a _ _ _ _
              _ _ _ _ _ _ Hnd Hin Hb1 Hv) as (r1 & r2 & b2 & Hcall & Hb2).
  exists b2. split.
  - rewrite Hh, (law_solve_local E laws); [exact Hb2|].
    unfold contact_free_world in Hc. now rewrite Hc0, Hss in Hc.
  - eapply launch_call; eauto.
Qed.


(** What the turns of the loop never change. *)
Lemma turns_statics call (n : nat) (st st' : @sim_state E) :
  turns call n st = Ok st' ->
  sp_gravity (space (st_world st')) = sp_gravity (space (st_world st)) /\
  sp_damping (space (st_world st')) = sp_damping (space (st_world st)) /\
  sp_bodies (space (st_world st')) = sp_bodies (space (st_world st)) /\
  bodies (st_world st') = bodies (st_world st).
Proof.
  apply (turns_invariant call
           (fun s => sp_gravity (space (st_world s)) = sp_gravity (space (st_world st)) /\
                     sp_damping (space (st_world s)) = sp_damping (space (st_world st)) /\
                     sp_bodies (space (st_world s)) = sp_bodies (space (st_world st)) /\
                     bodies (st_world s) = bodies (st_world st))); [|auto].
  intros s s' Hs Hb. apply loop_body_shape in Hb.
  destruct Hb as (h & c & cs & ws & d & -> & _). exact Hs.
Qed.

(** Up to its launch step a marble that no contact involves stays at
    rest. *)
Lemma rest_until (cls : class_state) (c : closure) (a : nat) (d : Z) :
  py_eq_int d (cl_delay c) = true ->
  forall (k : nat) (st st_k : @sim_state E),
  sp_gravity (space (st_world st)) = vec_zero ->
  sp_damping (space (st_world st)) = 1%Q ->
  (exists b, nth_error (sp_heap (space (st_world st))) a = Some b /\ at_rest c b) ->
  step (st_world st) + Z.of_nat k <= d ->
  quiet (velocity_func (E := E) cls) k st a = true ->
  turns (velocity_func (E := E) cls) k st = Ok st_k ->
  exists b, nth_error (sp_heap (space (st_world st_k))) a = Some b /\ at_rest c b.
Proof.
  intros Hd. induction k as [|k IH]; intros st st_k Hg Hp Hb Hs Hq Ht.
  - simpl in Ht. inversion Ht; subst. exact Hb.
  - simpl in Ht, Hq. apply bind_Ok in Ht. destruct Ht as (st1 & H1 & Ht).
    rewrite H1 in Hq. apply andb_prop in Hq. destruct Hq as [Hc Hq].
    assert (Hne : step (st_world st) <> d) by lia.
    assert (Hb1 := turn_rest cls c a st st1 H1 Hg Hp Hb
                     (py_eq_int_unique d _ _ Hd Hne) Hc).
    pose proof (loop_body_shape _ _ _ H1) as (h & c0 & cs & ws & dd & Hw & _).
    apply (IH st1 st_k); auto; rewrite Hw; cbn; auto. lia.
Qed.

(** The state in which [simulate] enters its loop. *)
Definition entering (w : MarbleWorld E) (r : rng) : sim_state :=
  mk_state (fst (simulate_setup w)) r (snd (simulate_setup w)).

(** The address the registry has for a name. *)
Definition address_of (w : MarbleWorld E) (name : string) : nat :=
  match dict_get (bodies w) name with
  | Some a => a
  | None => O
  end.


Lemma Forall2_nth_error_l {A B : Type} (R : A -> B -> Prop) (l : list A)
  (l' : list B) :
  Forall2 R l l' ->
  forall i x, nth_error l i = Some x -> exists y, nth_error l' i = Some y /\ R x y.
Proof.
  induction 1 as [|x y l l' HR _ IH]; intros [|i] z Hz; simpl in *;
    try discriminate.
  - inversion Hz; subst. eauto.
  - eauto.
Qed.

(** C2: a marble of the configuration with launch velocity [v] and
    launch step [d] (its initial velocity is zero by construction), in a
    world that [__init__] made and that [simulate] steps from the start,
    with no contact on the marble in the turns 0 to [d].  At every turn [k <= d] the loop reaches, the velocity it
    samples for the marble is zero.  Among the steps 0 to [step_max] the
    launch applies its impulse, [v * speed], at step [d] and at no other
    step.  When the noise step is not [d], the velocity sampled after
    turn [d] is [v * speed] (the mass is 1). *)
Theorem delayed_launch (cls : class_state) marbles extra_walls gate prb orb
  (w : MarbleWorld E) (r : rng) (name : string) (m : pydict) (v : Vec2)
  (q : Q) (noisy : pyval) (d : nat) :
  init marbles extra_walls gate prb orb = Ok w ->
  NoDup (map fst marbles) ->
  In (name, m) marbles ->
  dict_get m "velocity" = Some (vpair v) ->
  dict_get m "delay" = Some (VNum q) ->
  dict_get m "noisy" = Some noisy ->
  q == inject_Z (Z.of_nat d) ->
  quiet (velocity_func (E := E) cls) (S d) (entering w r) (address_of w name) = true ->
  (forall k st_k,
     (k <= d)%nat ->
     turns (velocity_func (E := E) cls) k (entering w r) = Ok st_k ->
     exists b, body_of (st_world st_k) name = Ok b /\
               vec_eq (b_velocity b) vec_zero) /\
  (forall k b,
     0 <= k <= step_max ->
     launch (E := E) k (mk_closure (vpair v) (VNum q) noisy) b
     = if Z.eqb k (Z.of_nat d)
       then Ok (apply_impulse_at_local_point E b (vec_scale v speed))
       else Ok b) /\
  (forall st',
     py_eq_int (Z.of_nat d) noisy = false ->
     turns (velocity_func (E := E) cls) (S d) (entering w r) = Ok st' ->
     exists b, body_of (st_world st') name = Ok b /\
               vec_eq (b_velocity b) (vec_scale v speed)).
Proof.
  intros Hi Hnd Hin Hv Hd Hn Hq Hquiet.
  set (c := mk_closure (vpair v) (VNum q) noisy).
  assert (Hfire : py_eq_int (Z.of_nat d) (cl_delay c) = true).
  { simpl. apply Qeq_bool_iff. now symmetry. }
  apply In_nth_error in Hin. destruct Hin as (i & Hi_m).
  apply init_inv in Hi.
  destruct Hi as (hw & hm & bs & ws & ms & Hh & Hbs & _ & _ & _ & Hstep & _ & _ & _ & _
                  & Hg & Hp & _ & Hmm & Hseq & Hreg).
  specialize (Hreg Hnd i (name, m) Hi_m). simpl in Hreg.
  destruct (Forall2_nth_error_l _ _ _ Hmm i _ Hi_m) as (b0 & Hb0 & Hmade).
  destruct Hmade as (p & v' & d' & n' & _ & Hv' & Hd' & Hn' & ->).
  simpl in Hv', Hd', Hn'.
  assert (v' = vpair v) by congruence.
  assert (d' = VNum q) by congruence.
  assert (n' = noisy) by congruence. subst v' d' n'. fold c in Hb0.
  set (a := (List.length hw + i)%nat) in *.
  assert (Haddr : address_of w name = a) by (unfold address_of; now rewrite Hreg).
  rewrite Haddr in Hquiet.
  assert (Hrest0 : exists b, nth_error (sp_heap (space (st_world (entering w r)))) a
                             = Some b /\ at_rest c b).
  { exists (marble_body p name c). cbn. rewrite Hh. split.
    - unfold a. rewrite nth_error_app2 by lia.
      now replace (List.length hw + i - List.length hw)%nat with i by lia.
    - repeat split; reflexivity. }
  assert (Hbody : forall k (st_k : @sim_state E) b,
             turns (velocity_func (E := E) cls) k (entering w r) = Ok st_k ->
             nth_error (sp_heap (space (st_world st_k))) a = Some b ->
             body_of (st_world st_k) name = Ok b).
  { intros k st_k b Ht Hb. apply turns_statics in Ht.
    destruct Ht as (_ & _ & _ & Hbd). cbn in Hbd.
    unfold body_of, getitem. rewrite Hbd, Hreg. cbn.
    now rewrite (heap_get_nth_error _ _ _ Hb). }
  assert (Hrest : forall k (st_k : @sim_state E),
             (k <= d)%nat ->
             turns (velocity_func (E := E) cls) k (entering w r) = Ok st_k ->
             exists b, nth_error (sp_heap (space (st_world st_k))) a = Some b /\
                       at_rest c b).
  { intros k st_k Hk Ht.
    apply (rest_until cls c a (Z.of_nat d) Hfire k (entering w r) st_k); auto.
    - cbn. rewrite Hstep. lia.
    - apply (quiet_prefix _ (S d)); [lia | exact Hquiet]. }
  split; [|split].
  - intros k st_k Hk Ht. destruct (Hrest k st_k Hk Ht) as (b & Hb & Hr).
    exists b. split; [eapply Hbody; eauto | apply Hr].
  - intros k b Hk. unfold launch. fold c.
    destruct (Z.eqb_spec k (Z.of_nat d)) as [->|Hne].
    + rewrite Hfire. unfold impulse_of. simpl.
      destruct v; reflexivity.
    + now rewrite (py_eq_int_unique _ _ _ Hfire Hne).
  - intros st' Hnz Ht. pose proof Ht as Ht'.
    apply turns_snoc in Ht. destruct Ht as (st_d & Htd & Hl).
    pose proof (Hrest d st_d (le_n d) Htd) as Hr.
    pose proof (turns_statics _ _ _ _ Htd) as (Hg' & Hp' & Hb' & _).
    pose proof (turns_step _ _ _ _ Htd) as Hsd.
    cbn in Hg', Hp', Hb', Hsd. rewrite Hstep in Hsd. simpl in Hsd.
    assert (Hc := quiet_last _ _ _ _ _ _ Hquiet Htd Hl).
    destruct (turn_launch cls c v a st_d st' Hl) as (b & Hb & Hvb); auto;
      try congruence.
    + rewrite Hb', Hbs, Hseq. apply seq_NoDup.
    + rewrite Hb', Hbs, Hseq. apply in_seq. unfold a.
      assert (i < List.length marbles)%nat
        by (apply nth_error_Some; congruence).
      lia.
    + rewrite Hsd. exact Hnz.
    + exists b. split; [eapply Hbody; eauto | exact Hvb].
Qed.


End Laws.

(** * Worked runs *)

Definition is_Ok {A : Type} (r : result A) : bool :=
  match r with
  | Ok _ => true
  | Raise _ => false
  end.

Definition has_returned {A : Type} (o : option (result A)) : bool :=
  match o with
  | Some (Ok _) => true
  | _ => false
  end.

(** The world of a construction that went through. *)
Definition built {E : Engine} (r : result (MarbleWorld E)) : MarbleWorld E :=
  match r with
  | Ok w => w
  | Raise _ => mk_world 0 (new_space E) (mk_events [] [] [] []) [] [] [] [] []
  end.

(** The state of a run that returned. *)
Definition ran {E : Engine} (o : option (result (@sim_state E)))
  (w : MarbleWorld E) : @sim_state E :=
  match o with
  | Some (Ok st) => st
  | _ => mk_state w [] []
  end.

(** The state some turns reached. *)
Definition reached {E : Engine} (r : result (@sim_state E)) (w : MarbleWorld E)
  : @sim_state E :=
  match r with
  | Ok st => st
  | Raise _ => mk_state w [] []
  end.

Lemma built_Ok {E : Engine} (r : result (MarbleWorld E)) :
  is_Ok r = true -> r = Ok (built r).
Proof. destruct r; [reflexivity | discriminate]. Qed.

Lemma ran_Ok {E : Engine} (o : option (result (@sim_state E))) (w : MarbleWorld E) :
  has_returned o = true -> o = Some (Ok (ran o w)).
Proof. destruct o as [[st|e]|]; try discriminate. reflexivity. Qed.

Lemma reached_Ok {E : Engine} (r : result (@sim_state E)) (w : MarbleWorld E) :
  is_Ok r = true -> r = Ok (reached r w).
Proof. destruct r; [reflexivity | discriminate]. Qed.

(** An engine that does nothing but count the calls of [Space.step]. *)
Module Counting.

Definition engine : Engine :=
  mk_engine nat O (fun _ => [])
            (fun b _ => b) (fun b _ _ _ => b) (fun b _ => b)
            (fun _ _ c => ([], S c)) (fun _ _ _ h => h).

Definition integration_steps (o : option (result (@sim_state engine)))
  : option nat :=
  match o with
  | Some (Ok st) => Some (sp_cache (space (st_world st)))
  | _ => None
  end.

Notation world := (built (init (E := engine) [] [] false [] [])).

End Counting.

Module Demo.

Definition E := Euler.engine.

(** One marble in front of the exit, launched to the left at step 2. *)
Definition one : dict pydict := [("E", marble (400, 300)%Q (-1, 0)%Q 2 (-1))].

Notation world_one := (built (init (E := E) one [] false [] ["E"])).

(** Two marbles that meet, between a wall on the right and the exit. *)
Definition two : dict pydict :=
  [("A", marble (600, 300)%Q (-1, 0)%Q 0 (-1));
   ("B", marble (300, 330)%Q (1, 0)%Q 0 (-1))].

Definition right_wall : pydict :=
  [("name", VStr "right_wall"); ("position", vpair (790, 300)%Q);
   ("length", VNum 20); ("height", VNum 600)].

Notation world_two := (built (init (E := E) two [right_wall] false [] ["A"; "B"])).

(** One marble whose velocity is made noisy at step 1. *)
Definition noisy_one : dict pydict :=
  [("E", marble (400, 300)%Q (-1, 0)%Q 0 1)].

Notation world_noisy := (built (init (E := E) noisy_one [] false [] ["E"])).



End Demo.


(** The state [simulate] leaves of a world, with no random draws. *)
Local Notation final w :=
  (ran (simulate_run_by (velocity_func (E := Demo.E) class_body) w []) w).

(** The state after the first [k] turns of a run. *)
Definition after {E : Engine} (cls : class_state) (k : nat) (w : MarbleWorld E)
  (r : rng) : @sim_state E :=
  reached (turns (velocity_func (E := E) cls) k (entering w r)) w.

(** The marble in front of the exit rolls out: its outcome is [True] and
    its final position is left of [-marble_size/2]. *)
Lemma outcome_of_one_marble :
  exists b passed,
    body_of (st_world (final Demo.world_one)) "E" = Ok b /\
    dict_get (outcome (events (st_world (final Demo.world_one)))) "E" = Some passed /\
    (passed = true <-> (fst (b_position b) <= - marble_size / 2)%Q) /\
    (passed = false <-> ~ (fst (b_position b) <= - marble_size / 2)%Q).
Proof.
  apply (outcome_iff_past_left_boundary
           (velocity_func (E := Demo.E) class_body) Demo.world_one []
           (final Demo.world_one) "E").
  - apply ran_Ok. vm_compute. reflexivity.
  - vm_compute. left. reflexivity.
Defined.

(** The marble launched at step 2 is sampled with no velocity at step 2
    and with [(-200, 0)] at step 3. *)
Lemma launch_of_one_marble :
  (exists b, body_of (st_world (after class_body 2 Demo.world_one [])) "E" = Ok b /\
             vec_eq (b_velocity b) vec_zero) /\
  (exists b, body_of (st_world (after class_body 3 Demo.world_one [])) "E" = Ok b /\
             vec_eq (b_velocity b) (vec_scale (-1, 0)%Q speed)).
Proof.
  destruct (@delayed_launch Demo.E EulerLaws.laws class_body Demo.one [] false
              [] ["E"] Demo.world_one [] "E"
              (marble (400, 300)%Q (-1, 0)%Q 2 (-1)) (-1, 0)%Q (inject_Z 2)
              (VNum (inject_Z (-1))) 2%nat) as (Ha & _ & Hc).
  - apply built_Ok. vm_compute. reflexivity.
  - repeat constructor. simpl. tauto.
  - left. reflexivity.
  - reflexivity.
  - reflexivity.
  - reflexivity.
  - reflexivity.
  - vm_compute. reflexivity.
  - split.
    + apply (Ha 2%nat); [lia | apply reached_Ok; vm_compute; reflexivity].
    + apply Hc; [reflexivity | apply reached_Ok; vm_compute; reflexivity].
Defined.

(** The loop of the run of one marble makes 751 turns. *)
Lemma turns_of_one_marble :
  step_max = 750 /\
  turns_left 0 = 751%nat /\
  while_loop (velocity_func (E := Demo.E) class_body) (turns_left 0)
             (entering Demo.world_one [])
  = Some (turns (velocity_func (E := Demo.E) class_body) 751
                (entering Demo.world_one [])) /\
  (forall st',
     turns (velocity_func (E := Demo.E) class_body) 751 (entering Demo.world_one [])
     = Ok st' ->
     step (st_world st') = 751) /\
  (forall e,
     while_loop (velocity_func (E := Demo.E) class_body) (turns_left 0)
                (entering Demo.world_one [])
     = Some (Raise e) ->
     exists k st', (k < 751)%nat /\
       turns (velocity_func (E := Demo.E) class_body) k (entering Demo.world_one [])
       = Ok st' /\
       loop_body (velocity_func (E := Demo.E) class_body) st' = Raise e).
Proof.
  apply (loop_runs_every_step (velocity_func (E := Demo.E) class_body)
                              (entering Demo.world_one [])).
  vm_compute. reflexivity.
Defined.

(** An integration is counted 751 times in a run, not 750 times. *)
Lemma steps_are_not_750 :
  Counting.integration_steps (simulate_run class_body Counting.world [])
  = Some 751%nat /\
  Counting.integration_steps (simulate_run class_body Counting.world [])
  <> Some 750%nat.
Proof.
  split; [vm_compute; reflexivity|].
  vm_compute. intros H. discriminate H.
Qed.

(** The running minimum of the marble starts at 640000. *)
Lemma start_of_one_marble :
  dict_get (outcome_dists (events (fst (simulate_setup Demo.world_one)))) "E"
  = Some (full_length ^ 2)%Q /\
  (full_length ^ 2 == 640000)%Q.
Proof.
  apply (running_minimum_starts_at_squared_length Demo.world_one "E").
  vm_compute. left. reflexivity.
Defined.

(** The start of the running minimum is not the squared diagonal of the
    arena, and the lower right corner of the arena is farther from the
    exit than it. *)
Lemma start_is_not_the_diagonal :
  dict_get (outcome_dists (events (fst (simulate_setup Demo.world_one)))) "E"
  = Some (full_length ^ 2)%Q /\
  ~ (full_length ^ 2 == arena_diagonal_sq)%Q /\
  (full_length ^ 2 < exit_dist (full_length, 0))%Q.
Proof.
  split; [vm_compute; reflexivity | split].
  - vm_compute. intros H. discriminate H.
  - vm_compute. reflexivity.
Qed.



(** The events of the run of two marbles are in order. *)
Lemma events_of_two_marbles :
  nondecreasing (collisions (events (st_world (final Demo.world_two)))) /\
  nondecreasing (wall_bounces (events (st_world (final Demo.world_two)))).
Proof.
  apply (events_nondecreasing (velocity_func (E := Demo.E) class_body) Demo.two
           [Demo.right_wall] false [] ["A"; "B"] Demo.world_two []
           (final Demo.world_two)).
  - apply built_Ok. vm_compute. reflexivity.
  - apply ran_Ok. vm_compute. reflexivity.
Defined.

(** The noise step -1 of the marble is as good as absent. *)
Lemma sentinel_of_one_marble :
  simulate class_body Demo.world_one []
  = returned (simulate_run_by (velocity_func_pruned (E := Demo.E) class_body)
                              Demo.world_one []).
Proof.
  refine (proj2 (proj2 (out_of_horizon_never_fires class_body Demo.one [] false
                          [] ["E"] Demo.world_one [] _))).
  apply built_Ok. vm_compute. reflexivity.
Defined.


(** Without a noise step in the horizon the value of [velocity_noise]
    makes no difference. *)
Lemma noise_level_of_one_marble :
  simulate class_body Demo.world_one [1; 1]%Q
  = simulate (mk_class_state (1 # 2)) Demo.world_one [1; 1]%Q.
Proof.
  apply (@noise_level_read_when_noise_fires Demo.E EulerLaws.laws class_body
           (mk_class_state (1 # 2)) Demo.one [] false [] ["E"]).
  - apply built_Ok. vm_compute. reflexivity.
  - constructor; [|constructor].
    intros n H. vm_compute in H. inversion H. reflexivity.
Defined.

(** With a noise step in the horizon it does: the same world, the same
    random draws, another [velocity_noise], another closest approach. *)
Lemma noise_level_changes_outputs :
  init Demo.noisy_one [] false [] ["E"] = Ok Demo.world_noisy /\
  simulate class_body Demo.world_noisy [1; 1]%Q
  <> simulate (mk_class_state (1 # 2)) Demo.world_noisy [1; 1]%Q.
Proof.
  split; [apply built_Ok; vm_compute; reflexivity|].
  set (closest := fun o : option (result (Events * Paths)) =>
                    match o with
                    | Some (Ok (ev, _)) => outcome_dists ev
                    | _ => []
                    end).
  assert (Hne : closest (simulate class_body Demo.world_noisy [1; 1]%Q)
                <> closest (simulate (mk_class_state (1 # 2)) Demo.world_noisy
                                     [1; 1]%Q)).
  { vm_compute. intros H. discriminate H. }
  intros H. apply Hne. apply f_equal. exact H.
Qed.

(** * Further properties of [simulate] *)

Lemma Qltb_min (d cur : Q) :
  let m := if Qltb d cur then d else cur in
  (m <= d)%Q /\ (m <= cur)%Q /\ (m = d \/ m = cur).
Proof.
  unfold Qltb. destruct (Qle_bool cur d) eqn:Hc; simpl.
  - apply Qle_bool_iff in Hc. repeat split; auto. apply Qle_refl.
  - assert (Hlt : (d < cur)%Q).
    { apply Qnot_le_lt. intros H. apply Qle_bool_iff in H. congruence. }
    repeat split; auto; [apply Qle_refl | now apply Qlt_le_weak].
Qed.

Section RunningMinimum.

Context {E : Engine}.

(** The running minimum recorded for a name. *)
Definition dist_of (w : MarbleWorld E) (bname : string) : option Q :=
  dict_get (outcome_dists (events w)) bname.

(** The sampling loop, on any list of names: every name of the list gets
    the smaller of its entry and the squared distance of its body. *)
Lemma record_dists_loop (l : list string) :
  forall w w' : MarbleWorld E,
  for_each l
    (fun bname w =>
       b <- body_of w bname ;;
       let d := exit_dist (b_position b) in
       cur <- getitem (outcome_dists (events w)) bname ;;
       if Qltb d cur
       then Ok (set_outcome_dists w (dict_set (outcome_dists (events w)) bname d))
       else Ok w) w
  = Ok w' ->
  (exists d, w' = set_outcome_dists w d) /\
  (forall bname, In bname l ->
     exists b cur, body_of w bname = Ok b /\ dist_of w bname = Some cur /\
       dist_of w' bname
       = Some (if Qltb (exit_dist (b_position b)) cur
               then exit_dist (b_position b) else cur)) /\
  (forall bname, ~ In bname l -> dist_of w' bname = dist_of w bname).
Proof.
  induction l as [|k l IH]; simpl; intros w w' H.
  - inversion H; subst. split; [|split]; auto; try tauto.
    exists (outcome_dists (events w')). now destruct w' as [? ? [] ? ? ? ? ?].
  - apply bind_Ok in H. destruct H as (w1 & Hk & H).
    apply bind_Ok in Hk. destruct Hk as (b0 & Hb0 & Hk).
    apply bind_Ok in Hk. destruct Hk as (cur & Hcur & Hk).
    apply getitem_Ok in Hcur.
    set (d0 := exit_dist (b_position b0)) in *.
    set (m := if Qltb d0 cur then d0 else cur).
    assert (Hw1 : exists dd, w1 = set_outcome_dists w dd /\ dict_get dd k = Some m /\
                             forall k', k' <> k ->
                               dict_get dd k' = dict_get (outcome_dists (events w)) k').
    { unfold m. destruct (Qltb d0 cur); inversion Hk; subst w1.
      - eexists. split; [reflexivity|]. split; [apply dict_get_set_same|].
        intros k' Hne. apply dict_get_set_other. congruence.
      - exists (outcome_dists (events w)).
        split; [now destruct w as [? ? [] ? ? ? ? ?] | auto]. }
    destruct Hw1 as (dd & -> & Hm & Hother). clear Hk.
    destruct (IH _ _ H) as ((d2 & ->) & Hin & Hout). clear IH H.
    split; [eexists; reflexivity | split].
    + intros bname Hb.
      destruct (in_dec string_dec bname l) as [Hl | Hl].
      * destruct (Hin _ Hl) as (b & c1 & Hb1 & Hc1 & Hres).
        change (body_of w bname = Ok b) in Hb1.
        unfold dist_of in Hc1. cbn in Hc1.
        destruct (string_dec bname k) as [-> | Hne].
        -- assert (b = b0) by congruence. subst b.
           assert (c1 = m) by congruence. subst c1.
           exists b0, cur. repeat split; auto. rewrite Hres. fold d0.
           unfold m. clear. unfold Qltb.
           destruct (Qle_bool cur d0) eqn:H1; simpl.
           ++ now rewrite H1.
           ++ destruct (Qle_bool d0 d0) eqn:H2; [reflexivity|].
              exfalso. assert (Qle_bool d0 d0 = true)
                by (apply Qle_bool_iff, Qle_refl). congruence.
        -- rewrite Hother in Hc1 by assumption.
           exists b, c1. repeat split; auto.
      * destruct Hb as [<- | Hb]; [|contradiction].
        exists b0, cur. repeat split; auto.
        rewrite (Hout _ Hl). unfold dist_of. cbn. exact Hm.
    + intros bname Hn. rewrite Hout by tauto. unfold dist_of. cbn.
      apply Hother. intros ->. tauto.
Qed.

Section Sampling.

Variable call : Z -> Body -> Vec2 -> Q -> Q -> rng -> result (Body * rng).

(** One turn of the loop lowers the running minimum of an outcome body
    to the squared distance of its position, when that is smaller. *)
Lemma turn_min (st st' : @sim_state E) (bname : string) (cur : Q) :
  loop_body call st = Ok st' ->
  In bname (outcome_record_bodies (st_world st)) ->
  dist_of (st_world st) bname = Some cur ->
  exists b, body_of (st_world st) bname = Ok b /\
    dist_of (st_world st') bname
    = Some (if Qltb (exit_dist (b_position b)) cur
            then exit_dist (b_position b) else cur).
Proof.
  unfold loop_body. intros H Hin Hcur.
  apply bind_Ok in H. destruct H as (paths & _ & H).
  apply bind_Ok in H. destruct H as (w1 & Hd & H).
  apply bind_Ok in H. destruct H as ([w2 r2] & Hs & H).
  inversion H; subst; clear H.
  apply record_dists_loop in Hd. destruct Hd as (_ & Hd & _).
  destruct (Hd _ Hin) as (b & c1 & Hb & Hc1 & Hres).
  assert (c1 = cur) by congruence. subst c1.
  exists b. split; [exact Hb|].
  apply space_step_shape in Hs. destruct Hs as (h & c & cs & ws & -> & _).
  exact Hres.
Qed.

(** After [n] turns the running minimum is the smallest of its start and
    the squared distances of the positions the turns found. *)
Lemma turns_min (bname : string) (n : nat) :
  forall (st st_n : @sim_state E) (cur : Q),
  turns call n st = Ok st_n ->
  In bname (outcome_record_bodies (st_world st)) ->
  dist_of (st_world st) bname = Some cur ->
  exists m,
    dist_of (st_world st_n) bname = Some m /\
    (m <= cur)%Q /\
    (forall k st_k b,
       (k < n)%nat -> turns call k st = Ok st_k ->
       body_of (st_world st_k) bname = Ok b ->
       (m <= exit_dist (b_position b))%Q) /\
    (m = cur \/
     exists k st_k b,
       (k < n)%nat /\ turns call k st = Ok st_k /\
       body_of (st_world st_k) bname = Ok b /\ m = exit_dist (b_position b)).
Proof.
  induction n as [|n IH]; intros st st_n cur Ht Hin Hcur.
  - simpl in Ht. inversion Ht; subst. exists cur.
    repeat split; auto; [apply Qle_refl | intros; lia].
  - simpl in Ht. apply bind_Ok in Ht. destruct Ht as (st1 & H1 & Ht).
    destruct (turn_min _ _ _ _ H1 Hin Hcur) as (b0 & Hb0 & Hd1).
    pose proof (Qltb_min (exit_dist (b_position b0)) cur) as (Hm0 & Hm1 & Hm2).
    cbv zeta in Hm0, Hm1, Hm2.
    set (c1 := if Qltb (exit_dist (b_position b0)) cur
               then exit_dist (b_position b0) else cur) in *.
    assert (Hin1 : In bname (outcome_record_bodies (st_world st1))).
    { pose proof (loop_body_shape _ _ _ H1) as (h & c & cs & ws & d & -> & _).
      exact Hin. }
    destruct (IH st1 st_n c1 Ht Hin1 Hd1) as (m & Hm & Hle & Hall & Hex).
    exists m. split; [exact Hm | split; [|split]].
    + eapply Qle_trans; eauto.
    + intros k st_k b Hk Htk Hb. destruct k as [|k].
      * simpl in Htk. inversion Htk; subst st_k.
        assert (b = b0) by congruence. subst b.
        eapply Qle_trans; eauto.
      * simpl in Htk. rewrite H1 in Htk. simpl in Htk.
        apply (Hall k st_k b); auto. lia.
    + destruct Hex as [-> | (k & st_k & b & Hk & Htk & Hb & ->)].
      * destruct Hm2 as [-> | ->]; [|now left].
        right. exists O, st, b0. repeat split; auto. lia.
      * right. exists (S k), st_k, b. repeat split; auto; [lia|].
        simpl. rewrite H1. exact Htk.
Qed.

(** X1: when [simulate] returns, the entry of an outcome body in
    [outcome_dists] is a true running minimum: it is at most
    [full_length ** 2] and at most the squared exit distance of the
    body's position at the start of every turn of the loop, and it is
    either [full_length ** 2] or the squared exit distance at the start
    of one of the turns. *)
Theorem outcome_dist_is_running_minimum (w : MarbleWorld E) (r : rng)
  (st : @sim_state E) (bname : string) :
  simulate_run_by call w r = Some (Ok st) ->
  In bname (outcome_record_bodies w) ->
  exists m,
    dist_of (st_world st) bname = Some m /\
    (m <= full_length ^ 2)%Q /\
    (forall k st_k b,
       (k < turns_left (step w))%nat ->
       turns call k (mk_state (fst (simulate_setup w)) r (snd (simulate_setup w)))
       = Ok st_k ->
       body_of (st_world st_k) bname = Ok b ->
       (m <= exit_dist (b_position b))%Q) /\
    (m = (full_length ^ 2)%Q \/
     exists k st_k b,
       (k < turns_left (step w))%nat /\
       turns call k (mk_state (fst (simulate_setup w)) r (snd (simulate_setup w)))
       = Ok st_k /\
       body_of (st_world st_k) bname = Ok b /\ m = exit_dist (b_position b)).
Proof.
  intros H Hin. apply simulate_run_by_Ok in H.
  destruct H as (st1 & Ht & Hc & _).
  apply classify_shape in Hc. destruct Hc as (o & Hw).
  assert (H0 : dist_of (fst (simulate_setup w)) bname = Some (full_length ^ 2)%Q).
  { unfold dist_of, simulate_setup, set_outcome_dists. cbn.
    now apply fold_set_const. }
  destruct (turns_min bname _ _ _ _ Ht Hin H0) as (m & Hm & Hrest).
  exists m. split; [|exact Hrest].
  rewrite Hw. exact Hm.
Qed.

End Sampling.

End RunningMinimum.

(** ** Trajectories *)

Lemma dict_get_set_keeps {V : Type} (d : dict V) (k k' : string) (v : V) :
  dict_get d k' <> None -> dict_get (dict_set d k v) k' <> None.
Proof.
  intros H. destruct (string_dec k k') as [-> | Hne].
  - rewrite dict_get_set_same. discriminate.
  - now rewrite dict_get_set_other.
Qed.

Section Trajectories.

Context {E : Engine}.

(** The recording loop, on a list of names without repetition: the
    position and the velocity of the body are appended to the entry of
    every name of the list. *)
Lemma record_paths_loop (w : MarbleWorld E) (l : list string) :
  NoDup l ->
  forall paths paths' : Paths,
  for_each l
    (fun bname (paths : Paths) =>
       e <- getitem paths bname ;;
       b <- body_of w bname ;;
       let paths := dict_set paths bname (fst e ++ [b_position b], snd e) in
       e <- getitem paths bname ;;
       b <- body_of w bname ;;
       Ok (dict_set paths bname (fst e, snd e ++ [b_velocity b]))) paths
  = Ok paths' ->
  (forall bname, In bname l ->
     exists e b, dict_get paths bname = Some e /\ body_of w bname = Ok b /\
       dict_get paths' bname
       = Some (fst e ++ [b_position b], snd e ++ [b_velocity b])) /\
  (forall bname, ~ In bname l -> dict_get paths' bname = dict_get paths bname).
Proof.
  induction 1 as [|k l Hk Hnd IH]; simpl; intros paths paths' H.
  - inversion H; subst. split; [contradiction | auto].
  - apply bind_Ok in H. destruct H as (p1 & Hstep & H).
    apply bind_Ok in Hstep. destruct Hstep as (e & He & Hstep).
    apply bind_Ok in Hstep. destruct Hstep as (b & Hb & Hstep).
    apply bind_Ok in Hstep. destruct Hstep as (e' & He' & Hstep).
    apply bind_Ok in Hstep. destruct Hstep as (b' & Hb' & Hstep).
    assert (b' = b) by congruence. subst b'.
    apply getitem_Ok in He, He'. rewrite dict_get_set_same in He'.
    inversion He'; subst e'. clear He'. simpl in Hstep.
    inversion Hstep; subst p1; clear Hstep.
    destruct (IH _ _ H) as (Hin & Hout). clear IH H. split.
    + intros bname [<- | Hl].
      * exists e, b. repeat split; auto.
        rewrite (Hout _ Hk). apply dict_get_set_same.
      * destruct (Hin _ Hl) as (e1 & b1 & He1 & Hb1 & Hres).
        exists e1, b1. repeat split; auto.
        rewrite <- He1.
        assert (k <> bname) by (intros ->; contradiction).
        now rewrite !dict_get_set_other.
    + intros bname Hn. rewrite Hout by tauto.
      assert (k <> bname) by (intros ->; tauto).
      now rewrite !dict_get_set_other.
Qed.

Section Recording.

Variable call : Z -> Body -> Vec2 -> Q -> Q -> rng -> result (Body * rng).

Lemma turn_paths (st st' : @sim_state E) (bname : string) (e : list Vec2 * list Vec2) :
  NoDup (path_record_bodies (st_world st)) ->
  loop_body call st = Ok st' ->
  In bname (path_record_bodies (st_world st)) ->
  dict_get (st_paths st) bname = Some e ->
  exists b, body_of (st_world st) bname = Ok b /\
    dict_get (st_paths st') bname
    = Some (fst e ++ [b_position b], snd e ++ [b_velocity b]).
Proof.
  unfold loop_body. intros Hnd H Hin He.
  apply bind_Ok in H. destruct H as (paths & Hp & H).
  apply bind_Ok in H. destruct H as (w1 & _ & H).
  apply bind_Ok in H. destruct H as ([w2 r2] & _ & H).
  inversion H; subst; clear H. cbn.
  apply (record_paths_loop _ _ Hnd) in Hp. destruct Hp as (Hp & _).
  destruct (Hp _ Hin) as (e1 & b & He1 & Hb & Hres).
  assert (e1 = e) by congruence. subst e1. eauto.
Qed.

(** After [n] turns the entry of a recorded body has [n] more positions
    and [n] more velocities, the [k]-th of them those of the body at the
    start of turn [k]. *)
Lemma turns_paths (bname : string) (n : nat) :
  forall (st st_n : @sim_state E) (e : list Vec2 * list Vec2),
  NoDup (path_record_bodies (st_world st)) ->
  turns call n st = Ok st_n ->
  In bname (path_record_bodies (st_world st)) ->
  dict_get (st_paths st) bname = Some e ->
  exists ps vs,
    dict_get (st_paths st_n) bname = Some (fst e ++ ps, snd e ++ vs) /\
    List.length ps = n /\ List.length vs = n /\
    (forall k st_k b,
       turns call k st = Ok st_k -> (k < n)%nat ->
       body_of (st_world st_k) bname = Ok b ->
       nth_error ps k = Some (b_position b) /\
       nth_error vs k = Some (b_velocity b)).
Proof.
  induction n as [|n IH]; intros st st_n e Hnd Ht Hin He.
  - simpl in Ht. inversion Ht; subst. exists [], []. rewrite !app_nil_r.
    destruct e. repeat split; auto; intros; lia.
  - simpl in Ht. apply bind_Ok in Ht. destruct Ht as (st1 & H1 & Ht).
    destruct (turn_paths _ _ _ _ Hnd H1 Hin He) as (b0 & Hb0 & He1).
    pose proof (loop_body_shape _ _ _ H1) as (h & c & cs & ws & d & Hw & _).
    assert (Hnd1 : NoDup (path_record_bodies (st_world st1)))
      by (rewrite Hw; exact Hnd).
    assert (Hin1 : In bname (path_record_bodies (st_world st1)))
      by (rewrite Hw; exact Hin).
    destruct (IH st1 st_n _ Hnd1 Ht Hin1 He1) as (ps & vs & Hres & Hlp & Hlv & Hk).
    cbn [fst snd] in Hres. rewrite <- !app_assoc in Hres.
    exists (b_position b0 :: ps), (b_velocity b0 :: vs).
    split; [exact Hres | split; [simpl; lia | split; [simpl; lia|]]].
    intros k st_k b Htk Hlt Hb. destruct k as [|k].
    + simpl in Htk. inversion Htk; subst st_k.
      assert (b = b0) by congruence. subst b. auto.
    + simpl in Htk. rewrite H1 in Htk. simpl in Htk. simpl.
      apply (Hk k st_k b); auto. lia.
Qed.

(** X2: when [simulate] returns for a world at step 0 whose list of
    recorded names has no repetition, the trajectory of every recorded
    body has 751 positions and 751 velocities, and the [k]-th of them
    are the position and the velocity of the body at the start of turn
    [k], before the space steps. *)
Theorem trajectory_has_a_sample_per_turn (w : MarbleWorld E) (r : rng)
  (st : @sim_state E) (bname : string) :
  step w = 0 ->
  NoDup (path_record_bodies w) ->
  simulate_run_by call w r = Some (Ok st) ->
  In bname (path_record_bodies w) ->
  exists ps vs,
    dict_get (st_paths st) bname = Some (ps, vs) /\
    List.length ps = 751%nat /\ List.length vs = 751%nat /\
    (forall k st_k b,
       turns call k (mk_state (fst (simulate_setup w)) r (snd (simulate_setup w)))
       = Ok st_k ->
       (k < 751)%nat ->
       body_of (st_world st_k) bname = Ok b ->
       nth_error ps k = Some (b_position b) /\
       nth_error vs k = Some (b_velocity b)).
Proof.
  intros H0 Hnd H Hin. apply simulate_run_by_Ok in H.
  destruct H as (st1 & Ht & _ & _ & Hp).
  rewrite H0 in Ht. change (turns_left 0) with 751%nat in Ht.
  assert (He : dict_get (snd (simulate_setup w)) bname = Some ([], [])).
  { unfold simulate_setup. cbn. now apply fold_set_const. }
  destruct (turns_paths bname _
              (mk_state (fst (simulate_setup w)) r (snd (simulate_setup w)))
              st1 ([], []) Hnd Ht Hin He) as (ps & vs & Hres & Hrest).
  exists ps, vs. rewrite Hp. split; [exact Hres | exact Hrest].
Qed.

End Recording.

End Trajectories.

(** ** The events of a run *)

Section Appending.

Context {E : Engine}.

Variable call : Z -> Body -> Vec2 -> Q -> Q -> rng -> result (Body * rng).

(** The turns of the loop append events, stamped with their steps, and
    leave what the space is made of as it is. *)
Lemma turns_append (n : nat) :
  forall st st_n : @sim_state E,
  turns call n st = Ok st_n ->
  exists cs ws,
    collisions (events (st_world st_n)) = collisions (events (st_world st)) ++ cs /\
    wall_bounces (events (st_world st_n)) = wall_bounces (events (st_world st)) ++ ws /\
    Forall (fun e => step (st_world st) <= ev_step e
                     < step (st_world st) + Z.of_nat n) cs /\
    Forall (fun e => step (st_world st) <= ev_step e
                     < step (st_world st) + Z.of_nat n) ws /\
    outcome (events (st_world st_n)) = outcome (events (st_world st)) /\
    sp_bodies (space (st_world st_n)) = sp_bodies (space (st_world st)) /\
    sp_shapes (space (st_world st_n)) = sp_shapes (space (st_world st)) /\
    sp_handlers (space (st_world st_n)) = sp_handlers (space (st_world st)) /\
    bodies (st_world st_n) = bodies (st_world st) /\
    shapes (st_world st_n) = shapes (st_world st) /\
    walls (st_world st_n) = walls (st_world st).
Proof.
  induction n as [|n IH]; intros st st_n Ht.
  - simpl in Ht. inversion Ht; subst. exists [], []. rewrite !app_nil_r.
    repeat split; auto.
  - simpl in Ht. apply bind_Ok in Ht. destruct Ht as (st1 & H1 & Ht).
    pose proof (loop_body_shape _ _ _ H1) as (h & c & cs & ws & d & Hw & Hcs & Hws).
    destruct (IH _ _ Ht) as (cs' & ws' & Hc' & Hw' & Hfc & Hfw & Hrest).
    rewrite Hw in Hc', Hw', Hfc, Hfw, Hrest. cbn in Hc', Hw', Hfc, Hfw, Hrest.
    exists (cs ++ cs'), (ws ++ ws'). rewrite !app_assoc.
    split; [exact Hc' | split; [exact Hw' | split; [|split; [|exact Hrest]]]].
    + apply Forall_app. split.
      * eapply Forall_impl; [|exact Hcs]. simpl. intros e He. lia.
      * eapply Forall_impl; [|exact Hfc]. simpl. intros e He. lia.
    + apply Forall_app. split.
      * eapply Forall_impl; [|exact Hws]. simpl. intros e He. lia.
      * eapply Forall_impl; [|exact Hfw]. simpl. intros e He. lia.
Qed.

(** X3: [simulate] only appends to the recorded events: the collisions
    and the wall bounces the world had before the call are a prefix of
    those it has when the call returns, and every event that was added
    carries a step between the step the world was at and [step_max].
    The bodies and the shapes of the space, its collision handlers, the
    registries and the walls are the same after the call. *)
Theorem simulate_appends_events (w : MarbleWorld E) (r : rng) (st : @sim_state E) :
  simulate_run_by call w r = Some (Ok st) ->
  exists cs ws,
    collisions (events (st_world st)) = collisions (events w) ++ cs /\
    wall_bounces (events (st_world st)) = wall_bounces (events w) ++ ws /\
    Forall (fun e => step w <= ev_step e <= step_max) cs /\
    Forall (fun e => step w <= ev_step e <= step_max) ws /\
    sp_bodies (space (st_world st)) = sp_bodies (space w) /\
    sp_shapes (space (st_world st)) = sp_shapes (space w) /\
    sp_handlers (space (st_world st)) = sp_handlers (space w) /\
    bodies (st_world st) = bodies w /\
    shapes (st_world st) = shapes w /\
    walls (st_world st) = walls w.
Proof.
  intros H. apply simulate_run_by_Ok in H. destruct H as (st1 & Ht & Hc & _).
  apply classify_shape in Hc. destruct Hc as (o & Hw).
  apply turns_append in Ht.
  destruct Ht as (cs & ws & Hcs & Hws & Hfc & Hfw & _ & Hrest).
  cbn in Hcs, Hws, Hfc, Hfw, Hrest.
  exists cs, ws. rewrite Hw. cbn.
  assert (Hb : forall s, step w <= s < step w + Z.of_nat (turns_left (step w)) ->
                         step w <= s <= step_max).
  { unfold turns_left. intros s Hs. lia. }
  split; [exact Hcs | split; [exact Hws | split; [|split; [|exact Hrest]]]].
  - eapply Forall_impl; [|exact Hfc]. intros e. apply Hb.
  - eapply Forall_impl; [|exact Hfw]. intros e. apply Hb.
Qed.

End Appending.

(** ** Names that are tracked *)

Section Tracking.

Context {E : Engine}.

(** Only the marbles of the configuration are entered in [self.bodies]. *)
Lemma marbles_loop_registry (l : dict pydict) :
  forall (w w' : MarbleWorld E) (k : string),
  for_each l init_marble w = Ok w' ->
  (dict_get (bodies w') k <> None <->
   In k (map fst l) \/ dict_get (bodies w) k <> None).
Proof.
  induction l as [|m l IH]; simpl; intros w w' k H.
  - inversion H; subst. tauto.
  - bind_inv H. apply init_marble_inv in Ha.
    destruct Ha as (p & velocity & delay & noisy & _ & _ & _ & _ & Ha).
    rewrite add_marble_Ok in Ha. inversion Ha; subst a; clear Ha.
    rewrite (IH _ _ k H). cbn.
    destruct (string_dec (fst m) k) as [-> | Hne].
    + rewrite dict_get_set_same. split; intros _; [tauto | right; discriminate].
    + rewrite dict_get_set_other by assumption. tauto.
Qed.

Lemma walls_loop_registry (l : list pydict) :
  forall w w' : MarbleWorld E,
  for_each l init_wall w = Ok w' -> bodies w' = bodies w.
Proof.
  intros w w' H. apply walls_loop in H.
  destruct H as (hs & ss & -> & _). reflexivity.
Qed.

Lemma init_registry marbles extra_walls gate prb orb (w : MarbleWorld E) (k : string) :
  init marbles extra_walls gate prb orb = Ok w ->
  (dict_get (bodies w) k <> None <-> In k (map fst marbles)).
Proof.
  rewrite init_unfold. intros H. bind_inv H. bind_inv H.
  inversion H; subst w; clear H.
  apply walls_loop_registry in Ha.
  rewrite (marbles_loop_registry _ _ _ k Ha0), Ha. cbn. tauto.
Qed.

Lemma body_of_registered (w : MarbleWorld E) (k : string) :
  dict_get (bodies w) k <> None -> exists b, body_of w k = Ok b.
Proof.
  unfold body_of, getitem. destruct (dict_get (bodies w) k); [|tauto].
  intros _. simpl. eauto.
Qed.

Lemma body_of_stranger (w : MarbleWorld E) (k : string) :
  dict_get (bodies w) k = None -> body_of w k = Raise (KeyError k).
Proof. unfold body_of, getitem. now intros ->. Qed.

(** The recording loop up to the first name that is not registered. *)
Lemma record_paths_stranger (w : MarbleWorld E) (bname : string) (l2 : list string) :
  dict_get (bodies w) bname = None ->
  forall (l1 : list string) (paths : Paths),
  (forall k, In k l1 -> dict_get (bodies w) k <> None) ->
  (forall k, In k (l1 ++ [bname]) -> dict_get paths k <> None) ->
  for_each (l1 ++ bname :: l2)
    (fun bname (paths : Paths) =>
       e <- getitem paths bname ;;
       b <- body_of w bname ;;
       let paths := dict_set paths bname (fst e ++ [b_position b], snd e) in
       e <- getitem paths bname ;;
       b <- body_of w bname ;;
       Ok (dict_set paths bname (fst e, snd e ++ [b_velocity b]))) paths
  = Raise (KeyError bname).
Proof.
  intros Hs. induction l1 as [|k l1 IH]; simpl; intros paths Hreg Hkeys.
  - unfold getitem at 1.
    destruct (dict_get paths bname) eqn:Hp; [|exfalso; apply (Hkeys bname); auto].
    simpl. now rewrite (body_of_stranger _ _ Hs).
  - unfold getitem at 1.
    destruct (dict_get paths k) as [e|] eqn:Hp; [|exfalso; apply (Hkeys k); auto].
    simpl. destruct (body_of_registered w k (Hreg k (or_introl eq_refl))) as (b & Hb).
    rewrite Hb. simpl. unfold getitem at 1. rewrite dict_get_set_same. simpl.
    apply IH; auto.
    intros k' Hk'. apply dict_get_set_keeps, dict_get_set_keeps. auto.
Qed.

Lemma record_paths_registered (w : MarbleWorld E) :
  forall (l : list string) (paths : Paths),
  (forall k, In k l -> dict_get (bodies w) k <> None) ->
  (forall k, In k l -> dict_get paths k <> None) ->
  exists paths',
    for_each l
      (fun bname (paths : Paths) =>
         e <- getitem paths bname ;;
         b <- body_of w bname ;;
         let paths := dict_set paths bname (fst e ++ [b_position b], snd e) in
         e <- getitem paths bname ;;
         b <- body_of w bname ;;
         Ok (dict_set paths bname (fst e, snd e ++ [b_velocity b]))) paths
    = Ok paths'.
Proof.
  induction l as [|k l IH]; simpl; intros paths Hreg Hkeys; [eauto|].
  unfold getitem at 1.
  destruct (dict_get paths k) as [e|] eqn:Hp; [|exfalso; apply (Hkeys k); auto].
  simpl. destruct (body_of_registered w k (Hreg k (or_introl eq_refl))) as (b & Hb).
  rewrite Hb. simpl. unfold getitem at 1. rewrite dict_get_set_same. simpl.
  apply IH; auto.
  intros k' Hk'. apply dict_get_set_keeps, dict_get_set_keeps. auto.
Qed.

(** The sampling loop up to the first name that is not registered. *)
Lemma record_dists_stranger (bname : string) (l2 : list string) :
  forall (l1 : list string) (w : MarbleWorld E),
  dict_get (bodies w) bname = None ->
  (forall k, In k l1 -> dict_get (bodies w) k <> None) ->
  (forall k, In k l1 -> dist_of w k <> None) ->
  for_each (l1 ++ bname :: l2)
    (fun bname w =>
       b <- body_of w bname ;;
       let d := exit_dist (b_position b) in
       cur <- getitem (outcome_dists (events w)) bname ;;
       if Qltb d cur
       then Ok (set_outcome_dists w (dict_set (outcome_dists (events w)) bname d))
       else Ok w) w
  = Raise (KeyError bname).
Proof.
  induction l1 as [|k l1 IH]; simpl; intros w Hs Hreg Hkeys.
  - now rewrite (body_of_stranger _ _ Hs).
  - destruct (body_of_registered w k (Hreg k (or_introl eq_refl))) as (b & Hb).
    rewrite Hb. simpl. unfold getitem.
    pose proof (Hkeys k (or_introl eq_refl)) as Hk. unfold dist_of in Hk.
    destruct (dict_get (outcome_dists (events w)) k) as [cur|]; [|tauto].
    simpl. destruct (Qltb (exit_dist (b_position b)) cur); simpl.
    + apply IH; auto.
      intros k' Hk'. unfold dist_of. cbn. apply dict_get_set_keeps.
      apply Hkeys. auto.
    + apply IH; auto.
Qed.

Lemma fold_set_keys {V : Type} (l : list string) (v : V) (k : string) (d : dict V) :
  In k l -> dict_get (fold_left (fun d k => dict_set d k v) l d) k <> None.
Proof.
  intros H. rewrite (fold_set_const l v k H). discriminate.
Qed.

(** [simulate]: the set-up, the loop, the outcome loop. *)
Lemma simulate_run_by_eq
  (call : Z -> Body -> Vec2 -> Q -> Q -> rng -> result (Body * rng))
  (w : MarbleWorld E) (r : rng) :
  simulate_run_by call w r
  = match while_loop call (turns_left (step w))
            (mk_state (fst (simulate_setup w)) r (snd (simulate_setup w))) with
    | Some (Ok st) =>
        match classify (st_world st) with
        | Ok w' => Some (Ok (mk_state w' (st_rng st) (st_paths st)))
        | Raise e => Some (Raise e)
        end
    | Some (Raise e) => Some (Raise e)
    | None => None
    end.
Proof. reflexivity. Qed.

Lemma record_paths_raises (w : MarbleWorld E) (paths : Paths) (bname : string)
  (l1 l2 : list string) :
  path_record_bodies w = l1 ++ bname :: l2 ->
  dict_get (bodies w) bname = None ->
  (forall k, In k l1 -> dict_get (bodies w) k <> None) ->
  (forall k, In k (path_record_bodies w) -> dict_get paths k <> None) ->
  record_paths w paths = Raise (KeyError bname).
Proof.
  intros Hl Hs Hreg Hkeys. unfold record_paths. rewrite Hl in *.
  apply record_paths_stranger; auto.
  intros k Hk. apply Hkeys. apply in_app_or in Hk. apply in_or_app.
  destruct Hk as [Hk | [<- | []]]; [left; exact Hk | right; left; reflexivity].
Qed.

Lemma record_paths_returns (w : MarbleWorld E) (paths : Paths) :
  (forall k, In k (path_record_bodies w) -> dict_get (bodies w) k <> None) ->
  (forall k, In k (path_record_bodies w) -> dict_get paths k <> None) ->
  exists paths', record_paths w paths = Ok paths'.
Proof. intros. now apply record_paths_registered. Qed.

Lemma record_dists_raises (w : MarbleWorld E) (bname : string) (l1 l2 : list string) :
  outcome_record_bodies w = l1 ++ bname :: l2 ->
  dict_get (bodies w) bname = None ->
  (forall k, In k l1 -> dict_get (bodies w) k <> None) ->
  (forall k, In k (outcome_record_bodies w) -> dist_of w k <> None) ->
  record_dists w = Raise (KeyError bname).
Proof.
  intros Hl Hs Hreg Hkeys. unfold record_dists. rewrite Hl in *.
  apply record_dists_stranger; auto.
  intros k Hk. apply Hkeys. apply in_or_app. now left.
Qed.

(** X4: in a world that [__init__] made, every tracked name must be the
    name of a marble: walls are not entered in [self.bodies].  When the
    first name of [path_record_bodies] that is no marble is [bname], or
    all of them are marbles and the first name of
    [outcome_record_bodies] that is no marble is [bname], [simulate]
    raises [KeyError(bname)] in its first turn. *)
Theorem tracking_a_stranger_raises
  (call : Z -> Body -> Vec2 -> Q -> Q -> rng -> result (Body * rng))
  marbles extra_walls gate prb orb (w : MarbleWorld E) (r : rng) (bname : string) :
  init marbles extra_walls gate prb orb = Ok w ->
  ~ In bname (map fst marbles) ->
  (exists l1 l2, prb = l1 ++ bname :: l2 /\ incl l1 (map fst marbles)) \/
  (incl prb (map fst marbles) /\
   exists l1 l2, orb = l1 ++ bname :: l2 /\ incl l1 (map fst marbles)) ->
  simulate_run_by call w r = Some (Raise (KeyError bname)).
Proof.
  intros Hi Hn Hcase.
  assert (Hreg : forall k, dict_get (bodies w) k <> None <-> In k (map fst marbles))
    by (intros k; eapply init_registry; eauto).
  assert (Hs : dict_get (bodies w) bname = None).
  { destruct (dict_get (bodies w) bname) eqn:Hb; [|reflexivity].
    exfalso. apply Hn, Hreg. congruence. }
  apply init_inv in Hi.
  destruct Hi as (hw & hm & bs & ws & ms & _ & _ & _ & _ & _ & Hstep & _ & Hprb & Horb & _).
  set (w0 := fst (simulate_setup w)).
  set (p0 := snd (simulate_setup w)).
  assert (Hb0 : bodies w0 = bodies w) by reflexivity.
  assert (Hp0 : path_record_bodies w0 = prb) by exact Hprb.
  assert (Ho0 : outcome_record_bodies w0 = orb) by exact Horb.
  assert (Hk0 : forall k, In k (path_record_bodies w0) -> dict_get p0 k <> None).
  { intros k Hk. unfold p0, simulate_setup. cbn [snd]. now apply fold_set_keys. }
  assert (Hd0 : forall k, In k (outcome_record_bodies w0) -> dist_of w0 k <> None).
  { intros k Hk. unfold dist_of, w0, simulate_setup. cbn. now apply fold_set_keys. }
  assert (Hbody : loop_body call (mk_state w0 r p0) = Raise (KeyError bname)).
  { unfold loop_body. cbn [st_world st_paths st_rng].
    destruct Hcase as [(l1 & l2 & Hl & Hl1) | (Hall & l1 & l2 & Hl & Hl1)].
    - rewrite (record_paths_raises w0 p0 bname l1 l2); auto.
      + congruence.
      + intros k Hk. rewrite Hb0. apply Hreg, Hl1, Hk.
    - destruct (record_paths_returns w0 p0) as (paths' & Hp); auto.
      + intros k Hk. rewrite Hb0. apply Hreg, Hall. congruence.
      + rewrite Hp. cbn [bind].
        rewrite (record_dists_raises w0 bname l1 l2); auto.
        * congruence.
        * intros k Hk. rewrite Hb0. apply Hreg, Hl1, Hk. }
  rewrite simulate_run_by_eq, while_loop_turns by reflexivity.
  rewrite Hstep. change (turns_left 0) with (S 750).
  cbn [turns]. fold w0 p0. rewrite Hbody. reflexivity.
Qed.

Lemma classify_returns (l : list string) :
  forall w : MarbleWorld E,
  (forall bname, In bname l -> exists b, body_of w bname = Ok b) ->
  exists w',
    for_each l
      (fun bname w =>
         b <- body_of w bname ;;
         if Qgtb (fst (b_position b)) (- marble_size / 2)
         then Ok (set_outcome w (dict_set (outcome (events w)) bname false))
         else Ok (set_outcome w (dict_set (outcome (events w)) bname true))) w
    = Ok w'.
Proof.
  induction l as [|k l IH]; simpl; intros w Hb; [eauto|].
  destruct (Hb k (or_introl eq_refl)) as (b & Hk). rewrite Hk. simpl.
  destruct (Qgtb _ _); apply IH; intros bname Hin;
    destruct (Hb bname (or_intror Hin)) as (b' & Hb'); exists b'; exact Hb'.
Qed.

(** X5: [simulate] does not reset the step counter.  Called again on a
    world it has stepped from step 0, it returns without making a turn:
    the step stays 751, the space, the collisions and the wall bounces
    and the outcomes are as the first call left them, no random number
    is drawn, every recorded trajectory comes back empty and every
    tracked running minimum is back at [full_length ** 2]. *)
Theorem simulate_again_makes_no_turn
  (call call' : Z -> Body -> Vec2 -> Q -> Q -> rng -> result (Body * rng))
  (w : MarbleWorld E) (r r' : rng) (st : @sim_state E) :
  step w = 0 ->
  simulate_run_by call w r = Some (Ok st) ->
  exists st2,
    simulate_run_by call' (st_world st) r' = Some (Ok st2) /\
    step (st_world st2) = 751 /\
    st_rng st2 = r' /\
    space (st_world st2) = space (st_world st) /\
    collisions (events (st_world st2)) = collisions (events (st_world st)) /\
    wall_bounces (events (st_world st2)) = wall_bounces (events (st_world st)) /\
    (forall bname,
       dict_get (outcome (events (st_world st2))) bname
       = dict_get (outcome (events (st_world st))) bname) /\
    (forall bname, In bname (outcome_record_bodies w) ->
       dist_of (st_world st2) bname = Some (full_length ^ 2)%Q) /\
    (forall bname, In bname (path_record_bodies w) ->
       dict_get (st_paths st2) bname = Some ([], [])).
Proof.
  intros H0 H. apply simulate_run_by_Ok in H.
  destruct H as (st1 & Ht & Hc & _).
  pose proof (turns_step _ _ _ _ Ht) as Hs.
  pose proof (turns_setting _ _ _ _ Ht) as (_ & Ho & Hp).
  cbn in Hs, Ho, Hp. rewrite H0 in Hs. change (turns_left 0) with 751%nat in Hs.
  simpl in Hs.
  pose proof (classify_outcome _ _ Hc) as Hout.
  pose proof (classify_shape _ _ Hc) as (o & Hw).
  set (w2 := fst (simulate_setup (st_world st))).
  assert (Hbody : forall bname, body_of w2 bname = body_of (st_world st1) bname).
  { intros bname. unfold w2. rewrite Hw. reflexivity. }
  assert (Horb : outcome_record_bodies w2 = outcome_record_bodies w).
  { unfold w2. rewrite Hw. exact Ho. }
  destruct (classify_returns (outcome_record_bodies w2) w2) as (w3 & Hc2).
  { intros bname Hin. rewrite Hbody. rewrite Horb, <- Ho in Hin.
    destruct (Hout bname Hin) as (b & Hb & _). eauto. }
  exists (mk_state w3 r' (snd (simulate_setup (st_world st)))).
  assert (Hstep : step (st_world st) = 751) by (rewrite Hw; exact Hs).
  split.
  { rewrite simulate_run_by_eq, while_loop_turns by reflexivity.
    rewrite Hstep. change (turns_left 751) with O. cbn [turns st_world st_rng st_paths].
    fold w2. unfold classify. rewrite Hc2. reflexivity. }
  pose proof (classify_loop _ _ _ Hc2) as ((o3 & Hw3) & Hin3 & Hout3).
  cbn [st_world st_rng st_paths]. rewrite Hw3.
  split; [exact Hstep | split; [reflexivity | split; [reflexivity|]]].
  split; [reflexivity | split; [reflexivity | split; [|split]]].
  - intros bname. rewrite <- Hw3.
    destruct (in_dec string_dec bname (outcome_record_bodies w2)) as [Hin | Hin].
    + destruct (Hin3 _ Hin) as (b & Hb & ->).
      rewrite Horb, <- Ho in Hin.
      destruct (Hout _ Hin) as (b' & Hb' & ->).
      rewrite Hbody in Hb. congruence.
    + rewrite (Hout3 _ Hin). reflexivity.
  - intros bname Hin. unfold dist_of. cbn.
    apply fold_set_const. rewrite Hw. cbn. now rewrite Ho.
  - intros bname Hin. unfold simulate_setup. cbn [snd].
    apply fold_set_const. rewrite Hw. cbn. now rewrite Hp.
Qed.


End Tracking.

(** ** Marbles as they are constructed *)

Section Fresh.

Context {E : Engine}.

(** X6: in the world [__init__] makes of a configuration, the marble
    registered under a name is a dynamic body at the configured
    position, with the velocity zero whatever velocity is configured,
    the angle 0 and the mass 1, and it is among the bodies the space
    steps; the configured velocity, delay and noise step are kept in its
    velocity function. *)
Theorem marbles_start_at_rest marbles extra_walls gate prb orb (w : MarbleWorld E)
  (name : string) (m : pydict) :
  init marbles extra_walls gate prb orb = Ok w ->
  NoDup (map fst marbles) ->
  In (name, m) marbles ->
  exists p velocity delay noisy a,
    dict_get m "position" = Some (vpair p) /\
    dict_get m "velocity" = Some velocity /\
    dict_get m "delay" = Some delay /\
    dict_get m "noisy" = Some noisy /\
    dict_get (bodies w) name = Some a /\
    In a (sp_bodies (space w)) /\
    body_of w name
    = Ok (mk_body DYNAMIC (VStr name) p vec_zero 0 0 1
                  (Some (mk_closure velocity delay noisy))).
Proof.
  intros Hi Hnd Hin.
  apply In_nth_error in Hin. destruct Hin as (i & Hi_m).
  apply init_inv in Hi.
  destruct Hi as (hw & hm & bs & ws & ms & Hh & Hbs & _ & _ & _ & _ & _ & _ & _ & _
                  & _ & _ & _ & Hmm & Hseq & Hreg).
  specialize (Hreg Hnd i (name, m) Hi_m). simpl in Hreg.
  destruct (Forall2_nth_error_l _ _ _ Hmm i _ Hi_m) as (b0 & Hb0 & Hmade).
  destruct Hmade as (p & v & d & n & Hp & Hv & Hd & Hn & ->).
  simpl in Hp, Hv, Hd, Hn.
  exists p, v, d, n, (List.length hw + i)%nat.
  repeat split; auto.
  - rewrite Hbs, Hseq. apply in_seq.
    assert (i < List.length marbles)%nat by (apply nth_error_Some; congruence).
    lia.
  - unfold body_of, getitem. rewrite Hreg. cbn [bind]. f_equal.
    apply heap_get_nth_error. rewrite Hh, nth_error_app2 by lia.
    now replace (List.length hw + i - List.length hw)%nat with i by lia.
Qed.

End Fresh.

(** ** Noise of no width *)

(** With [velocity_noise] zero, a noise action that fires draws its two
    random numbers and leaves the velocity of the body as it is. *)
Lemma noise_of_no_width (cls : class_state) (stp : Z) (c : closure) (b : Body)
  (z0 z1 : Q) (r : rng) :
  velocity_noise cls == 0 ->
  py_eq_int stp (cl_noisy c) = true ->
  exists v,
    noise cls stp c b (z0 :: z1 :: r) = (set_velocity b v, r) /\
    vec_eq v (b_velocity b).
Proof.
  intros H0 Hn. unfold noise. rewrite Hn. cbn [gauss].
  eexists. split; [reflexivity|].
  split; cbn [fst snd]; rewrite H0; ring.
Qed.

(** ** Runs that return *)

(** A body whose velocity function, if it has one of a marble, holds a
    velocity that is a pair of numbers. *)
Definition launchable (b : Body) : Prop :=
  match b_velocity_func b with
  | Some c => exists v, cl_velocity c = vpair v
  | None => True
  end.

Section Returning.

Context {E : Engine}.

Hypothesis laws : EngineLaws E.

Variable cls : class_state.

Lemma launchable_same_func (b b' : Body) :
  b_velocity_func b' = b_velocity_func b -> launchable b -> launchable b'.
Proof. unfold launchable. now intros ->. Qed.

Lemma velocity_func_returns (stp : Z) (b : Body) (g : Vec2) (d dt : Q) (r : rng) :
  launchable b ->
  exists b' r', velocity_func (E := E) cls stp b g d dt r = Ok (b', r') /\
                launchable b'.
Proof.
  intros Hb.
  assert (Hex : exists b' r', velocity_func (E := E) cls stp b g d dt r = Ok (b', r')).
  { unfold velocity_func, launchable in *.
    destruct (b_velocity_func b) as [c|]; [|eauto].
    unfold delayed_velocity, launch, impulse_of.
    destruct Hb as ([vx vy] & ->).
    destruct (py_eq_int stp (cl_delay c)); cbn [vpair as_vec2 bind fst snd];
      destruct (noise cls stp c _ r); eauto. }
  destruct Hex as (b' & r' & H). exists b', r'. split; [exact H|].
  eapply launchable_same_func; [|exact Hb].
  eapply velocity_func_keeps_func; eauto.
Qed.

Lemma integrate_velocities_returns (stp : Z) (g : Vec2) (d dt : Q) (bs : list nat) :
  forall h r, Forall launchable h ->
  exists h' r',
    integrate_velocities (velocity_func (E := E) cls) stp g d dt bs (h, r)
    = Ok (h', r') /\ Forall launchable h'.
Proof.
  unfold integrate_velocities.
  induction bs as [|a bs IH]; simpl; intros h r Hh; [eauto|].
  destruct (velocity_func_returns stp (heap_get h a) g d dt r) as (b' & r' & Hc & Hb').
  { apply heap_get_Forall; [exact I | exact Hh]. }
  rewrite Hc. simpl. apply IH. now apply heap_set_Forall.
Qed.

Lemma launchable_solve (c : cache E) (ss : list Shape) (dt : Q) (h : list Body) :
  Forall launchable h -> Forall launchable (solve E c ss dt h).
Proof.
  intros Hh. pose proof (law_solve_func E laws c ss dt h) as H2.
  induction H2 as [|x y l l' Hxy _ IH]; [constructor|].
  inversion Hh; subst. constructor; auto.
  eapply launchable_same_func; eauto.
Qed.

Lemma space_step_returns (w : MarbleWorld E) (r : rng) (dt : Q) :
  Forall launchable (sp_heap (space w)) ->
  exists w' r', space_step (velocity_func (E := E) cls) w r dt = Ok (w', r') /\
                Forall launchable (sp_heap (space w')).
Proof.
  intros Hh. unfold space_step.
  destruct (collide E _ _ _) as [begun c].
  match goal with |- context [fold_left begin_contact begun ?x] =>
    destruct (begin_contacts_logged begun x) as (cs & ws & Hw & _) end.
  rewrite Hw. clear Hw.
  cbn [space step set_events set_space set_cache set_heap
       sp_heap sp_bodies sp_shapes sp_gravity sp_damping sp_cache].
  match goal with
  | |- context [integrate_velocities _ ?s ?g ?d ?t ?bs (?h, ?r)] =>
      destruct (integrate_velocities_returns s g d t bs h r) as (h' & r' & Hv & Hh')
  end.
  { apply (integrate_positions_Forall launchable); [exact I | | exact Hh].
    intros b dt0 Hb. eapply launchable_same_func; [|exact Hb].
    now destruct (law_position E laws b dt0) as (_ & _ & _ & Hf & _). }
  rewrite Hv. cbn [bind]. eexists _, _. split; [reflexivity|].
  cbn. now apply launchable_solve.
Qed.

(** What a turn needs to go through, and keeps. *)
Definition ready (st : @sim_state E) : Prop :=
  Forall launchable (sp_heap (space (st_world st))) /\
  (forall k, In k (path_record_bodies (st_world st)) ->
             dict_get (bodies (st_world st)) k <> None /\
             dict_get (st_paths st) k <> None) /\
  (forall k, In k (outcome_record_bodies (st_world st)) ->
             dict_get (bodies (st_world st)) k <> None /\
             dist_of (st_world st) k <> None).

Lemma record_dists_returns (l : list string) :
  forall w : MarbleWorld E,
  (forall k, In k l -> dict_get (bodies w) k <> None /\ dist_of w k <> None) ->
  exists w',
    for_each l
      (fun bname w =>
         b <- body_of w bname ;;
         let d := exit_dist (b_position b) in
         cur <- getitem (outcome_dists (events w)) bname ;;
         if Qltb d cur
         then Ok (set_outcome_dists w (dict_set (outcome_dists (events w)) bname d))
         else Ok w) w
    = Ok w'.
Proof.
  induction l as [|k l IH]; simpl; intros w Hk; [eauto|].
  destruct (Hk k (or_introl eq_refl)) as (Hb & Hd).
  destruct (body_of_registered w k Hb) as (b & Hbo). rewrite Hbo. simpl.
  unfold getitem. unfold dist_of in Hd.
  destruct (dict_get (outcome_dists (events w)) k) as [cur|]; [|tauto].
  simpl. destruct (Qltb _ _); apply IH; intros k' Hk'.
  - destruct (Hk k' (or_intror Hk')) as (Hb' & Hd'). split; [exact Hb'|].
    unfold dist_of. cbn. now apply dict_get_set_keeps.
  - apply Hk. now right.
Qed.

Lemma loop_body_returns (st : @sim_state E) :
  ready st ->
  exists st', loop_body (velocity_func (E := E) cls) st = Ok st' /\ ready st'.
Proof.
  intros (Hh & Hp & Ho). unfold loop_body.
  destruct (record_paths_returns (st_world st) (st_paths st)) as (paths' & Hrp).
  { intros k Hk. now apply Hp. }
  { intros k Hk. now apply Hp. }
  rewrite Hrp. cbn [bind].
  destruct (record_dists_returns (outcome_record_bodies (st_world st)) (st_world st) Ho)
    as (w1 & Hrd).
  assert (Hrd2 : record_dists (st_world st) = Ok w1) by exact Hrd.
  rewrite Hrd2. cbn [bind].
  pose proof Hrd as Hrd'. apply record_dists_loop in Hrd'.
  destruct Hrd' as ((d1 & Hw1) & Hin1 & Hout1).
  destruct (space_step_returns w1 (st_rng st) step_size) as (w2 & r2 & Hss & Hh2).
  { rewrite Hw1. exact Hh. }
  rewrite Hss. cbn [bind]. eexists. split; [reflexivity|].
  pose proof (space_step_shape _ _ _ _ _ _ Hss) as (h & c & cs & ws & Hw2 & _).
  split; [exact Hh2 | split].
  - intros k Hk. cbn in Hk |- *. rewrite Hw2, Hw1 in Hk |- *. cbn in Hk |- *.
    split; [now apply Hp|].
    unfold record_paths in Hrp.
    destruct (dict_get paths' k) eqn:Hpk; [discriminate|]. exfalso.
    revert Hrp Hpk. generalize (Hp k Hk). intros [_ Hk0].
    generalize (st_paths st) Hk0. generalize (path_record_bodies (st_world st)).
    clear. induction l as [|x l IH]; simpl; intros p0 Hk0 H Hn.
    + inversion H; subst. contradiction.
    + apply bind_Ok in H. destruct H as (p1 & Hstep & H).
      apply bind_Ok in Hstep. destruct Hstep as (e & He & Hstep).
      apply bind_Ok in Hstep. destruct Hstep as (b & Hb & Hstep).
      apply bind_Ok in Hstep. destruct Hstep as (e' & He' & Hstep).
      apply bind_Ok in Hstep. destruct Hstep as (b' & Hb' & Hstep).
      inversion Hstep; subst p1.
      eapply IH; [|exact H | exact Hn].
      now apply dict_get_set_keeps, dict_get_set_keeps.
  - intros k Hk. cbn in Hk |- *. rewrite Hw2, Hw1 in Hk |- *. cbn in Hk |- *.
    split; [now apply Ho|].
    destruct (Hin1 k Hk) as (b & cur & _ & _ & Hres).
    rewrite Hw1 in Hres. unfold dist_of in Hres |- *. cbn in Hres |- *.
    rewrite Hres. discriminate.
Qed.

Lemma turns_return (n : nat) :
  forall st : @sim_state E, ready st ->
  exists st', turns (velocity_func (E := E) cls) n st = Ok st' /\ ready st'.
Proof.
  induction n as [|n IH]; intros st Hr; simpl; [eauto|].
  destruct (loop_body_returns st Hr) as (st1 & H1 & Hr1).
  rewrite H1. simpl. now apply IH.
Qed.

(** X7: [simulate] returns without an exception for a world that
    [__init__] made, when every tracked name is the name of a marble and
    the velocity of every marble is a pair of numbers. *)
Theorem simulate_returns marbles extra_walls gate prb orb (w : MarbleWorld E)
  (r : rng) :
  init marbles extra_walls gate prb orb = Ok w ->
  incl prb (map fst marbles) ->
  incl orb (map fst marbles) ->
  Forall (fun m => forall vel, dict_get (snd m) "velocity" = Some vel ->
                               exists v, vel = vpair v) marbles ->
  exists ev paths, simulate cls w r = Some (Ok (ev, paths)).
Proof.
  intros Hi Hprb Horb Hvel.
  assert (Hreg : forall k, dict_get (bodies w) k <> None <-> In k (map fst marbles))
    by (intros k; eapply init_registry; eauto).
  apply init_inv in Hi.
  destruct Hi as (hw & hm & bs & ws & ms & Hh & _ & _ & _ & _ & Hstep & _ & Hp & Ho
                  & _ & _ & _ & Hwm & Hmm & _).
  set (st0 := mk_state (fst (simulate_setup w)) r (snd (simulate_setup w))).
  assert (Hr0 : ready st0).
  { split; [|split].
    - cbn. rewrite Hh. apply Forall_app. split.
      + clear -Hwm. induction Hwm as [|wall b l hw' (name & p & _ & _ & ->) _ IH];
          constructor; auto. exact I.
      + clear -Hmm Hvel. induction Hmm as [|m b l hm' Hb _ IH]; [constructor|].
        inversion Hvel; subst. constructor; auto.
        destruct Hb as (p & v & d & n & _ & Hv & _ & _ & ->).
        unfold launchable. simpl. auto.
    - intros k Hk. cbn in Hk |- *. split.
      + apply Hreg, Hprb. congruence.
      + unfold simulate_setup. cbn [snd]. now apply fold_set_keys.
    - intros k Hk. cbn in Hk |- *. split.
      + apply Hreg, Horb. congruence.
      + unfold dist_of. cbn. now apply fold_set_keys. }
  destruct (turns_return (turns_left (step w)) st0 Hr0) as (st1 & Ht & (_ & _ & Hr1)).
  destruct (classify_returns (outcome_record_bodies (st_world st1)) (st_world st1))
    as (w2 & Hc).
  { intros k Hk. apply body_of_registered. now apply Hr1. }
  exists (events w2), (st_paths st1).
  unfold simulate, simulate_run. rewrite simulate_run_by_eq.
  rewrite while_loop_turns by reflexivity. fold st0. rewrite Ht.
  unfold classify. rewrite Hc. reflexivity.
Qed.

End Returning.

(** ** A launch with noise of no width *)

Lemma gauss_no_width (sigma : Q) (r : rng) :
  sigma == 0 -> fst (gauss 1 sigma r) == 1.
Proof.
  intros H. destruct r as [|z r]; simpl; [reflexivity|].
  rewrite H. ring.
Qed.

Section QuietNoise.

Context {E : Engine}.

Hypothesis laws : EngineLaws E.

Variable cls : class_state.

Hypothesis no_width : velocity_noise cls == 0.

Lemma launch_call_no_width (d : Z) (c : closure) (v : Vec2) (b b' : Body) (dt : Q)
  (r r' : rng) :
  at_rest c b -> py_eq_int d (cl_delay c) = true -> cl_velocity c = vpair v ->
  velocity_func (E := E) cls d b vec_zero 1 dt r = Ok (b', r') ->
  vec_eq (b_velocity b') (vec_scale v speed).
Proof.
  intros Hb Hd Hv. unfold velocity_func.
  pose proof (rest_velocity laws c b dt Hb) as ([Hx Hy] & Ha & Hw & Hm & Hf).
  destruct Hb as (_ & _ & _ & _ & Hfb). rewrite Hfb.
  unfold delayed_velocity, launch, impulse_of. rewrite Hd, Hv.
  destruct v as [vx vy]. cbn [vpair as_vec2 bind fst snd].
  destruct (law_impulse E laws (update_velocity E b vec_zero 1 dt)
                        (vec_scale (vx, vy) speed)) as (_ & _ & _ & _ & Hi).
  destruct (Hi Ha) as [Hix Hiy].
  assert (Hlx : fst (b_velocity (apply_impulse_at_local_point E
                       (update_velocity E b vec_zero 1 dt) (vec_scale (vx, vy) speed)))
                == vx * speed).
  { rewrite Hix. cbn. rewrite Hx, Hm. cbn. field. }
  assert (Hly : snd (b_velocity (apply_impulse_at_local_point E
                       (update_velocity E b vec_zero 1 dt) (vec_scale (vx, vy) speed)))
                == vy * speed).
  { rewrite Hiy. cbn. rewrite Hy, Hm. cbn. field. }
  unfold noise. destruct (py_eq_int d (cl_noisy c)).
  - pose proof (gauss_no_width (velocity_noise cls) r no_width) as Hg0.
    destruct (gauss 1 (velocity_noise cls) r) as [g0 r0].
    pose proof (gauss_no_width (velocity_noise cls) r0 no_width) as Hg1.
    destruct (gauss 1 (velocity_noise cls) r0) as [g1 r1].
    cbn [fst] in Hg0, Hg1.
    intros H. inversion H; subst b' r'; clear H.
    split; cbn [b_velocity set_velocity fst snd vec_scale].
    + rewrite Hlx, Hg0. ring.
    + rewrite Hly, Hg1. ring.
  - intros H. inversion H; subst b' r'; clear H.
    split; cbn [fst snd vec_scale]; assumption.
Qed.

Lemma turn_launch_no_width (c : closure) (v : Vec2) (a : nat)
  (st st' : @sim_state E) :
  loop_body (velocity_func (E := E) cls) st = Ok st' ->
  sp_gravity (space (st_world st)) = vec_zero ->
  sp_damping (space (st_world st)) = 1%Q ->
  NoDup (sp_bodies (space (st_world st))) ->
  In a (sp_bodies (space (st_world st))) ->
  (exists b, nth_error (sp_heap (space (st_world st))) a = Some b /\ at_rest c b) ->
  py_eq_int (step (st_world st)) (cl_delay c) = true ->
  cl_velocity c = vpair v ->
  contact_free_world (st_world st') a = true ->
  exists b, nth_error (sp_heap (space (st_world st'))) a = Some b /\
            vec_eq (b_velocity b) (vec_scale v speed).
Proof.
  intros Hl Hg Hd Hnd Hin (b & Hb & Hr) Hs Hvel Hc.
  apply loop_body_heap in Hl. destruct Hl as (c0 & h2 & r' & Hv & Hh & Hc0 & Hss).
  rewrite Hg, Hd in Hv.
  destruct (@integrate_positions_at E (at_rest c) a step_size
              (fun b0 => rest_position laws c b0 step_size)
              (sp_bodies (space (st_world st))) _ _ Hb Hr) as (b1 & Hb1 & Hr1).
  destruct (integrate_velocities_once (velocity_func (E := E) cls) a _ _ _ _
              _ _ _ _ _ _ Hnd Hin Hb1 Hv) as (r1 & r2 & b2 & Hcall & Hb2).
  exists b2. split.
  - rewrite Hh, (law_solve_local E laws); [exact Hb2|].
    unfold contact_free_world in Hc. now rewrite Hc0, Hss in Hc.
  - eapply launch_call_no_width; eauto.
Qed.

(** X9: with [velocity_noise] zero, a marble launched at step [d] with
    no contact in the turns 0 to [d] is sampled after turn [d] with the
    velocity [v * speed], also when its noise step is [d] itself. *)
Theorem launch_with_noise_of_no_width marbles extra_walls gate prb orb
  (w : MarbleWorld E) (r : rng) (name : string) (m : pydict) (v : Vec2)
  (q : Q) (d : nat) (st' : @sim_state E) :
  init marbles extra_walls gate prb orb = Ok w ->
  NoDup (map fst marbles) ->
  In (name, m) marbles ->
  dict_get m "velocity" = Some (vpair v) ->
  dict_get m "delay" = Some (VNum q) ->
  q == inject_Z (Z.of_nat d) ->
  quiet (velocity_func (E := E) cls) (S d) (entering w r) (address_of w name) = true ->
  turns (velocity_func (E := E) cls) (S d) (entering w r) = Ok st' ->
  exists b, body_of (st_world st') name = Ok b /\
            vec_eq (b_velocity b) (vec_scale v speed).
Proof.
  intros Hi Hnd Hin Hv Hd Hq Hquiet Ht.
  apply In_nth_error in Hin. destruct Hin as (i & Hi_m).
  apply init_inv in Hi.
  destruct Hi as (hw & hm & bs & ws & ms & Hh & Hbs & _ & _ & _ & Hstep & _ & _ & _ & _
                  & Hg & Hp & _ & Hmm & Hseq & Hreg).
  specialize (Hreg Hnd i (name, m) Hi_m). simpl in Hreg.
  destruct (Forall2_nth_error_l _ _ _ Hmm i _ Hi_m) as (b0 & Hb0 & Hmade).
  destruct Hmade as (p & v' & d' & n' & _ & Hv' & Hd' & _ & ->).
  simpl in Hv', Hd'.
  assert (v' = vpair v) by congruence.
  assert (d' = VNum q) by congruence. subst v' d'.
  set (c := mk_closure (vpair v) (VNum q) n') in *.
  assert (Hfire : py_eq_int (Z.of_nat d) (cl_delay c) = true).
  { simpl. apply Qeq_bool_iff. now symmetry. }
  set (a := (List.length hw + i)%nat) in *.
  assert (Haddr : address_of w name = a) by (unfold address_of; now rewrite Hreg).
  rewrite Haddr in Hquiet.
  assert (Hrest0 : exists b, nth_error (sp_heap (space (st_world (entering w r)))) a
                             = Some b /\ at_rest c b).
  { exists (marble_body p name c). cbn. rewrite Hh. split.
    - unfold a. rewrite nth_error_app2 by lia.
      now replace (List.length hw + i - List.length hw)%nat with i by lia.
    - repeat split; reflexivity. }
  pose proof Ht as Ht'.
  apply turns_snoc in Ht. destruct Ht as (st_d & Htd & Hl).
  assert (Hr : exists b, nth_error (sp_heap (space (st_world st_d))) a = Some b /\
                         at_rest c b).
  { apply (rest_until laws cls c a (Z.of_nat d) Hfire d (entering w r) st_d); auto.
    - cbn. rewrite Hstep. lia.
    - apply (quiet_prefix _ (S d)); [lia | exact Hquiet]. }
  pose proof (turns_statics _ _ _ _ Htd) as (Hg' & Hp' & Hb' & _).
  pose proof (turns_step _ _ _ _ Htd) as Hsd.
  cbn in Hg', Hp', Hb', Hsd. rewrite Hstep in Hsd. simpl in Hsd.
  assert (Hc := quiet_last _ _ _ _ _ _ Hquiet Htd Hl).
  destruct (turn_launch_no_width c v a st_d st' Hl) as (b & Hb & Hvb); auto;
    try congruence.
  - rewrite Hb', Hbs, Hseq. apply seq_NoDup.
  - rewrite Hb', Hbs, Hseq. apply in_seq. unfold a.
    assert (i < List.length marbles)%nat by (apply nth_error_Some; congruence).
    lia.
  - exists b. split; [|exact Hvb].
    apply turns_statics in Ht'. destruct Ht' as (_ & _ & _ & Hbd). cbn in Hbd.
    unfold body_of, getitem. rewrite Hbd, Hreg. cbn.
    now rewrite (heap_get_nth_error _ _ _ Hb).
Qed.

End QuietNoise.

(** * Screen coordinates *)

(** [int(x)] of a float: the integer part, towards zero. *)
Definition py_int (q : Q) : Z :=
  if Qle_bool 0 q then Qfloor q else Qceiling q.

(** [pymunk_to_pygame]: the upper left corner, in screen coordinates (y
    downwards), of the box of the given length and height around the
    point [(x, y)].  The subtractions are exact here.  The code's are on
    floats, and give the same where they do not round, as on whole
    numbers of magnitude up to [2 ^ 53]. *)
Definition pymunk_to_pygame (x y length height : Q) : Z * Z :=
  (py_int (x - length / 2), py_int (full_height - y - height / 2)).

Lemma py_int_of_Z (q : Q) (z : Z) : q == inject_Z z -> py_int q = z.
Proof.
  intros H. unfold py_int. destruct (Qle_bool 0 q).
  - rewrite (Qfloor_comp _ _ H). apply Qfloor_Z.
  - rewrite (Qceiling_comp _ _ H). apply Qceiling_Z.
Qed.

(** X10: on points with integer coordinates that floats hold exactly
    ([x] of magnitude up to [2 ^ 53], [y] up to [2 ^ 53 - 600], so that
    neither [x], [y] nor [600 - y] is rounded), and without a box,
    [pymunk_to_pygame] keeps [x] and mirrors [y] at [full_height]:
    [(x, y)] goes to [(x, 600 - y)], and applying it to the result gives
    [(x, y)] back. *)
Theorem pymunk_to_pygame_mirrors (x y : Z) :
  Z.abs x <= 2 ^ 53 ->
  Z.abs y <= 2 ^ 53 - 600 ->
  pymunk_to_pygame (inject_Z x) (inject_Z y) 0 0 = (x, 600 - y) /\
  pymunk_to_pygame (inject_Z (fst (pymunk_to_pygame (inject_Z x) (inject_Z y) 0 0)))
                   (inject_Z (snd (pymunk_to_pygame (inject_Z x) (inject_Z y) 0 0)))
                   0 0
  = (x, y).
Proof.
  intros _ _.
  assert (H : forall a b : Z,
             pymunk_to_pygame (inject_Z a) (inject_Z b) 0 0 = (a, 600 - b)).
  { intros a b. unfold pymunk_to_pygame. f_equal; apply py_int_of_Z.
    - field.
    - unfold full_height, Zminus. rewrite inject_Z_plus, inject_Z_opp. field. }
  split; [apply H|]. rewrite !H. cbn [fst snd]. f_equal. lia.
Qed.

(** * The filters of [simulations.py] *)

Module Simulations.

(** A threshold: a number, or [math.inf]. *)
Inductive bound : Type :=
| Finite (q : Q)
| Infinity.

(** [threshold ** 2] *)
Definition squared (b : bound) : bound :=
  match b with
  | Finite q => Finite (q ^ 2)
  | Infinity => Infinity
  end.

(** [x < b], [x > b] and [n <= b] *)
Definition below (x : Q) (b : bound) : bool :=
  match b with
  | Finite q => Qltb x q
  | Infinity => true
  end.

Definition above (x : Q) (b : bound) : bool :=
  match b with
  | Finite q => Qgtb x q
  | Infinity => false
  end.

Definition at_most (n : nat) (b : bound) : bool :=
  match b with
  | Finite q => Qle_bool (inject_Z (Z.of_nat n)) q
  | Infinity => true
  end.

(** What the look-ups of the filters raise. *)
Inductive failure : Type :=
| NoKey (key : string)
| NoIndex (index : nat).

Inductive answer (A : Type) : Type :=
| Value (a : A)
| Failed (f : failure).

Arguments Value {A} a.
Arguments Failed {A} f.

Definition lookup {V : Type} (d : dict V) (k : string) : answer V :=
  match dict_get d k with
  | Some v => Value v
  | None => Failed (NoKey k)
  end.

(** [var in e['objects']] *)
Definition names (e : event) (var : string) : bool :=
  let is_name v := match v with VStr s => String.eqb s var | _ => false end in
  is_name (fst (ev_objects e)) || is_name (snd (ev_objects e)).

(** [ideal_helper] *)
Definition ideal_helper (ev : Events) (target var : string) (threshold : bound)
  : answer bool :=
  match lookup (outcome ev) target with
  | Value true =>
      match lookup (outcome_dists ev) target with
      | Value d => Value (below d (squared threshold))
      | Failed f => Failed f
      end
  | Value false => Value false
  | Failed f => Failed f
  end.

(** [ideal_hinderer] *)
Definition ideal_hinderer (ev : Events) (target var : string) (threshold : bound)
  : answer bool :=
  match lookup (outcome ev) target with
  | Value true => Value false
  | Value false =>
      match lookup (outcome_dists ev) target with
      | Value d => Value (above d (squared threshold))
      | Failed f => Failed f
      end
  | Failed f => Failed f
  end.

(** [ideal_obstacle]; [ideal_non_obstacle] has the same body and another
    default for [lim_bounces]. *)
Definition ideal_obstacle (ev : Events) (target var : string)
  (lim_bounces dist_threshold : bound) : answer bool :=
  match lookup (outcome ev) target with
  | Value true =>
      match collisions ev with
      | [] => Failed (NoIndex 0)
      | first :: _ =>
          let col_step := ev_step first in
          let var_bounces :=
            List.length
              (filter (fun e => names e var && Z.ltb (ev_step e) col_step)
                      (wall_bounces ev)) in
          match lookup (outcome_dists ev) target with
          | Value d =>
              Value (below d (squared dist_threshold)
                     && at_most var_bounces lim_bounces)
          | Failed f => Failed f
          end
      end
  | Value false => Value false
  | Failed f => Failed f
  end.

Definition ideal_non_obstacle := ideal_obstacle.

(** X12: no record is both an ideal helper and an ideal hinderer,
    whatever the thresholds: the first needs the target to have passed,
    the second needs it not to. *)
Theorem helper_excludes_hinderer (ev : Events) (target var var' : string)
  (t t' : bound) :
  ideal_helper ev target var t = Value true ->
  ideal_hinderer ev target var' t' = Value false.
Proof.
  unfold ideal_helper, ideal_hinderer.
  destruct (lookup (outcome ev) target) as [[|]|f]; try discriminate.
  reflexivity.
Qed.

(** X13: [ideal_obstacle] reads the step of the first collision before
    anything else once the target has passed: for a record whose target
    passed without any collision it raises [IndexError], whatever the
    bounces and the limits; for a record whose target did not pass it is
    [False] and looks at nothing else. *)
Theorem obstacle_needs_a_collision (ev : Events) (target var : string)
  (lim thr : bound) (passed : bool) :
  dict_get (outcome ev) target = Some passed ->
  (passed = true -> collisions ev = [] ->
   ideal_obstacle ev target var lim thr = Failed (NoIndex 0)) /\
  (passed = false -> ideal_obstacle ev target var lim thr = Value false).
Proof.
  intros H. unfold ideal_obstacle, lookup. rewrite H.
  split; intros ->; [intros ->|]; reflexivity.
Qed.







End Simulations.

(** X15: on the events [simulate] returns, the filters with their
    default thresholds do not raise for a target that was tracked:
    [ideal_helper] is the outcome of the target, and [ideal_hinderer] is
    that the target did not pass and was never sampled at the centre of
    the exit. *)
Theorem filters_on_simulated_events {E : Engine}
  (call : Z -> Body -> Vec2 -> Q -> Q -> rng -> result (Body * rng))
  (w : MarbleWorld E) (r : rng) (st : @sim_state E) (target var : string) :
  simulate_run_by call w r = Some (Ok st) ->
  In target (outcome_record_bodies w) ->
  exists passed d,
    dict_get (outcome (events (st_world st))) target = Some passed /\
    dict_get (outcome_dists (events (st_world st))) target = Some d /\
    Simulations.ideal_helper (events (st_world st)) target var Simulations.Infinity
    = Simulations.Value passed /\
    Simulations.ideal_hinderer (events (st_world st)) target var (Simulations.Finite 0)
    = Simulations.Value (negb passed && Qgtb d 0).
Proof.
  intros H Hin. apply simulate_run_by_Ok in H.
  destruct H as (st1 & Ht & Hc & _).
  pose proof (turns_setting _ _ _ _ Ht) as (_ & Ho & _). cbn in Ho.
  destruct (classify_outcome _ _ Hc target) as (b & _ & Hout); [now rewrite Ho|].
  apply classify_shape in Hc. destruct Hc as (o & Hw).
  assert (H0 : dist_of (fst (simulate_setup w)) target = Some (full_length ^ 2)%Q).
  { unfold dist_of, simulate_setup, set_outcome_dists. cbn.
    now apply fold_set_const. }
  destruct (turns_min call target _ _ _ _ Ht Hin H0) as (m & Hm & _).
  exists (Qle_bool (fst (b_position b)) (- marble_size / 2)), m.
  assert (Hd : dict_get (outcome_dists (events (st_world st))) target = Some m)
    by (rewrite Hw; exact Hm).
  unfold Simulations.ideal_helper, Simulations.ideal_hinderer, Simulations.lookup.
  rewrite Hout, Hd.
  destruct (Qle_bool (fst (b_position b)) (- marble_size / 2)); auto.
Qed.

(** * The random source *)

Section Draws.

Context {E : Engine}.

Hypothesis laws : EngineLaws E.

Variable cls : class_state.

Lemma velocity_func_draws_nothing (stp : Z) (b b' : Body) (g : Vec2) (d dt : Q)
  (r r' : rng) :
  0 <= stp <= step_max -> noise_free b ->
  velocity_func (E := E) cls stp b g d dt r = Ok (b', r') ->
  r' = r /\ noise_free b'.
Proof.
  intros Hs Hb H. split.
  - unfold velocity_func, noise_free in *.
    destruct (b_velocity_func b) as [c|]; [|now inversion H].
    unfold delayed_velocity in H. bind_inv H.
    rewrite noise_out_of_horizon in H by assumption. now inversion H.
  - unfold noise_free in *.
    now rewrite (velocity_func_keeps_func laws _ _ _ _ _ _ _ _ _ H).
Qed.

Lemma integrate_velocities_draw_nothing (stp : Z) (g : Vec2) (d dt : Q)
  (bs : list nat) :
  0 <= stp <= step_max ->
  forall h r h' r', Forall noise_free h ->
  integrate_velocities (velocity_func (E := E) cls) stp g d dt bs (h, r)
  = Ok (h', r') ->
  r' = r /\ Forall noise_free h'.
Proof.
  intros Hs. unfold integrate_velocities.
  induction bs as [|a bs IH]; simpl; intros h r h' r' Hh H.
  - inversion H; subst. auto.
  - apply bind_Ok in H. destruct H as ([h1 r1] & H1 & H).
    apply bind_Ok in H1. destruct H1 as ([b1 r2] & Hc & H1).
    inversion H1; subst h1 r1; clear H1.
    apply velocity_func_draws_nothing in Hc; auto.
    + destruct Hc as [-> Hb1]. apply (IH _ _ _ _ (heap_set_Forall _ _ _ _ Hb1 Hh) H).
    + apply heap_get_Forall; [exact I | exact Hh].
Qed.

Lemma loop_body_draws_nothing (st st' : @sim_state E) :
  0 <= step (st_world st) <= step_max ->
  Forall noise_free (sp_heap (space (st_world st))) ->
  loop_body (velocity_func (E := E) cls) st = Ok st' ->
  st_rng st' = st_rng st /\ Forall noise_free (sp_heap (space (st_world st'))).
Proof.
  intros Hs Hh Hl. pose proof Hl as Hl'.
  apply loop_body_heap in Hl. destruct Hl as (c0 & h2 & r' & Hv & Hheap & _).
  apply integrate_velocities_draw_nothing in Hv; auto.
  - destruct Hv as [-> Hh2]. split.
    + unfold loop_body in Hl'. bind_inv Hl'. bind_inv Hl'.
      apply bind_Ok in Hl'. destruct Hl' as ([w2 r2] & Hss & Hl').
      inversion Hl'; subst; clear Hl'. cbn.
      apply record_dists_shape in Ha0. destruct Ha0 as (d & ->).
      unfold space_step in Hss.
      destruct (collide E _ _ _) as [begun c].
      match type of Hss with context [fold_left begin_contact begun ?x] =>
        destruct (begin_contacts_logged begun x) as (cs & ws & Hw & _) end.
      rewrite Hw in Hss. clear Hw.
      cbn [space step set_events set_space set_cache set_heap set_outcome_dists
           sp_heap sp_bodies sp_shapes sp_gravity sp_damping sp_cache] in Hss.
      apply bind_Ok in Hss. destruct Hss as ([h3 r3] & Hv3 & Hss).
      inversion Hss; subst; clear Hss.
      apply integrate_velocities_draw_nothing in Hv3; auto; [tauto|].
      apply (integrate_positions_Forall noise_free); auto; [exact I|].
      intros b dt Hb. unfold noise_free in *.
      now destruct (law_position E laws b dt) as (_ & _ & _ & -> & _).
    + rewrite Hheap. eapply noise_free_same_func; [apply (law_solve_func E laws)|].
      exact Hh2.
  - apply (integrate_positions_Forall noise_free); auto; [exact I|].
    intros b dt Hb. unfold noise_free in *.
    now destruct (law_position E laws b dt) as (_ & _ & _ & -> & _).
Qed.

Lemma turns_draw_nothing (n : nat) :
  forall st st' : @sim_state E,
  0 <= step (st_world st) ->
  step (st_world st) + Z.of_nat n <= step_max + 1 ->
  Forall noise_free (sp_heap (space (st_world st))) ->
  turns (velocity_func (E := E) cls) n st = Ok st' ->
  st_rng st' = st_rng st.
Proof.
  induction n as [|n IH]; intros st st' H0 Hn Hh Ht.
  - simpl in Ht. now inversion Ht.
  - simpl in Ht. apply bind_Ok in Ht. destruct Ht as (st1 & H1 & Ht).
    destruct (loop_body_draws_nothing st st1) as [Hr Hh1]; auto; [lia|].
    rewrite <- Hr. apply IH; auto.
    + pose proof (loop_body_shape _ _ _ H1) as (h & c & cs & ws & d & -> & _).
      unfold stepped. cbn [step]. lia.
    + pose proof (loop_body_shape _ _ _ H1) as (h & c & cs & ws & d & -> & _).
      unfold stepped. cbn [step]. lia.
Qed.

(** X16: a run in which no marble has a noise step within
    [0, step_max] draws no random number: the launches are not random,
    and the generator is handed back as it was given. *)
Theorem no_noise_no_draws marbles extra_walls gate prb orb (w : MarbleWorld E)
  (r : rng) (st : @sim_state E) :
  init marbles extra_walls gate prb orb = Ok w ->
  Forall (fun m => forall n, dict_get (snd m) "noisy" = Some n ->
                             in_horizon n = false) marbles ->
  simulate_run cls w r = Some (Ok st) ->
  st_rng st = r.
Proof.
  intros Hi Hm H. unfold simulate_run in H.
  apply simulate_run_by_Ok in H. destruct H as (st1 & Ht & _ & Hr & _).
  rewrite Hr.
  apply init_inv in Hi.
  destruct Hi as (hw & hm & bs & ws & ms & Hh & _ & _ & _ & _ & Hstep & _ & _ & _ & _
                  & _ & _ & Hwm & Hmm & _).
  apply turns_draw_nothing in Ht; auto.
  - cbn. rewrite Hstep. lia.
  - cbn. rewrite Hstep. unfold turns_left. rewrite step_max_750. simpl. lia.
  - cbn. rewrite Hh. apply Forall_app. split.
    + clear -Hwm. induction Hwm as [|wall b l hw' (name & p & _ & _ & ->) _ IH];
        constructor; auto. exact I.
    + clear -Hmm Hm. induction Hmm as [|m b l hm' Hb _ IH]; [constructor|].
      inversion Hm; subst. constructor; auto.
      destruct Hb as (p & v & d & n & _ & _ & _ & Hn & ->).
      unfold noise_free. simpl. auto.
Qed.

End Draws.

(** * More worked runs *)

Module Demo2.

(** The marble of [Demo.one], with its trajectory recorded. *)
Notation world_traced :=
  (built (init (E := Demo.E) Demo.one [] false ["E"] ["E"])).

(** The marble of [Demo.one], and the top wall taken for a marble. *)
Notation world_stranger :=
  (built (init (E := Demo.E) Demo.one [] false [] ["E"; "top_wall"])).

(** A marble launched and made noisy at step 2. *)
Definition both : dict pydict := [("E", marble (400, 300)%Q (-1, 0)%Q 2 2)].

Notation world_both := (built (init (E := Demo.E) both [] false [] ["E"])).


Definition record_free : Events :=
  mk_events [] [] [("E", true)] [("E", 4%Q)].

End Demo2.

Lemma minimum_of_one_marble :
  exists m,
    dist_of (st_world (final Demo.world_one)) "E" = Some m /\
    (m <= full_length ^ 2)%Q.
Proof.
  destruct (outcome_dist_is_running_minimum
              (velocity_func (E := Demo.E) class_body) Demo.world_one []
              (final Demo.world_one) "E") as (m & Hm & Hle & _).
  - apply ran_Ok. vm_compute. reflexivity.
  - vm_compute. left. reflexivity.
  - exists m. split; [exact Hm | exact Hle].
Defined.

Lemma trajectory_of_one_marble :
  exists ps vs,
    dict_get (st_paths (final Demo2.world_traced)) "E" = Some (ps, vs) /\
    List.length ps = 751%nat /\ List.length vs = 751%nat.
Proof.
  destruct (trajectory_has_a_sample_per_turn
              (velocity_func (E := Demo.E) class_body) Demo2.world_traced []
              (final Demo2.world_traced) "E") as (ps & vs & Hp & Hlp & Hlv & _).
  - vm_compute. reflexivity.
  - vm_compute. repeat constructor. intros [].
  - apply ran_Ok. vm_compute. reflexivity.
  - vm_compute. left. reflexivity.
  - exists ps, vs. auto.
Defined.

Lemma appended_by_two_marbles :
  exists cs ws,
    collisions (events (st_world (final Demo.world_two)))
    = collisions (events Demo.world_two) ++ cs /\
    wall_bounces (events (st_world (final Demo.world_two)))
    = wall_bounces (events Demo.world_two) ++ ws /\
    Forall (fun e => step Demo.world_two <= ev_step e <= step_max) cs /\
    Forall (fun e => step Demo.world_two <= ev_step e <= step_max) ws.
Proof.
  destruct (simulate_appends_events
              (velocity_func (E := Demo.E) class_body) Demo.world_two []
              (final Demo.world_two)) as (cs & ws & H1 & H2 & H3 & H4 & _).
  - apply ran_Ok. vm_compute. reflexivity.
  - exists cs, ws. auto.
Defined.

Lemma stranger_top_wall :
  simulate_run_by (velocity_func (E := Demo.E) class_body) Demo2.world_stranger []
  = Some (Raise (KeyError "top_wall")).
Proof.
  apply (tracking_a_stranger_raises (velocity_func (E := Demo.E) class_body)
           Demo.one [] false [] ["E"; "top_wall"] Demo2.world_stranger []
           "top_wall").
  - apply built_Ok. vm_compute. reflexivity.
  - simpl. intros [H | []]. discriminate H.
  - right. split; [intros k []|].
    exists ["E"], []. split; [reflexivity|].
    intros k [<- | []]. left. reflexivity.
Defined.

Lemma one_marble_again :
  exists st2,
    simulate_run_by (velocity_func (E := Demo.E) class_body)
                    (st_world (final Demo.world_one)) [1; 1]%Q = Some (Ok st2) /\
    step (st_world st2) = 751 /\
    st_rng st2 = [1; 1]%Q.
Proof.
  destruct (simulate_again_makes_no_turn
              (velocity_func (E := Demo.E) class_body)
              (velocity_func (E := Demo.E) class_body)
              Demo.world_one [] [1; 1]%Q (final Demo.world_one))
    as (st2 & H1 & H2 & H3 & _).
  - vm_compute. reflexivity.
  - apply ran_Ok. vm_compute. reflexivity.
  - exists st2. auto.
Defined.

Lemma one_marble_at_rest :
  exists p velocity delay noisy a,
    dict_get (marble (400, 300)%Q (-1, 0)%Q 2 (-1)) "position" = Some (vpair p) /\
    dict_get (marble (400, 300)%Q (-1, 0)%Q 2 (-1)) "velocity" = Some velocity /\
    dict_get (marble (400, 300)%Q (-1, 0)%Q 2 (-1)) "delay" = Some delay /\
    dict_get (marble (400, 300)%Q (-1, 0)%Q 2 (-1)) "noisy" = Some noisy /\
    dict_get (bodies Demo.world_one) "E" = Some a /\
    In a (sp_bodies (space Demo.world_one)) /\
    body_of Demo.world_one "E"
    = Ok (mk_body DYNAMIC (VStr "E") p vec_zero 0 0 1
                  (Some (mk_closure velocity delay noisy))).
Proof.
  apply (marbles_start_at_rest Demo.one [] false [] ["E"] Demo.world_one "E"
           (marble (400, 300)%Q (-1, 0)%Q 2 (-1))).
  - apply built_Ok. vm_compute. reflexivity.
  - repeat constructor. simpl. tauto.
  - left. reflexivity.
Defined.

Lemma one_marble_returns :
  exists ev paths, simulate class_body Demo.world_one [] = Some (Ok (ev, paths)).
Proof.
  apply (@simulate_returns Demo.E EulerLaws.laws class_body Demo.one [] false
           [] ["E"] Demo.world_one []).
  - apply built_Ok. vm_compute. reflexivity.
  - intros k [].
  - intros k [<- | []]. left. reflexivity.
  - constructor; [|constructor].
    intros vel H. exists (-1, 0)%Q. vm_compute in H. inversion H. reflexivity.
Defined.

Lemma launch_and_noise_at_once :
  exists b,
    body_of (st_world (after (mk_class_state 0) 3 Demo2.world_both [5; 7]%Q)) "E"
    = Ok b /\
    vec_eq (b_velocity b) (vec_scale (-1, 0)%Q speed).
Proof.
  apply (@launch_with_noise_of_no_width Demo.E EulerLaws.laws (mk_class_state 0)
           (Qeq_refl 0) Demo2.both [] false [] ["E"] Demo2.world_both [5; 7]%Q "E"
           (marble (400, 300)%Q (-1, 0)%Q 2 2) (-1, 0)%Q (inject_Z 2) 2%nat).
  - apply built_Ok. vm_compute. reflexivity.
  - repeat constructor. simpl. tauto.
  - left. reflexivity.
  - reflexivity.
  - reflexivity.
  - reflexivity.
  - vm_compute. reflexivity.
  - apply reached_Ok. vm_compute. reflexivity.
Defined.

Lemma helper_is_no_hinderer :
  Simulations.ideal_hinderer Demo2.record_free "E" "A" (Simulations.Finite 0)
  = Simulations.Value false.
Proof.
  apply (Simulations.helper_excludes_hinderer Demo2.record_free "E" "A" "A"
           Simulations.Infinity (Simulations.Finite 0)).
  reflexivity.
Defined.

Lemma obstacle_without_collision :
  (true = true -> collisions Demo2.record_free = [] ->
   Simulations.ideal_obstacle Demo2.record_free "E" "A"
     (Simulations.Finite 4) Simulations.Infinity
   = Simulations.Failed (Simulations.NoIndex 0)) /\
  (true = false ->
   Simulations.ideal_obstacle Demo2.record_free "E" "A"
     (Simulations.Finite 4) Simulations.Infinity
   = Simulations.Value false).
Proof.
  apply (Simulations.obstacle_needs_a_collision Demo2.record_free "E" "A"
           (Simulations.Finite 4) Simulations.Infinity true).
  reflexivity.
Defined.


Lemma screen_point_of_a_marble :
  pymunk_to_pygame (inject_Z 400) (inject_Z 250) 0 0 = (400, 600 - 250) /\
  pymunk_to_pygame
    (inject_Z (fst (pymunk_to_pygame (inject_Z 400) (inject_Z 250) 0 0)))
    (inject_Z (snd (pymunk_to_pygame (inject_Z 400) (inject_Z 250) 0 0)))
    0 0
  = (400, 250).
Proof.
  apply (pymunk_to_pygame_mirrors 400 250).
  - vm_compute. discriminate.
  - vm_compute. discriminate.
Defined.

Lemma filters_on_one_marble :
  exists passed d,
    dict_get (outcome (events (st_world (final Demo.world_one)))) "E" = Some passed /\
    dict_get (outcome_dists (events (st_world (final Demo.world_one)))) "E" = Some d /\
    Simulations.ideal_helper (events (st_world (final Demo.world_one))) "E" "A"
      Simulations.Infinity
    = Simulations.Value passed /\
    Simulations.ideal_hinderer (events (st_world (final Demo.world_one))) "E" "A"
      (Simulations.Finite 0)
    = Simulations.Value (negb passed && Qgtb d 0).
Proof.
  apply (filters_on_simulated_events (velocity_func (E := Demo.E) class_body)
           Demo.world_one [] (final Demo.world_one) "E" "A").
  - apply ran_Ok. vm_compute. reflexivity.
  - vm_compute. left. reflexivity.
Defined.

Lemma draws_of_one_marble :
  st_rng (ran (simulate_run class_body Demo.world_one [5; 7]%Q) Demo.world_one)
  = [5; 7]%Q.
Proof.
  apply (@no_noise_no_draws Demo.E EulerLaws.laws class_body Demo.one [] false
           [] ["E"] Demo.world_one [5; 7]%Q).
  - apply built_Ok. vm_compute. reflexivity.
  - constructor; [|constructor].
    intros n H. vm_compute in H. inversion H. reflexivity.
  - apply ran_Ok. vm_compute. reflexivity.
Defined.
